(** * Automatic diagram layout: GraphLayout.ts

    A shallow embedding of [packages/web/src/designer/GraphLayout.ts]:
    the graph model ([GraphNode], [GraphEdge], [GraphDefinition]), placed
    nodes and layout snapshots ([LayoutNode], [LayoutEdge], [GraphLayout])
    and the force accumulator of one relaxation step
    ([ForceAlgorithmStep]).

    Conventions of the embedding.
    - A JavaScript [number] is a real number ([R]): arithmetic is exact,
      rounding, infinities and NaN of IEEE doubles are not represented.
      Where the source would compute with [undefined] (a minimum of no
      values, a radius never initialised) the embedding says so with
      [None] or with the outcome [NotANumber].
    - A JavaScript object used as a dictionary is an association list in
      insertion order (the order [Object.values] and lodash follow for
      keys that are not array indices; designer ids are such keys, and
      none is ["__proto__"], which an assignment never makes a key).
      The dictionaries of the source are plain objects: [o[k]] and
      [k in o] also find the members every object inherits
      ([inherited]).  The embedding follows this in [addEdge], which
      looks up the ids its caller gives, and in [applyForce], which
      tests a designer id against an accumulator that starts empty.
    - [GraphNode] objects are compared by reference in the source.  A node
      reference carries its object identity [oid] and its constructor
      arguments (never reassigned); the fields the source mutates later
      ([neightboors], [radius]) live in the store of the graph, indexed
      by [oid]. *)

From Stdlib Require Import Reals Lra Lia List String Ascii Bool Arith Permutation.
Import ListNotations.

Local Open Scope R_scope.

(** ** Outcomes of a call *)

Inductive error : Type :=
| TypeError    (* property access on undefined or null *)
| NotANumber   (* arithmetic on undefined: leaves the real-number model *)
| OutOfFuel.   (* recursion bound of the embedding exhausted *)

Inductive result (A : Type) : Type :=
| Ok (a : A)
| Err (e : error).

Arguments Ok {A} a.
Arguments Err {A} e.

Definition bind {A B : Type} (r : result A) (k : A -> result B) : result B :=
  match r with
  | Ok a => k a
  | Err e => Err e
  end.

Notation "x <- r ;; k" := (bind r (fun x => k))
  (at level 61, r at next level, right associativity).

Fixpoint mapM {A B : Type} (f : A -> result B) (l : list A) : result (list B) :=
  match l with
  | [] => Ok []
  | a :: t => b <- f a ;; bs <- mapM f t ;; Ok (b :: bs)
  end.

(** A loop that threads a state through calls that may raise. *)
Fixpoint foldM {A S : Type} (f : S -> A -> result S) (l : list A) (s : S) : result S :=
  match l with
  | [] => Ok s
  | a :: t => s' <- f s a ;; foldM f t s'
  end.

(** ** JavaScript objects as dictionaries *)

(** The names of the members every plain object inherits from
    [Object.prototype]: [o[k]] finds a function under them (the prototype
    itself under ["__proto__"]) and [k in o] holds, also when [k] is no
    key of [o]. *)
Definition inherited (k : string) : bool :=
  existsb (String.eqb k)
    [ "constructor"; "hasOwnProperty"; "isPrototypeOf"; "propertyIsEnumerable";
      "toLocaleString"; "toString"; "valueOf"; "__proto__";
      "__defineGetter__"; "__defineSetter__"; "__lookupGetter__"; "__lookupSetter__" ]%string.

Section JsObject.
Context {V : Type}.

Fixpoint objGet (k : string) (o : list (string * V)) : option V :=
  match o with
  | [] => None
  | (k', v) :: t => if String.eqb k k' then Some v else objGet k t
  end.

(** [o[k] = v]: an existing key keeps its place, a new key goes last. *)
Fixpoint objSet (k : string) (v : V) (o : list (string * V)) : list (string * V) :=
  match o with
  | [] => [(k, v)]
  | (k', v') :: t => if String.eqb k k' then (k, v) :: t else (k', v') :: objSet k v t
  end.

Definition objHas (k : string) (o : list (string * V)) : bool :=
  match objGet k o with Some _ => true | None => false end.

Definition objKeys (o : list (string * V)) : list string := map fst o.

Definition objValues (o : list (string * V)) : list V := map snd o.

Definition objIsEmpty (o : list (string * V)) : bool :=
  match o with [] => true | _ => false end.

End JsObject.

Definition objMapValues {V W : Type} (f : V -> W) (o : list (string * V)) : list (string * W) :=
  map (fun kv => (fst kv, f (snd kv))) o.

(** ** designerMath *)

Module Vector2D.

Record t : Type := mk { x : R; y : R }.

(** Modelled from the spec: [Vector2D] of designerMath.ts is not part of
    the sources at hand; the spec speaks of 2D vectors, their sum, scaling,
    Euclidean length and unit vectors. *)
Definition add (v w : t) : t := mk (x v + x w) (y v + y w).

Definition subtract (v w : t) : t := mk (x v - x w) (y v - y w).

Definition multiply (v : t) (n : R) : t := mk (x v * n) (y v * n).

Definition divide (v : t) (n : R) : t := mk (x v / n) (y v / n).

Definition magnitude (v : t) : R := sqrt (x v * x v + y v * y v).

Definition normalise (v : t) : t := divide v (magnitude v).

End Vector2D.

Record IBoxBounds : Type := mkBox { left : R; top : R; right : R; bottom : R }.

(** Modelled from the spec: [rectangleDistance] of designerMath.ts is not
    part of the sources at hand; the spec calls it the
    rectangle-to-rectangle distance: the distance between the closest
    points of the two rectangles, zero when they meet. *)
Definition rectangleDistance (r1 r2 : IBoxBounds) : R :=
  let dx := Rmax 0 (Rmax (left r2 - right r1) (left r1 - right r2)) in
  let dy := Rmax 0 (Rmax (top r2 - bottom r1) (top r1 - bottom r2)) in
  sqrt (dx * dx + dy * dy).

(** Modelled from the spec: [rectangleIntersectArea] of designerMath.ts is
    not part of the sources at hand; the spec calls it the intersection
    area of two rectangles. *)
Definition rectangleIntersectArea (r1 r2 : IBoxBounds) : R :=
  let w := Rmax 0 (Rmin (right r1) (right r2) - Rmax (left r1) (left r2)) in
  let h := Rmax 0 (Rmin (bottom r1) (bottom r2) - Rmax (top r1) (top r2)) in
  w * h.

(** ** Constants *)

Definition MIN_NODE_DISTANCE : R := 50.
Definition SPRING_LENGTH : R := 100.
Definition SPRINGY_STEPS : nat := 50.
Definition GRAVITY : R := 1 / 100.
Definition REPULSION : R := 500000.
Definition MAX_FORCE_SIZE : R := 100.
Definition NODE_MARGIN : R := 20.
Definition MOVE_STEP : R := 20.
Definition MOVE_BIG_STEP : R := 70.
Definition MOVE_STEP_COUNT : nat := 1000.
Definition MINIMAL_SCORE_BENEFIT : R := 1.

(** ** Graph model *)

Module GraphNode.

(** A reference to a [GraphNode] object: its identity and the constructor
    arguments. *)
Record t : Type := mk { oid : nat; designerId : string; width : R; height : R }.

(** The mutable fields of a [GraphNode] object. *)
Record fields : Type := mkFields { neightboors : list t; radius : option R }.

(** [neightboors = []], [radius] not yet assigned. *)
Definition fresh : fields := mkFields [] None.

(** [a == b] on object references. *)
Definition same (a b : t) : bool := Nat.eqb (oid a) (oid b).

Definition store : Type := nat -> fields.

Definition update (o : nat) (f : fields) (st : store) : store :=
  fun o' => if Nat.eqb o' o then f else st o'.

(** [node.neightboors.includes(m)] *)
Definition includes (st : store) (node m : t) : bool :=
  existsb (same m) (neightboors (st (oid node))).

(** [node.neightboors.push(m)] *)
Definition push (node m : t) (st : store) : store :=
  update (oid node)
         (mkFields (neightboors (st (oid node)) ++ [m]) (radius (st (oid node)))) st.

Definition initialize (node : t) (st : store) : store :=
  update (oid node)
         (mkFields (neightboors (st (oid node)))
                   (Some (sqrt (width node * width node / 4 + height node * height node / 4))))
         st.

End GraphNode.

Module GraphEdge.

Record t : Type := mk { source : GraphNode.t; target : GraphNode.t }.

End GraphEdge.

Module GraphDefinition.

(** What [this.nodes[id]] yields when it is not [undefined]: a node of the
    graph, or the member every object inherits under that name. *)
Inductive found : Type :=
| Node (n : GraphNode.t)
| Inherited (name : string).

(** [==] on what was found. *)
Definition sameFound (x y : found) : bool :=
  match x, y with
  | Node n, Node m => GraphNode.same n m
  | Inherited a, Inherited b => String.eqb a b
  | _, _ => false
  end.

(** [this.edges] is kept in two parts: [edges] holds the edges that join
    two nodes, [strays] the edges [addEdge] draws from or to an inherited
    member.  The two parts never share an edge, and [initialize] and the
    layout are followed for [edges] only. *)
Record t : Type := mk {
  nextOid : nat;                             (* identity of the next object created *)
  heap : GraphNode.store;                    (* mutable fields of the node objects *)
  nodes : list (string * GraphNode.t);
  edges : list GraphEdge.t;
  strays : list (found * found)
}.

(** [new GraphDefinition()] *)
Definition empty : t := mk 0 (fun _ => GraphNode.fresh) [] [] [].

Definition addNode (designerId : string) (width height : R) (g : t) : t :=
  let node := GraphNode.mk (nextOid g) designerId width height in
  mk (S (nextOid g))
     (GraphNode.update (nextOid g) GraphNode.fresh (heap g))
     (objSet designerId node (nodes g))
     (edges g)
     (strays g).

(** [this.nodes[id]]; [None] is [undefined]. *)
Definition lookup (id : string) (g : t) : option found :=
  match objGet id (nodes g) with
  | Some n => Some (Node n)
  | None => if inherited id then Some (Inherited id) else None
  end.

(** The predicate handed to [this.edges.find] in [addEdge]. *)
Definition joins (source target : GraphNode.t) (x : GraphEdge.t) : bool :=
  (GraphNode.same (GraphEdge.source x) source && GraphNode.same (GraphEdge.target x) target)
  || (GraphNode.same (GraphEdge.target x) source && GraphNode.same (GraphEdge.source x) target).

(** The same predicate on an edge that has an inherited member at an
    end. *)
Definition strayJoins (source target : found) (x : found * found) : bool :=
  (sameFound (fst x) source && sameFound (snd x) target)
  || (sameFound (snd x) source && sameFound (fst x) target).

(** Both ids designer ids of the graph: the edge joins two nodes.
    Otherwise [source && target] still holds when an id that is no
    designer id names an inherited member, and the edge drawn has that
    member at an end. *)
Definition addEdge (sourceId targetId : string) (g : t) : t :=
  match objGet sourceId (nodes g), objGet targetId (nodes g) with
  | Some source, Some target =>
      if existsb (joins source target) (edges g) then g
      else mk (nextOid g) (heap g) (nodes g) (edges g ++ [GraphEdge.mk source target])
              (strays g)
  | _, _ =>
      match lookup sourceId g, lookup targetId g with
      | Some source, Some target =>
          if existsb (strayJoins source target) (strays g) then g
          else mk (nextOid g) (heap g) (nodes g) (edges g) (strays g ++ [(source, target)])
      | _, _ => g
      end
  end.

(** The body of the inner loop of [initialize]. *)
Definition scanEdge (node : GraphNode.t) (st : GraphNode.store) (edge : GraphEdge.t)
  : GraphNode.store :=
  let st1 :=
    if GraphNode.same (GraphEdge.source edge) node
       && negb (GraphNode.includes st node (GraphEdge.target edge))
    then GraphNode.push node (GraphEdge.target edge) st else st in
  if GraphNode.same (GraphEdge.target edge) node
     && negb (GraphNode.includes st1 node (GraphEdge.source edge))
  then GraphNode.push node (GraphEdge.source edge) st1 else st1.

(** The body of the outer loop of [initialize]. *)
Definition initializeNode (es : list GraphEdge.t) (st : GraphNode.store) (node : GraphNode.t)
  : GraphNode.store :=
  GraphNode.initialize node (fold_left (scanEdge node) es st).

Definition initialize (g : t) : t :=
  mk (nextOid g)
     (fold_left (initializeNode (edges g)) (objValues (nodes g)) (heap g))
     (nodes g)
     (edges g)
     (strays g).

(** The graphs a caller can build: the constructor followed by any
    sequence of [addNode], [addEdge] and [initialize]. *)
Inductive reachable : t -> Prop :=
| reach_empty : reachable empty
| reach_addNode id w h g : reachable g -> reachable (addNode id w h g)
| reach_addEdge a b g : reachable g -> reachable (addEdge a b g)
| reach_initialize g : reachable g -> reachable (initialize g).






End GraphDefinition.

(** ** Placed nodes *)

Module LayoutNode.

(** [left], [top], [right], [bottom], [position] and [paddedRect] are
    assigned once by the constructor from [node], [x] and [y]; they are
    given here as functions of these three. *)
Record t : Type := mk { node : GraphNode.t; x : R; y : R }.

Definition designerId (n : t) : string := GraphNode.designerId (node n).

Definition left (n : t) : R := x n - GraphNode.width (node n) / 2.
Definition top (n : t) : R := y n - GraphNode.height (node n) / 2.
Definition right (n : t) : R := x n + GraphNode.width (node n) / 2.
Definition bottom (n : t) : R := y n + GraphNode.height (node n) / 2.

Definition position (n : t) : Vector2D.t := Vector2D.mk (x n) (y n).

(** The node seen as an [IBoxBounds]. *)
Definition bounds (n : t) : IBoxBounds := mkBox (left n) (top n) (right n) (bottom n).

Definition paddedRect (n : t) : IBoxBounds :=
  mkBox (left n - NODE_MARGIN) (top n - NODE_MARGIN)
        (right n + NODE_MARGIN) (bottom n + NODE_MARGIN).

Definition translate (n : t) (dx dy : R) : t := mk (node n) (x n + dx) (y n + dy).

Definition distanceTo (n m : t) : R := rectangleDistance (bounds n) (bounds m).

Definition intersectArea (n m : t) : R := rectangleIntersectArea (paddedRect n) (paddedRect m).

(** [x == node] on the placed nodes of one layout: a layout holds one
    object per designer id, so two of its nodes are the same object
    exactly when their designer ids agree. *)
Definition same (n m : t) : bool := String.eqb (designerId n) (designerId m).

End LayoutNode.

Module LayoutEdge.

Record t : Type := mk {
  edge : GraphEdge.t;
  length : R;
  source : LayoutNode.t;
  target : LayoutNode.t
}.

End LayoutEdge.

(** ** One relaxation step: the force accumulator *)

Module ForceAlgorithmStep.

(** [nodeForces] *)
Definition forces : Type := list (string * Vector2D.t).

(** The force [applyForce] adds: cut back to [MAX_FORCE_SIZE] when longer. *)
Definition clamp (force : Vector2D.t) : Vector2D.t :=
  if Rgt_dec (Vector2D.magnitude force) MAX_FORCE_SIZE
  then Vector2D.multiply (Vector2D.normalise force) MAX_FORCE_SIZE
  else force.

Definition applyForce (node : LayoutNode.t) (force : Vector2D.t) (nodeForces : forces) : forces :=
  let force := clamp force in
  match objGet (LayoutNode.designerId node) nodeForces with
  | Some acc => objSet (LayoutNode.designerId node) (Vector2D.add acc force) nodeForces
  | None => objSet (LayoutNode.designerId node) force nodeForces
  end.

(** The size of the repulsion force between two placed nodes. *)
Definition repulsion (n1 n2 : LayoutNode.t) : R :=
  let distance := LayoutNode.distanceTo n1 n2 + MIN_NODE_DISTANCE in
  (1 / 2 * REPULSION) / (distance * distance).

(** The body of the inner loop of [applyCoulombsLaw]: the visit of the
    ordered pair [(n1, n2)]. *)
Definition coulombVisit (n1 : LayoutNode.t) (nodeForces : forces) (n2 : LayoutNode.t) : forces :=
  if String.eqb (LayoutNode.designerId n1) (LayoutNode.designerId n2) then nodeForces
  else
    let d := Vector2D.subtract (LayoutNode.position n1) (LayoutNode.position n2) in
    let direction := Vector2D.normalise d in
    let distance := LayoutNode.distanceTo n1 n2 + MIN_NODE_DISTANCE in
    let nodeForces :=
      applyForce n1 (Vector2D.multiply direction ((1 / 2 * REPULSION) / (distance * distance)))
                 nodeForces in
    applyForce n2 (Vector2D.multiply direction ((- (1 / 2) * REPULSION) / (distance * distance)))
               nodeForces.

Definition applyCoulombsLaw (layoutNodes : list (string * LayoutNode.t)) (nodeForces : forces)
  : forces :=
  fold_left
    (fun nodeForces n1 => fold_left (coulombVisit n1) (objValues layoutNodes) nodeForces)
    (objValues layoutNodes) nodeForces.

(** The body of the loop of [applyHooksLaw]. *)
Definition hookeVisit (nodeForces : forces) (edge : LayoutEdge.t) : forces :=
  let d := Vector2D.subtract (LayoutNode.position (LayoutEdge.target edge))
                             (LayoutNode.position (LayoutEdge.source edge)) in
  let displacement := SPRING_LENGTH - LayoutEdge.length edge in
  let direction := Vector2D.normalise d in
  let nodeForces :=
    applyForce (LayoutEdge.source edge) (Vector2D.multiply direction (displacement * - (1 / 2)))
               nodeForces in
  applyForce (LayoutEdge.target edge) (Vector2D.multiply direction (displacement * (1 / 2)))
             nodeForces.

Definition applyHooksLaw (layoutEdges : list LayoutEdge.t) (nodeForces : forces) : forces :=
  fold_left hookeVisit layoutEdges nodeForces.

(** The body of the loop of [applyGravity]. *)
Definition gravityVisit (nodeForces : forces) (node : LayoutNode.t) : forces :=
  let direction := Vector2D.multiply (LayoutNode.position node) (-1) in
  applyForce node (Vector2D.multiply direction GRAVITY) nodeForces.

Definition applyGravity (layoutNodes : list (string * LayoutNode.t)) (nodeForces : forces)
  : forces :=
  fold_left gravityVisit (objValues layoutNodes) nodeForces.

Definition moveNode (nodeForces : forces) (node : LayoutNode.t) : LayoutNode.t :=
  match objGet (LayoutNode.designerId node) nodeForces with
  | Some force => LayoutNode.translate node (Vector2D.x force) (Vector2D.y force)
  | None => node
  end.

(** The same methods as calls that may raise.  [applyForce] tests
    [node.node.designerId in this.nodeForces]; for an inherited name
    that is no key of the accumulator the test holds, what is found has
    no [add], and the call raises.  The definitions above give the
    accumulator a call leaves when it returns. *)
Module Call.

Definition applyForce (node : LayoutNode.t) (force : Vector2D.t) (nodeForces : forces)
  : result forces :=
  match objGet (LayoutNode.designerId node) nodeForces with
  | Some _ => Ok (ForceAlgorithmStep.applyForce node force nodeForces)
  | None =>
      if inherited (LayoutNode.designerId node) then Err TypeError
      else Ok (ForceAlgorithmStep.applyForce node force nodeForces)
  end.

Definition coulombVisit (n1 : LayoutNode.t) (nodeForces : forces) (n2 : LayoutNode.t)
  : result forces :=
  if String.eqb (LayoutNode.designerId n1) (LayoutNode.designerId n2) then Ok nodeForces
  else
    let d := Vector2D.subtract (LayoutNode.position n1) (LayoutNode.position n2) in
    let direction := Vector2D.normalise d in
    let distance := LayoutNode.distanceTo n1 n2 + MIN_NODE_DISTANCE in
    nodeForces <-
      applyForce n1 (Vector2D.multiply direction ((1 / 2 * REPULSION) / (distance * distance)))
                 nodeForces ;;
    applyForce n2 (Vector2D.multiply direction ((- (1 / 2) * REPULSION) / (distance * distance)))
               nodeForces.

Definition applyCoulombsLaw (layoutNodes : list (string * LayoutNode.t)) (nodeForces : forces)
  : result forces :=
  foldM (fun nodeForces n1 => foldM (coulombVisit n1) (objValues layoutNodes) nodeForces)
        (objValues layoutNodes) nodeForces.

Definition hookeVisit (nodeForces : forces) (edge : LayoutEdge.t) : result forces :=
  let d := Vector2D.subtract (LayoutNode.position (LayoutEdge.target edge))
                             (LayoutNode.position (LayoutEdge.source edge)) in
  let displacement := SPRING_LENGTH - LayoutEdge.length edge in
  let direction := Vector2D.normalise d in
  nodeForces <-
    applyForce (LayoutEdge.source edge) (Vector2D.multiply direction (displacement * - (1 / 2)))
               nodeForces ;;
  applyForce (LayoutEdge.target edge) (Vector2D.multiply direction (displacement * (1 / 2)))
             nodeForces.

Definition applyHooksLaw (layoutEdges : list LayoutEdge.t) (nodeForces : forces)
  : result forces :=
  foldM hookeVisit layoutEdges nodeForces.

Definition gravityVisit (nodeForces : forces) (node : LayoutNode.t) : result forces :=
  let direction := Vector2D.multiply (LayoutNode.position node) (-1) in
  applyForce node (Vector2D.multiply direction GRAVITY) nodeForces.

Definition applyGravity (layoutNodes : list (string * LayoutNode.t)) (nodeForces : forces)
  : result forces :=
  foldM gravityVisit (objValues layoutNodes) nodeForces.

End Call.

End ForceAlgorithmStep.

(** ** lodash helpers *)

(** [_.min] and [_.max] skip [undefined] and answer [undefined] when
    nothing is left. *)
Fixpoint lodashMax (l : list (option R)) : option R :=
  match l with
  | [] => None
  | None :: t => lodashMax t
  | Some v :: t => match lodashMax t with Some m => Some (Rmax v m) | None => Some v end
  end.

Fixpoint lodashMin (l : list (option R)) : option R :=
  match l with
  | [] => None
  | None :: t => lodashMin t
  | Some v :: t => match lodashMin t with Some m => Some (Rmin v m) | None => Some v end
  end.

(** The order of [_.sortBy(nodes, [neightboors.length, height, designerId])]:
    [a] strictly before [b].  Designer ids are compared character by
    character, as JavaScript compares strings. *)
Definition sortsBefore (st : GraphNode.store) (a b : GraphNode.t) : bool :=
  let la := List.length (GraphNode.neightboors (st (GraphNode.oid a))) in
  let lb := List.length (GraphNode.neightboors (st (GraphNode.oid b))) in
  if Nat.ltb la lb then true
  else if Nat.ltb lb la then false
  else if Rlt_dec (GraphNode.height a) (GraphNode.height b) then true
  else if Rlt_dec (GraphNode.height b) (GraphNode.height a) then false
  else String.ltb (GraphNode.designerId a) (GraphNode.designerId b).

(** [_.sortBy] is stable: equal elements keep their order.  The outcome
    of a stable sort does not depend on how it is carried out; here it is
    by insertion. *)
Fixpoint sortInsert (st : GraphNode.store) (a : GraphNode.t) (l : list GraphNode.t)
  : list GraphNode.t :=
  match l with
  | [] => [a]
  | b :: t => if sortsBefore st b a then b :: sortInsert st a t else a :: b :: t
  end.

Definition sortBy (st : GraphNode.store) (l : list GraphNode.t) : list GraphNode.t :=
  fold_right (sortInsert st) [] l.

(** ** Circle order *)

(** The loop of [addNodeNeighboors] over the sorted nodes; [recurse] is
    the recursive call, [acc] the pair of [res] and [addedNodes]. *)
Fixpoint visitNodes (st : GraphNode.store)
  (recurse : list GraphNode.t -> list GraphNode.t * list string
             -> option (list GraphNode.t * list string))
  (nodesSorted : list GraphNode.t) (acc : list GraphNode.t * list string)
  : option (list GraphNode.t * list string) :=
  match nodesSorted with
  | [] => Some acc
  | node :: rest =>
      if existsb (String.eqb (GraphNode.designerId node)) (snd acc)
      then visitNodes st recurse rest acc
      else
        match recurse (GraphNode.neightboors (st (GraphNode.oid node)))
                      (fst acc ++ [node], GraphNode.designerId node :: snd acc) with
        | Some acc' => visitNodes st recurse rest acc'
        | None => None
        end
  end.

(** [addNodeNeighboors(nodes, res, addedNodes)]; [fuel] bounds the depth
    of the recursion, [None] says the bound was hit. *)
Fixpoint addNodeNeighboors (fuel : nat) (st : GraphNode.store) (nodes : list GraphNode.t)
  (acc : list GraphNode.t * list string) : option (list GraphNode.t * list string) :=
  match fuel with
  | O => None
  | S fuel' => visitNodes st (addNodeNeighboors fuel' st) (sortBy st nodes) acc
  end.

(** ** Layout snapshots *)

Module GraphLayout.

Record t : Type := mk {
  graph : GraphDefinition.t;
  nodes : list (string * LayoutNode.t);
  edges : list LayoutEdge.t
}.

(** [new GraphLayout(graph)] *)
Definition new (g : GraphDefinition.t) : t := mk g [] [].

(** The function mapped over [this.graph.edges] in [fillEdges]; reading
    [distanceTo] through a missing node is a [TypeError]. *)
Definition fillEdge (layoutNodes : list (string * LayoutNode.t)) (edge : GraphEdge.t)
  : result LayoutEdge.t :=
  match objGet (GraphNode.designerId (GraphEdge.source edge)) layoutNodes,
        objGet (GraphNode.designerId (GraphEdge.target edge)) layoutNodes with
  | Some n1, Some n2 => Ok (LayoutEdge.mk edge (LayoutNode.distanceTo n1 n2) n1 n2)
  | _, _ => Err TypeError
  end.

Definition fillEdges (l : t) : result t :=
  es <- mapM (fillEdge (nodes l)) (GraphDefinition.edges (graph l)) ;;
  Ok (mk (graph l) (nodes l) es).

(** The loop of [createCircle] that places the sorted nodes; the state is
    [res.nodes] and [angle]. *)
Definition placeNode (radius dangle : R) (state : list (string * LayoutNode.t) * R)
  (node : GraphNode.t) : list (string * LayoutNode.t) * R :=
  let (resNodes, angle) := state in
  (objSet (GraphNode.designerId node)
          (LayoutNode.mk node (sin angle * radius) (cos angle * radius)) resNodes,
   angle + dangle).

(** The recursion of [addNodeNeighboors] goes one level deeper only after
    it has added a designer id not seen before, so its depth stays below
    the number of nodes plus one. *)
Definition circleOrder (g : GraphDefinition.t) : option (list GraphNode.t) :=
  match addNodeNeighboors (S (List.length (GraphDefinition.nodes g)))
                          (GraphDefinition.heap g)
                          (objValues (GraphDefinition.nodes g)) ([], []) with
  | Some (circleSortedNodes, _) => Some circleSortedNodes
  | None => None
  end.

Definition createCircle (g : GraphDefinition.t) : result t :=
  let res := new g in
  if objIsEmpty (GraphDefinition.nodes g) then Ok res
  else
    match circleOrder g with
    | None => Err OutOfFuel
    | Some circleSortedNodes =>
        match lodashMax (map (fun x => GraphNode.radius (GraphDefinition.heap g (GraphNode.oid x)))
                             circleSortedNodes) with
        | None => Err NotANumber
        | Some nodeRadius =>
            let nodeCount := INR (List.length circleSortedNodes) in
            let radius := (nodeCount * nodeRadius) / (2 * PI) + nodeRadius in
            let dangle := (2 * PI) / INR (List.length circleSortedNodes) in
            let resNodes := fst (fold_left (placeNode radius dangle) circleSortedNodes ([], 0)) in
            fillEdges (mk g resNodes [])
        end
    end.

Definition changePositions (nodeFunc : LayoutNode.t -> LayoutNode.t) (l : t) : result t :=
  fillEdges (mk (graph l) (objMapValues nodeFunc (nodes l)) []).

(** [minX] and [minY] are [undefined] exactly when there is no node, and
    then [nodeFunc] is never called. *)
Definition fixViewBox (l : t) : result t :=
  match lodashMin (map (fun n => Some (LayoutNode.left n)) (objValues (nodes l))),
        lodashMin (map (fun n => Some (LayoutNode.top n)) (objValues (nodes l))) with
  | Some minX, Some minY =>
      changePositions (fun n => LayoutNode.translate n (- minX + 50) (- minY + 50)) l
  | _, _ => changePositions (fun n => n) l
  end.

(** The forces gathered by one relaxation step that gets through its
    three passes. *)
Definition stepForces (l : t) : ForceAlgorithmStep.forces :=
  ForceAlgorithmStep.applyGravity (nodes l)
    (ForceAlgorithmStep.applyCoulombsLaw (nodes l)
       (ForceAlgorithmStep.applyHooksLaw (edges l) [])).

(** The three passes of [springyStep] over a new [ForceAlgorithmStep]. *)
Definition runForces (l : t) : result ForceAlgorithmStep.forces :=
  nodeForces <- ForceAlgorithmStep.Call.applyHooksLaw (edges l) [] ;;
  nodeForces <- ForceAlgorithmStep.Call.applyCoulombsLaw (nodes l) nodeForces ;;
  ForceAlgorithmStep.Call.applyGravity (nodes l) nodeForces.

Definition springyStep (l : t) : result t :=
  nodeForces <- runForces l ;;
  changePositions (ForceAlgorithmStep.moveNode nodeForces) l.

(** The loop of [springyAlg]. *)
Fixpoint springySteps (steps : nat) (res : t) : result t :=
  match steps with
  | O => Ok res
  | S k => res' <- springyStep res ;; springySteps k res'
  end.

Definition springyAlg (l : t) : result t := springySteps SPRINGY_STEPS l.

(** The sum of the padded overlaps over the ordered pairs of distinct
    nodes. *)
Definition overlap (layoutNodes : list (string * LayoutNode.t)) : R :=
  fold_left
    (fun res n1 =>
       fold_left
         (fun res n2 =>
            if String.eqb (LayoutNode.designerId n1) (LayoutNode.designerId n2) then res
            else res + LayoutNode.intersectArea n1 n2)
         (objValues layoutNodes) res)
    (objValues layoutNodes) 0.

(** [score()]; [None] is the NaN that comes out when there is no node. *)
Definition score (l : t) : option R :=
  let res := overlap (nodes l) in
  match lodashMin (map (fun n => Some (LayoutNode.left n)) (objValues (nodes l))),
        lodashMin (map (fun n => Some (LayoutNode.top n)) (objValues (nodes l))),
        lodashMax (map (fun n => Some (LayoutNode.right n)) (objValues (nodes l))),
        lodashMax (map (fun n => Some (LayoutNode.bottom n)) (objValues (nodes l))) with
  | Some minX, Some minY, Some maxX, Some maxY => Some (res + (maxX - minX) + (maxY - minY))
  | _, _, _, _ => None
  end.

(** The eight moves tried for a node, in the order of [tryMoveNode]. *)
Definition moves : list (R * R) :=
  [ (MOVE_STEP, 0); (- MOVE_STEP, 0); (0, MOVE_STEP); (0, - MOVE_STEP);
    (MOVE_BIG_STEP, MOVE_BIG_STEP); (MOVE_BIG_STEP, - MOVE_BIG_STEP);
    (- MOVE_BIG_STEP, MOVE_BIG_STEP); (- MOVE_BIG_STEP, - MOVE_BIG_STEP) ].

(** [x => (x == node ? node.translate(dx, dy) : x)] *)
Definition moveOnly (node : LayoutNode.t) (d : R * R) (x : LayoutNode.t) : LayoutNode.t :=
  if LayoutNode.same x node then LayoutNode.translate node (fst d) (snd d) else x.

Definition tryMoveNode (l : t) (node : LayoutNode.t) : result (list t) :=
  mapM (fun d => changePositions (moveOnly node d) l) moves.

(** [score < resScore]: false as soon as one side is NaN. *)
Definition scoreLt (a b : option R) : bool :=
  match a, b with
  | Some u, Some v => if Rlt_dec u v then true else false
  | _, _ => false
  end.

(** The body of the inner loop of [tryMoveElement]; [best] is the pair of
    [res] and [resScore], [None] while both are [null]. *)
Definition consider (best : option (t * option R)) (item : t) : option (t * option R) :=
  let score := score item in
  match best with
  | None => Some (item, score)
  | Some (_, resScore) => if scoreLt score resScore then Some (item, score) else best
  end.

(** The loop of [tryMoveElement] over the nodes. *)
Fixpoint tryMoveLoop (l : t) (layoutNodes : list LayoutNode.t) (best : option (t * option R))
  : result (option (t * option R)) :=
  match layoutNodes with
  | [] => Ok best
  | node :: rest =>
      items <- tryMoveNode l node ;;
      tryMoveLoop l rest (fold_left consider items best)
  end.

(** [tryMoveElement()]; [None] is [null]. *)
Definition tryMoveElement (l : t) : result (option t) :=
  best <- tryMoveLoop l (objValues (nodes l)) None ;;
  Ok (match best with Some (res, _) => Some res | None => None end).

(** [score - newScore < MINIMAL_SCORE_BENEFIT]: false when NaN. *)
Definition tooSmall (score newScore : option R) : bool :=
  match score, newScore with
  | Some u, Some v => if Rlt_dec (u - v) MINIMAL_SCORE_BENEFIT then true else false
  | _, _ => false
  end.

(** The loop of [doMoveSteps] with [steps] iterations left; calling
    [score] on [null] is a [TypeError]. *)
Fixpoint doMoveLoop (steps : nat) (res : t) (score0 : option R) : result t :=
  match steps with
  | O => Ok res
  | S k =>
      let lastRes := res in
      next <- tryMoveElement res ;;
      match next with
      | None => Err TypeError
      | Some res' =>
          let newScore := score res' in
          if tooSmall score0 newScore then Ok lastRes
          else doMoveLoop k res' newScore
      end
  end.

Definition doMoveSteps (l : t) : result t := doMoveLoop MOVE_STEP_COUNT l (score l).

End GraphLayout.

(** ** Example graphs *)

Open Scope string_scope.

(** Two nodes of size 2 x 2 joined by an edge. *)
Definition pairGraph : GraphDefinition.t :=
  GraphDefinition.initialize
    (GraphDefinition.addEdge "a" "b"
       (GraphDefinition.addNode "b" 2 2 (GraphDefinition.addNode "a" 2 2 GraphDefinition.empty))).

(** The node ["a"] is added again after an edge was drawn from it. *)
Definition readdedGraph : GraphDefinition.t :=
  GraphDefinition.addNode "a" 2 2
    (GraphDefinition.addEdge "a" "b"
       (GraphDefinition.addNode "b" 1 1 (GraphDefinition.addNode "a" 1 1 GraphDefinition.empty))).

(** Two nodes without extent. *)
Definition pointGraph : GraphDefinition.t :=
  GraphDefinition.initialize
    (GraphDefinition.addNode "b" 0 0 (GraphDefinition.addNode "a" 0 0 GraphDefinition.empty)).

(** Two nodes of size 2 x 2, no edge yet. *)
Definition twoGraph : GraphDefinition.t :=
  GraphDefinition.addNode "b" 2 2 (GraphDefinition.addNode "a" 2 2 GraphDefinition.empty).

(** A single node. *)
Definition singleGraph : GraphDefinition.t :=
  GraphDefinition.addNode "a" 3 4 GraphDefinition.empty.


Close Scope string_scope.

(** * Vocabulary of the statements *)

(** ** Graphs *)

(** What holds of every graph a caller can build. *)
Record wf (g : GraphDefinition.t) : Prop := {
  wf_keys : NoDup (objKeys (GraphDefinition.nodes g));
  wf_ids : forall k n, In (k, n) (GraphDefinition.nodes g) -> GraphNode.designerId n = k;
  wf_oids : forall k n, In (k, n) (GraphDefinition.nodes g) ->
      (GraphNode.oid n < GraphDefinition.nextOid g)%nat;
  wf_inj : forall k n k' n',
      In (k, n) (GraphDefinition.nodes g) -> In (k', n') (GraphDefinition.nodes g) ->
      GraphNode.oid n = GraphNode.oid n' -> k = k';
  wf_edges : forall e, In e (GraphDefinition.edges g) ->
      In (GraphNode.designerId (GraphEdge.source e)) (objKeys (GraphDefinition.nodes g)) /\
      In (GraphNode.designerId (GraphEdge.target e)) (objKeys (GraphDefinition.nodes g));
  wf_neigh : forall o m, In m (GraphNode.neightboors (GraphDefinition.heap g o)) ->
      In (GraphNode.designerId m) (objKeys (GraphDefinition.nodes g));
  wf_joins : forall s t,
      (List.length (filter (GraphDefinition.joins s t) (GraphDefinition.edges g)) <= 1)%nat
}.

(** The radius [GraphNode.initialize] assigns. *)
Definition halfDiagonal (n : GraphNode.t) : R :=
  sqrt (GraphNode.width n * GraphNode.width n / 4 + GraphNode.height n * GraphNode.height n / 4).

(** ** Circle order *)

(** The keys of [K] not yet in [addedNodes]. *)
Definition unseen (K added : list string) : list string :=
  filter (fun k => negb (existsb (String.eqb k) added)) K.

(** [res] and [addedNodes] go together. *)
Definition accInv (K : list string) (a : list GraphNode.t * list string) : Prop :=
  map GraphNode.designerId (fst a) = rev (snd a) /\ NoDup (snd a) /\ incl (snd a) K.

(** What a traversal achieves as long as fewer than [bound] keys are
    unseen. *)
Definition travSpec (K : list string) (bound : nat)
  (trav : list GraphNode.t -> list GraphNode.t * list string
          -> option (list GraphNode.t * list string)) : Prop :=
  forall nodes a,
    (forall n, In n nodes -> In (GraphNode.designerId n) K) ->
    accInv K a ->
    (List.length (unseen K (snd a)) < bound)%nat ->
    exists a', trav nodes a = Some a' /\ accInv K a'
               /\ (exists more, fst a' = fst a ++ more)
               /\ incl (snd a) (snd a')
               /\ (forall n, In n nodes -> In (GraphNode.designerId n) (snd a')).



(** ** Layouts *)

(** The nodes of a layout cover the endpoints of the graph's edges. *)
Definition covers (g : GraphDefinition.t) (layoutNodes : list (string * LayoutNode.t)) : Prop :=
  forall e, In e (GraphDefinition.edges g) ->
    In (GraphNode.designerId (GraphEdge.source e)) (objKeys layoutNodes)
    /\ In (GraphNode.designerId (GraphEdge.target e)) (objKeys layoutNodes).

(** The nodes placed around the circle, starting at [angle]. *)
Fixpoint placed (radius dangle angle : R) (order : list GraphNode.t)
  : list (string * LayoutNode.t) :=
  match order with
  | [] => []
  | n :: t =>
      (GraphNode.designerId n, LayoutNode.mk n (sin angle * radius) (cos angle * radius))
        :: placed radius dangle (angle + dangle) t
  end.

(** Every node of the graph has its radius: [initialize()] has run since
    the last node was added. *)
Definition initialized (g : GraphDefinition.t) : Prop :=
  forall k n, In (k, n) (GraphDefinition.nodes g) ->
    GraphNode.radius (GraphDefinition.heap g (GraphNode.oid n)) = Some (halfDiagonal n).

(** The radii [createCircle] reads off the ordered nodes. *)
Definition radii (g : GraphDefinition.t) (order : list GraphNode.t) : list (option R) :=
  map (fun x => GraphNode.radius (GraphDefinition.heap g (GraphNode.oid x))) order.

(** The radius of the circle. *)
Definition circleRadius (nodeCount : nat) (nodeRadius : R) : R :=
  (INR nodeCount * nodeRadius) / (2 * PI) + nodeRadius.

(** What holds of every layout the operations produce. *)
Record sound (l : GraphLayout.t) : Prop := {
  sound_graph : wf (GraphLayout.graph l);
  sound_keys : Permutation (objKeys (GraphLayout.nodes l))
                           (objKeys (GraphDefinition.nodes (GraphLayout.graph l)));
  sound_ids : forall k n, In (k, n) (GraphLayout.nodes l) -> LayoutNode.designerId n = k;
  sound_edges : GraphLayout.fillEdges (GraphLayout.mk (GraphLayout.graph l) (GraphLayout.nodes l) [])
                = Ok l
}.

(** A layout over the same graph and the same node ids. *)
Definition sameShape (l l' : GraphLayout.t) : Prop :=
  sound l'
  /\ GraphLayout.graph l' = GraphLayout.graph l
  /\ objKeys (GraphLayout.nodes l') = objKeys (GraphLayout.nodes l).

(** [res] and [resScore] of [tryMoveElement] go together. *)
Definition bestOk (l : GraphLayout.t) (best : option (GraphLayout.t * option R)) : Prop :=
  match best with
  | Some (item, s) => sameShape l item /\ s = GraphLayout.score item
  | None => True
  end.

(** The layouts the operations produce, starting from the circular
    layout of a graph built through the interface. *)
Inductive produced : GraphLayout.t -> Prop :=
| produced_circle g l :
    GraphDefinition.reachable g -> GraphLayout.createCircle g = Ok l -> produced l
| produced_springyStep l l' :
    produced l -> GraphLayout.springyStep l = Ok l' -> produced l'
| produced_springyAlg l l' :
    produced l -> GraphLayout.springyAlg l = Ok l' -> produced l'
| produced_fixViewBox l l' :
    produced l -> GraphLayout.fixViewBox l = Ok l' -> produced l'
| produced_candidate l node items item :
    produced l -> In node (objValues (GraphLayout.nodes l)) ->
    GraphLayout.tryMoveNode l node = Ok items -> In item items -> produced item
| produced_tryMoveElement l l' :
    produced l -> GraphLayout.tryMoveElement l = Ok (Some l') -> produced l'
| produced_doMoveSteps l l' :
    produced l -> GraphLayout.doMoveSteps l = Ok l' -> produced l'.

(** ** Example layouts *)

(** The circular layout of [pairGraph], as [createCircle] computes it. *)
Definition nodeA : GraphNode.t := GraphNode.mk 0 "a" 2 2.

Definition nodeB : GraphNode.t := GraphNode.mk 1 "b" 2 2.

Definition pairRadius : R := circleRadius 2 (Rmax (halfDiagonal nodeA) (halfDiagonal nodeB)).

Definition pairPlacedA : LayoutNode.t :=
  LayoutNode.mk nodeA (sin 0 * pairRadius) (cos 0 * pairRadius).

Definition pairPlacedB : LayoutNode.t :=
  LayoutNode.mk nodeB (sin (0 + 2 * PI / INR 2) * pairRadius)
                      (cos (0 + 2 * PI / INR 2) * pairRadius).

Definition pairEdge : LayoutEdge.t :=
  LayoutEdge.mk (GraphEdge.mk nodeA nodeB) (LayoutNode.distanceTo pairPlacedA pairPlacedB)
                pairPlacedA pairPlacedB.

Definition pairLayout : GraphLayout.t :=
  GraphLayout.mk pairGraph [("a"%string, pairPlacedA); ("b"%string, pairPlacedB)] [pairEdge].

(** The repulsion between the two placed nodes. *)
Definition pairRepulsion : R := ForceAlgorithmStep.repulsion pairPlacedA pairPlacedB.

(** The circular layout of [pointGraph], as [createCircle] computes it. *)
Definition nodeP : GraphNode.t := GraphNode.mk 0 "a" 0 0.

Definition nodeQ : GraphNode.t := GraphNode.mk 1 "b" 0 0.

Definition pointRadius : R := circleRadius 2 (Rmax (halfDiagonal nodeP) (halfDiagonal nodeQ)).

Definition pointPlacedP : LayoutNode.t :=
  LayoutNode.mk nodeP (sin 0 * pointRadius) (cos 0 * pointRadius).

Definition pointPlacedQ : LayoutNode.t :=
  LayoutNode.mk nodeQ (sin (0 + 2 * PI / INR 2) * pointRadius)
                      (cos (0 + 2 * PI / INR 2) * pointRadius).

Definition pointLayout : GraphLayout.t :=
  GraphLayout.mk pointGraph [("a"%string, pointPlacedP); ("b"%string, pointPlacedQ)] [].

(** The circular layout of the single node of [singleGraph], once
    initialised. *)
Definition nodeS : GraphNode.t := GraphNode.mk 0 "a" 3 4.

Definition singleRadius : R := circleRadius 1 (halfDiagonal nodeS).

Definition singlePlaced : LayoutNode.t :=
  LayoutNode.mk nodeS (sin 0 * singleRadius) (cos 0 * singleRadius).

Definition singleLayout : GraphLayout.t :=
  GraphLayout.mk (GraphDefinition.initialize singleGraph) [("a"%string, singlePlaced)] [].



(** ** Refinement *)

(** [accepted k l r]: [k] refinement steps, each the candidate
    [tryMoveElement] picks and each lowering the score by at least
    [MINIMAL_SCORE_BENEFIT], lead from [l] to [r]. *)
Inductive accepted : nat -> GraphLayout.t -> GraphLayout.t -> Prop :=
| accepted_0 l : accepted 0 l l
| accepted_S k l l1 r s s1 :
    GraphLayout.tryMoveElement l = Ok (Some l1) ->
    GraphLayout.score l = Some s ->
    GraphLayout.score l1 = Some s1 ->
    MINIMAL_SCORE_BENEFIT <= s - s1 ->
    accepted k l1 r ->
    accepted (S k) l r.

(** The step after [r] would gain less than [MINIMAL_SCORE_BENEFIT]. *)
Definition stalls (r : GraphLayout.t) : Prop :=
  exists l' s s',
    GraphLayout.tryMoveElement r = Ok (Some l')
    /\ GraphLayout.score r = Some s
    /\ GraphLayout.score l' = Some s'
    /\ s - s' < MINIMAL_SCORE_BENEFIT.

(** ** Forces *)

Definition vzero : Vector2D.t := Vector2D.mk 0 0.

(** The sum of a list of vectors. *)
Definition vsum (l : list Vector2D.t) : Vector2D.t := fold_right Vector2D.add vzero l.

(** What the accumulator holds for a designer id; nothing yet counts as
    the zero vector. *)
Definition received (k : string) (nodeForces : ForceAlgorithmStep.forces) : Vector2D.t :=
  match objGet k nodeForces with
  | Some v => v
  | None => vzero
  end.

(** The repulsion force on [a] away from [b]. *)
Definition coulombForce (a b : LayoutNode.t) : Vector2D.t :=
  Vector2D.multiply
    (Vector2D.normalise (Vector2D.subtract (LayoutNode.position a) (LayoutNode.position b)))
    (ForceAlgorithmStep.repulsion a b).

(** The force the visit of [(n1, n2)] applies to [n2]. *)
Definition backForce (n1 n2 : LayoutNode.t) : Vector2D.t :=
  Vector2D.multiply
    (Vector2D.normalise (Vector2D.subtract (LayoutNode.position n1) (LayoutNode.position n2)))
    ((- (1 / 2) * REPULSION)
     / ((LayoutNode.distanceTo n1 n2 + MIN_NODE_DISTANCE)
        * (LayoutNode.distanceTo n1 n2 + MIN_NODE_DISTANCE))).

(** What the visit of [(n1, n2)] adds to the accumulator of [k]. *)
Definition coulombOn (k : string) (n1 n2 : LayoutNode.t) : Vector2D.t :=
  if String.eqb (LayoutNode.designerId n1) (LayoutNode.designerId n2) then vzero
  else Vector2D.add
         (if String.eqb k (LayoutNode.designerId n1)
          then ForceAlgorithmStep.clamp (coulombForce n1 n2) else vzero)
         (if String.eqb k (LayoutNode.designerId n2)
          then ForceAlgorithmStep.clamp (backForce n1 n2) else vzero).

(** What a node gets from one other node in a whole pass: the repulsion
    force twice. *)
Definition twice (a b : LayoutNode.t) : Vector2D.t :=
  if String.eqb (LayoutNode.designerId b) (LayoutNode.designerId a) then vzero
  else Vector2D.add (coulombForce a b) (coulombForce a b).

(** The opposite vector. *)
Definition vopp (v : Vector2D.t) : Vector2D.t := Vector2D.mk (- Vector2D.x v) (- Vector2D.y v).

(** Everything the accumulator holds, added up. *)
Definition total (nodeForces : ForceAlgorithmStep.forces) : Vector2D.t :=
  vsum (objValues nodeForces).

(** The force [applyGravity] adds for a placed node. *)
Definition gravityForce (n : LayoutNode.t) : Vector2D.t :=
  ForceAlgorithmStep.clamp
    (Vector2D.multiply (Vector2D.multiply (LayoutNode.position n) (-1)) GRAVITY).


(** A placed node with its centre scaled by [c] about the origin. *)
Definition scaled (n : LayoutNode.t) (c : R) : LayoutNode.t :=
  LayoutNode.mk (LayoutNode.node n) (LayoutNode.x n * c) (LayoutNode.y n * c).

(** What the visit of a layout edge by [applyHooksLaw] adds to the
    accumulator of [k]: the clamped spring force on the source, on the
    target, or both. *)
Definition springOn (k : string) (edge : LayoutEdge.t) : Vector2D.t :=
  let direction :=
    Vector2D.normalise
      (Vector2D.subtract (LayoutNode.position (LayoutEdge.target edge))
                         (LayoutNode.position (LayoutEdge.source edge))) in
  let displacement := SPRING_LENGTH - LayoutEdge.length edge in
  Vector2D.add
    (if String.eqb k (LayoutNode.designerId (LayoutEdge.source edge))
     then ForceAlgorithmStep.clamp (Vector2D.multiply direction (displacement * - (1 / 2)))
     else vzero)
    (if String.eqb k (LayoutNode.designerId (LayoutEdge.target edge))
     then ForceAlgorithmStep.clamp (Vector2D.multiply direction (displacement * (1 / 2)))
     else vzero).

(** What the visit of a node by [applyGravity] adds to the accumulator
    of [k]. *)
Definition gravityOn (k : string) (n : LayoutNode.t) : Vector2D.t :=
  if String.eqb (LayoutNode.designerId n) k
  then ForceAlgorithmStep.clamp
         (Vector2D.multiply (Vector2D.multiply (LayoutNode.position n) (-1)) GRAVITY)
  else vzero.

(** ** Designer ids *)

(** None of the keys is the name of an inherited member. *)
Definition ordinary (keys : list string) : Prop :=
  forall k, In k keys -> inherited k = false.

(** ** Candidates of a refinement step *)

(** The layouts [tryMoveElement] looks at: what [tryMoveNode] answers for
    the nodes of the layout. *)
Definition candidate (l item : GraphLayout.t) : Prop :=
  exists node items,
    In node (objValues (GraphLayout.nodes l))
    /\ GraphLayout.tryMoveNode l node = Ok items
    /\ In item items.

(** [res] is one of the layouts seen so far, [resScore] is its score, and
    no layout seen so far scores less. *)
Definition least (seen : GraphLayout.t -> Prop) (best : option (GraphLayout.t * option R))
  : Prop :=
  match best with
  | None => forall item, ~ seen item
  | Some (res, resScore) =>
      seen res
      /\ resScore = GraphLayout.score res
      /\ forall item s s', seen item ->
           GraphLayout.score res = Some s -> GraphLayout.score item = Some s' -> s <= s'
  end.

(** * Properties *)

(** ** Dictionaries *)

Section JsObjectFacts.
Context {V : Type}.
Implicit Types (o : list (string * V)) (k : string) (v : V).

Lemma objGet_objSet_same k v o : objGet k (objSet k v o) = Some v.
Proof.
  induction o as [|[k' v'] t IH]; simpl.
  - now rewrite String.eqb_refl.
  - destruct (String.eqb k k') eqn:E; simpl.
    + now rewrite String.eqb_refl.
    + now rewrite E.
Qed.

Lemma objGet_objSet_other k k' v o : k <> k' -> objGet k' (objSet k v o) = objGet k' o.
Proof.
  intros Hne. induction o as [|[k0 v0] t IH]; simpl.
  - destruct (String.eqb k' k) eqn:E; [apply String.eqb_eq in E; congruence | reflexivity].
  - destruct (String.eqb k k0) eqn:E; simpl.
    + apply String.eqb_eq in E. subst k0.
      destruct (String.eqb k' k) eqn:E'; [apply String.eqb_eq in E'; congruence | reflexivity].
    + now rewrite IH.
Qed.

Lemma objGet_In k v o : objGet k o = Some v -> In (k, v) o.
Proof.
  induction o as [|[k' v'] t IH]; simpl; [discriminate|].
  destruct (String.eqb k k') eqn:E.
  - apply String.eqb_eq in E. intros [= ->]. subst. now left.
  - intros H. right. auto.
Qed.

Lemma objGet_None k o : objGet k o = None <-> ~ In k (objKeys o).
Proof.
  induction o as [|[k' v'] t IH]; simpl.
  - tauto.
  - destruct (String.eqb k k') eqn:E.
    + apply String.eqb_eq in E. subst. split; [discriminate | intros H; exfalso; apply H; now left].
    + apply String.eqb_neq in E. rewrite IH. unfold objKeys.
      split; [intros H [H'|H']; [congruence | auto] | intros H H'; apply H; now right].
Qed.

Lemma objGet_Some_key k v o : objGet k o = Some v -> In k (objKeys o).
Proof.
  intros H. apply objGet_In in H. unfold objKeys.
  change k with (fst (k, v)). now apply in_map.
Qed.

Lemma In_objKeys_objGet k o : In k (objKeys o) -> exists v, objGet k o = Some v.
Proof.
  intros H. destruct (objGet k o) eqn:E; [eauto|].
  apply objGet_None in E. contradiction.
Qed.

Lemma In_objGet k v o : NoDup (objKeys o) -> In (k, v) o -> objGet k o = Some v.
Proof.
  induction o as [|[k' v'] t IH]; simpl; [tauto|].
  intros Hnd [H|H].
  - injection H as -> ->. now rewrite String.eqb_refl.
  - inversion Hnd as [|? ? Hnotin Hnd']; subst.
    destruct (String.eqb k k') eqn:E.
    + apply String.eqb_eq in E. subst k'. exfalso. apply Hnotin.
      change k with (fst (k, v)). now apply in_map.
    + auto.
Qed.

Lemma objKeys_objSet k v o :
  forall k', In k' (objKeys (objSet k v o)) <-> k' = k \/ In k' (objKeys o).
Proof.
  induction o as [|[k0 v0] t IH]; simpl; intros k'.
  - intuition.
  - destruct (String.eqb k k0) eqn:E; simpl.
    + apply String.eqb_eq in E. subst k0. intuition.
    + rewrite IH. intuition.
Qed.

Lemma objSet_NoDup k v o : NoDup (objKeys o) -> NoDup (objKeys (objSet k v o)).
Proof.
  induction o as [|[k0 v0] t IH]; simpl; intros Hnd.
  - constructor; [simpl; tauto | constructor].
  - inversion Hnd as [|? ? Hnotin Hnd']; subst.
    destruct (String.eqb k k0) eqn:E; simpl.
    + apply String.eqb_eq in E. subst k0. now constructor.
    + apply String.eqb_neq in E. constructor; [|auto].
      intros H. apply objKeys_objSet in H. destruct H; [congruence | contradiction].
Qed.

Lemma In_objSet k v k' v' o :
  NoDup (objKeys o) -> In (k', v') (objSet k v o) ->
  (k' = k /\ v' = v) \/ (k' <> k /\ In (k', v') o).
Proof.
  intros Hnd H. apply In_objGet in H; [|now apply objSet_NoDup].
  destruct (string_dec k k') as [<-|Hne].
  - rewrite objGet_objSet_same in H. injection H as <-. now left.
  - rewrite objGet_objSet_other in H by assumption.
    right. split; [congruence | now apply objGet_In].
Qed.

Lemma objSet_fresh k v o : ~ In k (objKeys o) -> objSet k v o = o ++ [(k, v)].
Proof.
  induction o as [|[k0 v0] t IH]; simpl; intros H; [reflexivity|].
  destruct (String.eqb k k0) eqn:E.
  - apply String.eqb_eq in E. subst. exfalso. apply H. now left.
  - f_equal. apply IH. intros H'. apply H. now right.
Qed.

End JsObjectFacts.

Lemma objKeys_objMapValues {V W : Type} (f : V -> W) (o : list (string * V)) :
  objKeys (objMapValues f o) = objKeys o.
Proof.
  unfold objKeys, objMapValues. rewrite map_map. reflexivity.
Qed.

Lemma objGet_objMapValues {V W : Type} (f : V -> W) (o : list (string * V)) (k : string) :
  objGet k (objMapValues f o) = option_map f (objGet k o).
Proof.
  induction o as [|[k0 v0] t IH]; simpl; [reflexivity|].
  destruct (String.eqb k k0); [reflexivity | assumption].
Qed.

(** ** Graphs built through the interface *)

Lemma existsb_false_filter {A : Type} (p : A -> bool) (l : list A) :
  existsb p l = false -> filter p l = [].
Proof.
  induction l as [|a t IH]; simpl; [reflexivity|].
  destruct (p a); simpl; [discriminate | assumption].
Qed.


Lemma existsb_pointwise {A : Type} (p q : A -> bool) (l : list A) :
  (forall x, p x = q x) -> existsb p l = existsb q l.
Proof.
  intros H. induction l as [|a t IH]; simpl; [reflexivity|]. now rewrite H, IH.
Qed.

Lemma joins_sym (s t : GraphNode.t) (x : GraphEdge.t) :
  GraphDefinition.joins s t x = GraphDefinition.joins t s x.
Proof.
  unfold GraphDefinition.joins.
  destruct (GraphNode.same (GraphEdge.source x) s), (GraphNode.same (GraphEdge.target x) t),
    (GraphNode.same (GraphEdge.target x) s), (GraphNode.same (GraphEdge.source x) t);
    reflexivity.
Qed.

Lemma joins_same_pair (s t s' t' : GraphNode.t) :
  GraphDefinition.joins s' t' (GraphEdge.mk s t) = true ->
  forall x, GraphDefinition.joins s' t' x = GraphDefinition.joins s t x.
Proof.
  unfold GraphDefinition.joins, GraphNode.same. simpl. intros H x.
  apply orb_true_iff in H.
  destruct H as [H|H]; apply andb_true_iff in H; destruct H as [H1 H2];
    apply Nat.eqb_eq in H1; apply Nat.eqb_eq in H2; rewrite <- H1, <- H2.
  - reflexivity.
  - destruct (Nat.eqb (GraphNode.oid (GraphEdge.source x)) (GraphNode.oid t)),
      (Nat.eqb (GraphNode.oid (GraphEdge.target x)) (GraphNode.oid s)),
      (Nat.eqb (GraphNode.oid (GraphEdge.target x)) (GraphNode.oid t)),
      (Nat.eqb (GraphNode.oid (GraphEdge.source x)) (GraphNode.oid s)); reflexivity.
Qed.

Lemma wf_empty : wf GraphDefinition.empty.
Proof.
  constructor; simpl; try tauto; try constructor; auto.
Qed.

Lemma wf_addNode id w h g : wf g -> wf (GraphDefinition.addNode id w h g).
Proof.
  intros W. destruct W as [Wk Wi Wo Wj We Wn Wu].
  constructor; simpl.
  - now apply objSet_NoDup.
  - intros k n H. apply In_objSet in H; [|assumption].
    destruct H as [[-> ->]|[_ H]]; [reflexivity | eauto].
  - intros k n H. apply In_objSet in H; [|assumption].
    destruct H as [[-> ->]|[_ H]]; simpl; [lia|]. apply Wo in H. lia.
  - intros k n k' n' H H' E.
    apply In_objSet in H; [|assumption]. apply In_objSet in H'; [|assumption].
    destruct H as [[-> ->]|[_ H]]; destruct H' as [[-> ->]|[_ H']]; simpl in E.
    + reflexivity.
    + apply Wo in H'. lia.
    + apply Wo in H. lia.
    + eauto.
  - intros e H. destruct (We e H) as [H1 H2].
    split; apply objKeys_objSet; now right.
  - intros o m. unfold GraphNode.update.
    destruct (Nat.eqb o (GraphDefinition.nextOid g)); simpl; [tauto|].
    intros H. apply objKeys_objSet. right. eauto.
  - assumption.
Qed.

(** With an id that is no designer id, [addEdge] leaves the nodes and
    the edges between nodes as they are. *)
Lemma addEdge_unknown a b g :
  objGet a (GraphDefinition.nodes g) = None \/ objGet b (GraphDefinition.nodes g) = None ->
  GraphDefinition.nextOid (GraphDefinition.addEdge a b g) = GraphDefinition.nextOid g
  /\ GraphDefinition.heap (GraphDefinition.addEdge a b g) = GraphDefinition.heap g
  /\ GraphDefinition.nodes (GraphDefinition.addEdge a b g) = GraphDefinition.nodes g
  /\ GraphDefinition.edges (GraphDefinition.addEdge a b g) = GraphDefinition.edges g.
Proof.
  intros H. unfold GraphDefinition.addEdge.
  assert (E : match GraphDefinition.lookup a g, GraphDefinition.lookup b g with
              | Some source, Some target =>
                  if existsb (GraphDefinition.strayJoins source target) (GraphDefinition.strays g)
                  then g
                  else GraphDefinition.mk (GraphDefinition.nextOid g) (GraphDefinition.heap g)
                         (GraphDefinition.nodes g) (GraphDefinition.edges g)
                         (GraphDefinition.strays g ++ [(source, target)])
              | _, _ => g
              end = GraphDefinition.addEdge a b g).
  { unfold GraphDefinition.addEdge.
    destruct H as [H|H]; rewrite H; [reflexivity|].
    destruct (objGet a (GraphDefinition.nodes g)); reflexivity. }
  fold (GraphDefinition.addEdge a b g). rewrite <- E.
  destruct (GraphDefinition.lookup a g) as [s|]; [|auto].
  destruct (GraphDefinition.lookup b g) as [t|]; [|auto].
  destruct (existsb _ _); auto.
Qed.

Lemma addEdge_fields a b g :
  GraphDefinition.nextOid (GraphDefinition.addEdge a b g) = GraphDefinition.nextOid g
  /\ GraphDefinition.heap (GraphDefinition.addEdge a b g) = GraphDefinition.heap g
  /\ GraphDefinition.nodes (GraphDefinition.addEdge a b g) = GraphDefinition.nodes g
  /\ (GraphDefinition.edges (GraphDefinition.addEdge a b g) = GraphDefinition.edges g
      \/ exists e, GraphDefinition.edges (GraphDefinition.addEdge a b g)
                   = GraphDefinition.edges g ++ [e]).
Proof.
  destruct (objGet a (GraphDefinition.nodes g)) as [s|] eqn:Ea;
    [|destruct (addEdge_unknown a b g (or_introl Ea)) as (E1 & E2 & E3 & E4); auto].
  destruct (objGet b (GraphDefinition.nodes g)) as [t|] eqn:Eb;
    [|destruct (addEdge_unknown a b g (or_intror Eb)) as (E1 & E2 & E3 & E4); auto].
  unfold GraphDefinition.addEdge. rewrite Ea, Eb.
  destruct (existsb _ _); simpl; [auto|].
  split; [reflexivity|]. split; [reflexivity|]. split; [reflexivity|]. right. eauto.
Qed.

Lemma addEdge_heap a b g :
  GraphDefinition.heap (GraphDefinition.addEdge a b g) = GraphDefinition.heap g.
Proof. apply addEdge_fields. Qed.

Lemma addEdge_nodes a b g :
  GraphDefinition.nodes (GraphDefinition.addEdge a b g) = GraphDefinition.nodes g.
Proof. apply addEdge_fields. Qed.

Lemma addEdge_edges_kept a b g e :
  In e (GraphDefinition.edges g) -> In e (GraphDefinition.edges (GraphDefinition.addEdge a b g)).
Proof.
  intros H. destruct (addEdge_fields a b g) as (_ & _ & _ & [E|[x E]]); rewrite E; [exact H|].
  apply in_or_app. now left.
Qed.

Lemma wf_same g g' :
  GraphDefinition.nextOid g' = GraphDefinition.nextOid g ->
  GraphDefinition.heap g' = GraphDefinition.heap g ->
  GraphDefinition.nodes g' = GraphDefinition.nodes g ->
  GraphDefinition.edges g' = GraphDefinition.edges g ->
  wf g -> wf g'.
Proof.
  intros E1 E2 E3 E4 [Wk Wi Wo Wj We Wn Wu].
  constructor; rewrite ?E1, ?E2, ?E3, ?E4; assumption.
Qed.

Lemma wf_addEdge a b g : wf g -> wf (GraphDefinition.addEdge a b g).
Proof.
  intros W.
  destruct (objGet a (GraphDefinition.nodes g)) as [s|] eqn:Ea;
    [|destruct (addEdge_unknown a b g (or_introl Ea)) as (E1 & E2 & E3 & E4);
      now apply (wf_same g)].
  destruct (objGet b (GraphDefinition.nodes g)) as [t|] eqn:Eb;
    [|destruct (addEdge_unknown a b g (or_intror Eb)) as (E1 & E2 & E3 & E4);
      now apply (wf_same g)].
  unfold GraphDefinition.addEdge. rewrite Ea, Eb.
  destruct (existsb (GraphDefinition.joins s t) (GraphDefinition.edges g)) eqn:Ex; [assumption|].
  destruct W as [Wk Wi Wo Wj We Wn Wu].
  constructor; simpl; try assumption.
  - intros e H. apply in_app_or in H. destruct H as [H|[<-|[]]]; [auto|]. simpl.
    rewrite (Wi a s) by now apply objGet_In.
    rewrite (Wi b t) by now apply objGet_In.
    split; eapply objGet_Some_key; eassumption.
  - intros s' t'. rewrite filter_app, length_app. simpl.
    destruct (GraphDefinition.joins s' t' (GraphEdge.mk s t)) eqn:J; simpl.
    + rewrite (filter_ext _ _ (joins_same_pair s t s' t' J)).
      rewrite (existsb_false_filter _ _ Ex). simpl. lia.
    + specialize (Wu s' t'). lia.
Qed.

Lemma neightboors_push node m st o m' :
  In m' (GraphNode.neightboors (GraphNode.push node m st o)) ->
  In m' (GraphNode.neightboors (st o)) \/ m' = m.
Proof.
  unfold GraphNode.push, GraphNode.update.
  destruct (Nat.eqb o (GraphNode.oid node)) eqn:E; simpl; [|tauto].
  apply Nat.eqb_eq in E. subst o. intros H. apply in_app_or in H.
  destruct H as [H|[H|[]]]; auto.
Qed.

Lemma neightboors_scanEdge node st e o m :
  In m (GraphNode.neightboors (GraphDefinition.scanEdge node st e o)) ->
  In m (GraphNode.neightboors (st o)) \/ m = GraphEdge.source e \/ m = GraphEdge.target e.
Proof.
  unfold GraphDefinition.scanEdge.
  set (st1 := if GraphNode.same (GraphEdge.source e) node
                   && negb (GraphNode.includes st node (GraphEdge.target e))
                then GraphNode.push node (GraphEdge.target e) st else st).
  assert (H1 : forall m, In m (GraphNode.neightboors (st1 o)) ->
                         In m (GraphNode.neightboors (st o)) \/ m = GraphEdge.target e).
  { subst st1. intros m0.
    destruct (GraphNode.same (GraphEdge.source e) node
              && negb (GraphNode.includes st node (GraphEdge.target e)));
      [apply neightboors_push | tauto]. }
  destruct (GraphNode.same (GraphEdge.target e) node
            && negb (GraphNode.includes st1 node (GraphEdge.source e))).
  - intros H. apply neightboors_push in H. destruct H as [H|H]; [|tauto].
    apply H1 in H. tauto.
  - intros H. apply H1 in H. tauto.
Qed.

Lemma neightboors_scanEdges node es st o m :
  In m (GraphNode.neightboors (fold_left (GraphDefinition.scanEdge node) es st o)) ->
  In m (GraphNode.neightboors (st o)) \/
  exists e, In e es /\ (m = GraphEdge.source e \/ m = GraphEdge.target e).
Proof.
  revert st. induction es as [|e t IH]; simpl; intros st H; [tauto|].
  apply IH in H. destruct H as [H|[e' [H1 H2]]].
  - apply neightboors_scanEdge in H. destruct H as [H|H]; [tauto|].
    right. exists e. tauto.
  - right. exists e'. tauto.
Qed.

Lemma neightboors_initializeNode es st node o m :
  In m (GraphNode.neightboors (GraphDefinition.initializeNode es st node o)) ->
  In m (GraphNode.neightboors (st o)) \/
  exists e, In e es /\ (m = GraphEdge.source e \/ m = GraphEdge.target e).
Proof.
  unfold GraphDefinition.initializeNode, GraphNode.initialize, GraphNode.update.
  destruct (Nat.eqb o (GraphNode.oid node)) eqn:E; simpl.
  - apply Nat.eqb_eq in E. subst o. apply neightboors_scanEdges.
  - apply neightboors_scanEdges.
Qed.

Lemma neightboors_initializeNodes es l st o m :
  In m (GraphNode.neightboors (fold_left (GraphDefinition.initializeNode es) l st o)) ->
  In m (GraphNode.neightboors (st o)) \/
  exists e, In e es /\ (m = GraphEdge.source e \/ m = GraphEdge.target e).
Proof.
  revert st. induction l as [|n t IH]; simpl; intros st H; [tauto|].
  apply IH in H. destruct H as [H|H]; [|tauto].
  now apply neightboors_initializeNode in H.
Qed.

Lemma wf_initialize g : wf g -> wf (GraphDefinition.initialize g).
Proof.
  intros W. destruct W as [Wk Wi Wo Wj We Wn Wu].
  constructor; simpl; try assumption.
  intros o m H. apply neightboors_initializeNodes in H.
  destruct H as [H|[e [He [->| ->]]]]; [eauto | apply We, He | apply We, He].
Qed.

Lemma reachable_wf g : GraphDefinition.reachable g -> wf g.
Proof.
  induction 1; auto using wf_empty, wf_addNode, wf_addEdge, wf_initialize.
Qed.

(** ** Radius *)

Lemma radius_push node m st o :
  GraphNode.radius (GraphNode.push node m st o) = GraphNode.radius (st o).
Proof.
  unfold GraphNode.push, GraphNode.update.
  destruct (Nat.eqb o (GraphNode.oid node)) eqn:E; [|reflexivity].
  apply Nat.eqb_eq in E. now subst.
Qed.

Lemma radius_scanEdge node st e o :
  GraphNode.radius (GraphDefinition.scanEdge node st e o) = GraphNode.radius (st o).
Proof.
  unfold GraphDefinition.scanEdge.
  repeat match goal with
         | |- context [if ?c then _ else _] => destruct c
         end; repeat rewrite radius_push; reflexivity.
Qed.

Lemma radius_scanEdges node es st o :
  GraphNode.radius (fold_left (GraphDefinition.scanEdge node) es st o) = GraphNode.radius (st o).
Proof.
  revert st. induction es as [|e t IH]; simpl; intros st; [reflexivity|].
  now rewrite IH, radius_scanEdge.
Qed.

Lemma radius_initializeNode es st node o :
  GraphNode.radius (GraphDefinition.initializeNode es st node o) =
  if Nat.eqb o (GraphNode.oid node) then Some (halfDiagonal node) else GraphNode.radius (st o).
Proof.
  unfold GraphDefinition.initializeNode, GraphNode.initialize, GraphNode.update.
  destruct (Nat.eqb o (GraphNode.oid node)); [reflexivity | apply radius_scanEdges].
Qed.

Lemma radius_initializeNodes es l : forall st n,
  (forall x, In x l -> GraphNode.oid x = GraphNode.oid n -> x = n) ->
  In n l \/ GraphNode.radius (st (GraphNode.oid n)) = Some (halfDiagonal n) ->
  GraphNode.radius (fold_left (GraphDefinition.initializeNode es) l st (GraphNode.oid n))
  = Some (halfDiagonal n).
Proof.
  induction l as [|x t IH]; simpl; intros st n Hc H.
  - destruct H as [[]|H]. assumption.
  - apply IH; [auto|].
    rewrite radius_initializeNode.
    destruct (Nat.eqb (GraphNode.oid n) (GraphNode.oid x)) eqn:E.
    + apply Nat.eqb_eq in E. symmetry in E. rewrite (Hc x (or_introl eq_refl) E). now right.
    + destruct H as [[->|H]|H]; [|now left|now right].
      rewrite Nat.eqb_refl in E. discriminate.
Qed.

Lemma wf_node_by_oid g k n k' n' :
  wf g -> In (k, n) (GraphDefinition.nodes g) -> In (k', n') (GraphDefinition.nodes g) ->
  GraphNode.oid n = GraphNode.oid n' -> n = n'.
Proof.
  intros W H H' E. assert (k = k') by (eapply wf_inj; eassumption). subst k'.
  apply In_objGet in H; [|apply W]. apply In_objGet in H'; [|apply W]. congruence.
Qed.

Lemma initialize_radius g k n :
  wf g -> In (k, n) (GraphDefinition.nodes g) ->
  GraphNode.radius (GraphDefinition.heap (GraphDefinition.initialize g) (GraphNode.oid n))
  = Some (halfDiagonal n).
Proof.
  intros W H. simpl. apply radius_initializeNodes.
  - intros x Hx E. unfold objValues in Hx. apply in_map_iff in Hx.
    destruct Hx as [[k' x'] [<- Hx]]. simpl in *. eapply wf_node_by_oid; eassumption.
  - left. unfold objValues. change n with (snd (k, n)). now apply in_map.
Qed.

Lemma halfDiagonal_alt w h : sqrt (w * w / 4 + h * h / 4) = sqrt (w * w + h * h) / 2.
Proof.
  replace (w * w / 4 + h * h / 4) with ((w * w + h * h) / (2 * 2)) by lra.
  rewrite sqrt_div_alt by lra.
  rewrite sqrt_square by lra. reflexivity.
Qed.

(** C9. After [initialize()] of a graph built through the interface, every
    node of the graph has radius √(w²+h²)/2, which is the same number as
    √(w²/4 + h²/4). *)
Theorem radius_after_initialize (g : GraphDefinition.t) (id : string) (n : GraphNode.t) :
  GraphDefinition.reachable g ->
  objGet id (GraphDefinition.nodes g) = Some n ->
  GraphNode.radius (GraphDefinition.heap (GraphDefinition.initialize g) (GraphNode.oid n))
  = Some (sqrt (GraphNode.width n * GraphNode.width n
               + GraphNode.height n * GraphNode.height n) / 2)
  /\ sqrt (GraphNode.width n * GraphNode.width n + GraphNode.height n * GraphNode.height n) / 2
     = sqrt (GraphNode.width n * GraphNode.width n / 4
             + GraphNode.height n * GraphNode.height n / 4).
Proof.
  intros Hr Hn. split.
  - rewrite <- halfDiagonal_alt.
    apply (initialize_radius g id n); [now apply reachable_wf | now apply objGet_In].
  - symmetry. apply halfDiagonal_alt.
Qed.

Lemma radius_after_initialize_witness :
  GraphDefinition.reachable singleGraph
  /\ objGet "a"%string (GraphDefinition.nodes singleGraph) = Some (GraphNode.mk 0 "a" 3 4)
  /\ GraphNode.radius (GraphDefinition.heap (GraphDefinition.initialize singleGraph) 0%nat)
     = Some (sqrt (3 * 3 + 4 * 4) / 2).
Proof.
  split; [repeat constructor | split; [reflexivity|]].
  apply (radius_after_initialize singleGraph "a"%string (GraphNode.mk 0 "a" 3 4));
    [repeat constructor | reflexivity].
Defined.

(** ** addEdge *)

Lemma addEdge_known g a b s t :
  objGet a (GraphDefinition.nodes g) = Some s ->
  objGet b (GraphDefinition.nodes g) = Some t ->
  GraphDefinition.nodes (GraphDefinition.addEdge a b g) = GraphDefinition.nodes g
  /\ existsb (GraphDefinition.joins s t)
             (GraphDefinition.edges (GraphDefinition.addEdge a b g)) = true
  /\ (existsb (GraphDefinition.joins s t) (GraphDefinition.edges g) = true ->
      GraphDefinition.addEdge a b g = g)
  /\ (existsb (GraphDefinition.joins s t) (GraphDefinition.edges g) = false ->
      GraphDefinition.edges (GraphDefinition.addEdge a b g)
      = GraphDefinition.edges g ++ [GraphEdge.mk s t]).
Proof.
  intros Ha Hb. unfold GraphDefinition.addEdge. rewrite Ha, Hb.
  destruct (existsb (GraphDefinition.joins s t) (GraphDefinition.edges g)) eqn:Ex; simpl.
  - rewrite Ex. repeat split; auto. discriminate.
  - repeat split; auto; [|discriminate].
    rewrite existsb_app. simpl.
    unfold GraphDefinition.joins at 2, GraphNode.same. simpl.
    rewrite !Nat.eqb_refl. simpl. apply orb_true_r.
Qed.

Lemma addEdge_again g a b s t :
  objGet a (GraphDefinition.nodes g) = Some s ->
  objGet b (GraphDefinition.nodes g) = Some t ->
  GraphDefinition.addEdge a b (GraphDefinition.addEdge a b g) = GraphDefinition.addEdge a b g
  /\ GraphDefinition.addEdge b a (GraphDefinition.addEdge a b g) = GraphDefinition.addEdge a b g.
Proof.
  intros Ha Hb.
  destruct (addEdge_known g a b s t Ha Hb) as (Hn & Hex & _ & _).
  split.
  - apply (addEdge_known _ a b s t); rewrite ?Hn; assumption.
  - apply (addEdge_known _ b a t s); rewrite ?Hn; try assumption.
    rewrite <- Hex. apply existsb_pointwise. intros x. apply joins_sym.
Qed.

(** C10. When the graph knows the id [a] and holds no edge running from
    that node to itself, [addEdge(a, a)] appends such an edge; a second
    [addEdge(a, a)] changes nothing. *)
Theorem addEdge_self_edge (g : GraphDefinition.t) (a : string) (n : GraphNode.t) :
  objGet a (GraphDefinition.nodes g) = Some n ->
  (forall e, In e (GraphDefinition.edges g) ->
     ~ (GraphNode.same (GraphEdge.source e) n = true
        /\ GraphNode.same (GraphEdge.target e) n = true)) ->
  GraphDefinition.edges (GraphDefinition.addEdge a a g)
  = GraphDefinition.edges g ++ [GraphEdge.mk n n]
  /\ GraphDefinition.addEdge a a (GraphDefinition.addEdge a a g)
     = GraphDefinition.addEdge a a g.
Proof.
  intros Ha Hno. split.
  - apply (addEdge_known g a a n n Ha Ha).
    destruct (existsb (GraphDefinition.joins n n) (GraphDefinition.edges g)) eqn:Ex;
      [|reflexivity].
    apply existsb_exists in Ex. destruct Ex as [e [He J]].
    exfalso. apply (Hno e He). unfold GraphDefinition.joins in J.
    apply orb_true_iff in J. destruct J as [J|J]; apply andb_true_iff in J; tauto.
  - apply (addEdge_again g a a n n Ha Ha).
Qed.

Lemma addEdge_self_edge_witness :
  objGet "a"%string (GraphDefinition.nodes singleGraph) = Some (GraphNode.mk 0 "a" 3 4)
  /\ GraphDefinition.edges (GraphDefinition.addEdge "a" "a" singleGraph)
     = [GraphEdge.mk (GraphNode.mk 0 "a" 3 4) (GraphNode.mk 0 "a" 3 4)].
Proof.
  split; [reflexivity|].
  apply (addEdge_self_edge singleGraph "a"%string (GraphNode.mk 0 "a" 3 4));
    [reflexivity | intros e []].
Defined.






Lemma addEdge_stray a b g :
  objGet a (GraphDefinition.nodes g) = None \/ objGet b (GraphDefinition.nodes g) = None ->
  GraphDefinition.addEdge a b g
  = match GraphDefinition.lookup a g, GraphDefinition.lookup b g with
    | Some source, Some target =>
        if existsb (GraphDefinition.strayJoins source target) (GraphDefinition.strays g)
        then g
        else GraphDefinition.mk (GraphDefinition.nextOid g) (GraphDefinition.heap g)
               (GraphDefinition.nodes g) (GraphDefinition.edges g)
               (GraphDefinition.strays g ++ [(source, target)])
    | _, _ => g
    end.
Proof.
  intros H. unfold GraphDefinition.addEdge.
  destruct H as [H|H]; rewrite H; [reflexivity|].
  destruct (objGet a (GraphDefinition.nodes g)); reflexivity.
Qed.




(** ** Circle order *)

Lemma sortInsert_perm st a l : Permutation (sortInsert st a l) (a :: l).
Proof.
  induction l as [|b t IH]; simpl; [reflexivity|].
  destruct (sortsBefore st b a); [|reflexivity].
  rewrite IH. apply perm_swap.
Qed.

Lemma sortBy_perm st l : Permutation (sortBy st l) l.
Proof.
  induction l as [|a t IH]; simpl; [reflexivity|].
  rewrite sortInsert_perm. now constructor.
Qed.

Lemma seen_In k added : existsb (String.eqb k) added = true <-> In k added.
Proof.
  rewrite existsb_exists. split.
  - intros [x [Hx E]]. apply String.eqb_eq in E. now subst.
  - intros H. exists k. split; [assumption | apply String.eqb_refl].
Qed.

Lemma filter_length_mono {A : Type} (p q : A -> bool) (l : list A) :
  (forall y, p y = true -> q y = true) ->
  (List.length (filter p l) <= List.length (filter q l))%nat.
Proof.
  intros H. induction l as [|a t IH]; simpl; [lia|].
  destruct (p a) eqn:E.
  - rewrite (H a E). simpl. lia.
  - destruct (q a); simpl; lia.
Qed.

Lemma filter_length_strict {A : Type} (p q : A -> bool) (l : list A) (x : A) :
  (forall y, p y = true -> q y = true) ->
  In x l -> q x = true -> p x = false ->
  (List.length (filter p l) < List.length (filter q l))%nat.
Proof.
  intros H Hx Hq Hp. induction l as [|a t IH]; simpl; [destruct Hx|].
  pose proof (filter_length_mono p q t H) as Hle.
  destruct Hx as [->|Hx].
  - rewrite Hq, Hp. simpl. lia.
  - specialize (IH Hx). destruct (p a) eqn:E.
    + rewrite (H a E). simpl. lia.
    + destruct (q a); simpl; lia.
Qed.

Lemma unseen_le K added added' :
  incl added added' -> (List.length (unseen K added') <= List.length (unseen K added))%nat.
Proof.
  intros Hi. apply filter_length_mono. intros y Hy.
  apply negb_true_iff in Hy. apply negb_true_iff.
  destruct (existsb (String.eqb y) added) eqn:E; [|reflexivity].
  apply seen_In in E. apply Hi in E. apply seen_In in E. congruence.
Qed.

Lemma unseen_lt K added k :
  In k K -> ~ In k added ->
  (List.length (unseen K (k :: added)) < List.length (unseen K added))%nat.
Proof.
  intros Hk Hn. apply (filter_length_strict _ _ K k); [|assumption| |].
  - intros y Hy. apply negb_true_iff in Hy. apply negb_true_iff.
    simpl in Hy. apply orb_false_iff in Hy. tauto.
  - apply negb_true_iff. destruct (existsb (String.eqb k) added) eqn:E; [|reflexivity].
    apply seen_In in E. contradiction.
  - apply negb_false_iff. simpl. now rewrite String.eqb_refl.
Qed.

Section CircleOrder.
Variable K : list string.
Variable st : GraphNode.store.
Hypothesis closed :
  forall o m, In m (GraphNode.neightboors (st o)) -> In (GraphNode.designerId m) K.

Lemma visitNodes_spec bound recurse :
  travSpec K bound recurse -> travSpec K (S bound) (visitNodes st recurse).
Proof.
  intros Hrec nodes. induction nodes as [|node rest IH]; intros a Hk Hinv Hlt; simpl.
  - exists a. repeat split; try apply Hinv; auto using incl_refl.
    + exists []. now rewrite app_nil_r.
    + intros n [].
  - destruct (existsb (String.eqb (GraphNode.designerId node)) (snd a)) eqn:E.
    + destruct (IH a) as (a' & H1 & H2 & H3 & H4 & H5); auto.
      { intros n Hn. apply Hk. now right. }
      exists a'. repeat split; try apply H2; auto.
      intros n [<-|Hn]; [|auto]. apply H4. now apply seen_In.
    + assert (Hnew : ~ In (GraphNode.designerId node) (snd a)).
      { intros H. apply seen_In in H. congruence. }
      assert (HinK : In (GraphNode.designerId node) K) by (apply Hk; now left).
      destruct Hinv as (I1 & I2 & I3).
      destruct (Hrec (GraphNode.neightboors (st (GraphNode.oid node)))
                     (fst a ++ [node], GraphNode.designerId node :: snd a))
        as (a1 & R1 & R2 & [more1 R3] & R4 & R5).
      * intros n Hn. eapply closed, Hn.
      * unfold accInv. simpl. repeat split.
        -- rewrite map_app, I1. reflexivity.
        -- now constructor.
        -- intros k [<-|Hin]; auto.
      * simpl. pose proof (unseen_lt K (snd a) _ HinK Hnew). lia.
      * rewrite R1. simpl in R3, R4.
        destruct (IH a1) as (a' & H1 & H2 & [more H3] & H4 & H5); auto.
        { intros n Hn. apply Hk. now right. }
        { pose proof (unseen_le K _ _ R4).
          pose proof (unseen_lt K (snd a) _ HinK Hnew). lia. }
        exists a'. repeat split; try apply H2; auto.
        -- exists ([node] ++ more1 ++ more). rewrite H3, R3, <- !app_assoc. reflexivity.
        -- intros k Hin. apply H4, R4. now right.
        -- intros n [<-|Hn]; [|auto]. apply H4, R4. now left.
Qed.

Lemma addNodeNeighboors_spec fuel : travSpec K fuel (addNodeNeighboors fuel st).
Proof.
  induction fuel as [|fuel IH].
  - intros nodes a _ _ H. lia.
  - intros nodes a Hk Hinv Hlt. simpl.
    destruct (visitNodes_spec fuel _ IH (sortBy st nodes) a) as (a' & H1 & H2 & H3 & H4 & H5);
      auto.
    { intros n Hn. apply Hk. eapply Permutation_in; [apply sortBy_perm | exact Hn]. }
    exists a'. repeat split; try apply H2; auto.
    intros n Hn. apply H5. eapply Permutation_in; [symmetry; apply sortBy_perm | exact Hn].
Qed.

(** The first node visited, when new, is placed as it is. *)
Lemma visitNodes_head bound recurse n0 rest a a' :
  travSpec K bound recurse ->
  (forall n, In n (n0 :: rest) -> In (GraphNode.designerId n) K) ->
  accInv K a ->
  (List.length (unseen K (snd a)) < S bound)%nat ->
  ~ In (GraphNode.designerId n0) (snd a) ->
  visitNodes st recurse (n0 :: rest) a = Some a' ->
  In n0 (fst a').
Proof.
  intros Hrec Hk Hinv Hlt Hnew. simpl.
  destruct (existsb (String.eqb (GraphNode.designerId n0)) (snd a)) eqn:E.
  { apply seen_In in E. contradiction. }
  assert (HinK : In (GraphNode.designerId n0) K) by (apply Hk; now left).
  destruct Hinv as (I1 & I2 & I3).
  destruct (Hrec (GraphNode.neightboors (st (GraphNode.oid n0)))
                 (fst a ++ [n0], GraphNode.designerId n0 :: snd a))
    as (a1 & R1 & R2 & [more1 R3] & R4 & R5).
  - intros n Hn. eapply closed, Hn.
  - unfold accInv. simpl. repeat split.
    + rewrite map_app, I1. reflexivity.
    + now constructor.
    + intros k [<-|Hin]; auto.
  - simpl. pose proof (unseen_lt K (snd a) _ HinK Hnew). lia.
  - rewrite R1. simpl in R3, R4. intros H.
    destruct (visitNodes_spec bound recurse Hrec rest a1) as (a2 & H1 & _ & [more H3] & _); auto.
    { intros n Hn. apply Hk. now right. }
    { pose proof (unseen_le K _ _ R4).
      pose proof (unseen_lt K (snd a) _ HinK Hnew). lia. }
    rewrite H1 in H. injection H as <-.
    rewrite H3, R3. apply in_or_app. left. apply in_or_app. left.
    apply in_or_app. right. now left.
Qed.

End CircleOrder.

Lemma circleOrder_ok g :
  wf g ->
  exists order,
    GraphLayout.circleOrder g = Some order
    /\ NoDup (map GraphNode.designerId order)
    /\ Permutation (map GraphNode.designerId order) (objKeys (GraphDefinition.nodes g))
    /\ (GraphDefinition.nodes g <> [] ->
        exists k n, In (k, n) (GraphDefinition.nodes g) /\ In n order).
Proof.
  intros W. unfold GraphLayout.circleOrder.
  set (K := objKeys (GraphDefinition.nodes g)).
  set (st := GraphDefinition.heap g).
  set (vs := objValues (GraphDefinition.nodes g)).
  set (fuel := List.length (GraphDefinition.nodes g)).
  assert (Hk : forall n, In n vs -> In (GraphNode.designerId n) K).
  { intros n Hn. subst vs. unfold objValues in Hn. apply in_map_iff in Hn.
    destruct Hn as [[k n'] [<- Hn]]. simpl. rewrite (wf_ids g W k n' Hn).
    subst K. unfold objKeys. change k with (fst (k, n')). now apply in_map. }
  assert (Hinv : accInv K ([], [])).
  { repeat split; simpl; [constructor | intros k []]. }
  assert (Hlen : (List.length (unseen K []) <= fuel)%nat).
  { unfold unseen. etransitivity; [apply List.filter_length_le|].
    subst K fuel. unfold objKeys. now rewrite length_map. }
  destruct (addNodeNeighboors_spec K st (wf_neigh g W) (S fuel) vs ([], []))
    as ([order added] & H1 & (I1 & I2 & I3) & _ & _ & H5); auto.
  { simpl. lia. }
  simpl in I1, I2, I3, H5. rewrite H1. exists order.
  assert (Hperm : Permutation added K).
  { apply NoDup_Permutation; [assumption | apply W|].
    intros k. split; [apply I3|]. intros Hin.
    subst K. unfold objKeys in Hin. apply in_map_iff in Hin.
    destruct Hin as [[k' n] [<- Hin]]. simpl.
    rewrite <- (wf_ids g W k' n Hin). apply H5.
    subst vs. unfold objValues. change n with (snd (k', n)). now apply in_map. }
  split; [reflexivity|]. split; [|split].
  - rewrite I1. apply NoDup_rev. assumption.
  - rewrite I1, <- Permutation_rev. assumption.
  - intros Hne. simpl in H1.
    assert (Hp := sortBy_perm st vs).
    destruct (sortBy st vs) as [|n0 rest] eqn:Es.
    + apply Permutation_nil in Hp. subst vs.
      destruct (GraphDefinition.nodes g); [congruence | discriminate].
    + assert (Hn0 : In n0 vs) by (eapply Permutation_in; [exact Hp | now left]).
      pose proof (visitNodes_head K st (wf_neigh g W) fuel (addNodeNeighboors fuel st)
                    n0 rest ([], []) (order, added)
                    (addNodeNeighboors_spec K st (wf_neigh g W) fuel)) as Hh.
      simpl in Hh. subst vs. unfold objValues in Hn0. apply in_map_iff in Hn0.
      destruct Hn0 as [[k n] [E Hn0]]. simpl in E. subst n0.
      exists k, n. split; [assumption|]. apply Hh; auto.
      * intros m Hm. apply Hk. eapply Permutation_in; [exact Hp | exact Hm].
      * lia.
Qed.

(** ** Building the edges of a layout *)

Lemma mapM_total {A B : Type} (f : A -> result B) (l : list A) :
  (forall a, In a l -> exists b, f a = Ok b) ->
  exists bs, mapM f l = Ok bs.
Proof.
  induction l as [|a t IH]; simpl; intros H; [eauto|].
  destruct (H a (or_introl eq_refl)) as [b Hb]. rewrite Hb. simpl.
  destruct IH as [bs Hbs]; [auto|]. rewrite Hbs. simpl. eauto.
Qed.

Lemma mapM_Forall2 {A B : Type} (f : A -> result B) (l : list A) (bs : list B) :
  mapM f l = Ok bs -> Forall2 (fun a b => f a = Ok b) l bs.
Proof.
  revert bs. induction l as [|a t IH]; simpl; intros bs H.
  - injection H as <-. constructor.
  - destruct (f a) as [b|e] eqn:E; simpl in H; [|discriminate].
    destruct (mapM f t) as [bs'|e] eqn:E'; simpl in H; [|discriminate].
    injection H as <-. constructor; auto.
Qed.

Lemma mapM_In {A B : Type} (f : A -> result B) (l : list A) (bs : list B) (b : B) :
  mapM f l = Ok bs -> In b bs -> exists a, In a l /\ f a = Ok b.
Proof.
  intros H. apply mapM_Forall2 in H. induction H as [|a b' l' bs' Hab _ IH]; simpl.
  - tauto.
  - intros [<-|Hin]; [eauto|]. destruct (IH Hin) as [a' [? ?]]. eauto.
Qed.

Lemma mapM_length {A B : Type} (f : A -> result B) (l : list A) (bs : list B) :
  mapM f l = Ok bs -> List.length bs = List.length l.
Proof.
  intros H. apply mapM_Forall2 in H. symmetry. eapply Forall2_length, H.
Qed.

Lemma fillEdges_total g ns es0 :
  covers g ns -> exists es, GraphLayout.fillEdges (GraphLayout.mk g ns es0) = Ok (GraphLayout.mk g ns es).
Proof.
  intros Hc. unfold GraphLayout.fillEdges. simpl.
  destruct (mapM_total (GraphLayout.fillEdge ns) (GraphDefinition.edges g)) as [es Hes].
  - intros e He. destruct (Hc e He) as [H1 H2].
    apply In_objKeys_objGet in H1. apply In_objKeys_objGet in H2.
    destruct H1 as [n1 H1]. destruct H2 as [n2 H2].
    unfold GraphLayout.fillEdge. rewrite H1, H2. eauto.
  - rewrite Hes. simpl. eauto.
Qed.

Lemma fillEdges_inv l l' :
  GraphLayout.fillEdges l = Ok l' ->
  GraphLayout.graph l' = GraphLayout.graph l
  /\ GraphLayout.nodes l' = GraphLayout.nodes l
  /\ mapM (GraphLayout.fillEdge (GraphLayout.nodes l))
          (GraphDefinition.edges (GraphLayout.graph l)) = Ok (GraphLayout.edges l').
Proof.
  unfold GraphLayout.fillEdges.
  destruct (mapM _ _) as [es|e]; simpl; [|discriminate].
  intros [= <-]. auto.
Qed.

Lemma fillEdge_inv ns e le :
  GraphLayout.fillEdge ns e = Ok le ->
  LayoutEdge.edge le = e
  /\ objGet (GraphNode.designerId (GraphEdge.source e)) ns = Some (LayoutEdge.source le)
  /\ objGet (GraphNode.designerId (GraphEdge.target e)) ns = Some (LayoutEdge.target le)
  /\ LayoutEdge.length le = LayoutNode.distanceTo (LayoutEdge.source le) (LayoutEdge.target le).
Proof.
  unfold GraphLayout.fillEdge.
  destruct (objGet _ ns) as [n1|]; [|discriminate].
  destruct (objGet _ ns) as [n2|]; [|discriminate].
  intros [= <-]. auto.
Qed.


(** ** The circular layout *)

Lemma placed_keys radius dangle order :
  forall angle, objKeys (placed radius dangle angle order) = map GraphNode.designerId order.
Proof.
  induction order as [|n t IH]; simpl; intros angle; [reflexivity|]. now rewrite IH.
Qed.

Lemma placed_ids radius dangle order :
  forall angle k n, In (k, n) (placed radius dangle angle order) -> LayoutNode.designerId n = k.
Proof.
  induction order as [|m t IH]; simpl; intros angle k n H; [destruct H|].
  destruct H as [[= <- <-]|H]; [reflexivity | eauto].
Qed.


Lemma fold_placeNode radius dangle order :
  forall resNodes angle,
    NoDup (map GraphNode.designerId order) ->
    (forall n, In n order -> ~ In (GraphNode.designerId n) (objKeys resNodes)) ->
    fst (fold_left (GraphLayout.placeNode radius dangle) order (resNodes, angle))
    = resNodes ++ placed radius dangle angle order.
Proof.
  induction order as [|n t IH]; simpl; intros resNodes angle Hnd Hfresh.
  - now rewrite app_nil_r.
  - inversion Hnd as [|? ? Hn Hnd']; subst.
    rewrite objSet_fresh by (apply Hfresh; now left).
    rewrite IH; [now rewrite <- app_assoc | assumption |].
    intros m Hm Hin. unfold objKeys in Hin. rewrite map_app in Hin.
    apply in_app_or in Hin. destruct Hin as [Hin|[Hin|[]]].
    + apply (Hfresh m); [now right | exact Hin].
    + simpl in Hin. apply Hn. rewrite Hin. now apply in_map.
Qed.

Lemma lodashMax_some l v : In (Some v) l -> exists m, lodashMax l = Some m.
Proof.
  induction l as [|[u|] t IH]; simpl; intros H.
  - destruct H.
  - destruct (lodashMax t); eauto.
  - destruct H as [H|H]; [discriminate | auto].
Qed.

Lemma initialize_initialized g : wf g -> initialized (GraphDefinition.initialize g).
Proof.
  intros W k n H. apply (initialize_radius g k n W H).
Qed.

Lemma createCircle_nonempty g :
  wf g -> initialized g -> GraphDefinition.nodes g <> [] ->
  exists order nodeRadius es,
    GraphLayout.circleOrder g = Some order
    /\ NoDup (map GraphNode.designerId order)
    /\ Permutation (map GraphNode.designerId order) (objKeys (GraphDefinition.nodes g))
    /\ lodashMax (radii g order) = Some nodeRadius
    /\ GraphLayout.createCircle g
       = Ok (GraphLayout.mk g
               (placed (circleRadius (List.length order) nodeRadius)
                       (2 * PI / INR (List.length order)) 0 order)
               es).
Proof.
  intros W Hi Hne.
  destruct (circleOrder_ok g W) as (order & Ho & Hnd & Hp & Hhead).
  destruct (Hhead Hne) as (k & n & Hn & Hin).
  destruct (lodashMax_some (radii g order) (halfDiagonal n)) as [nodeRadius Hmax].
  { unfold radii. rewrite <- (Hi k n Hn).
    apply (in_map (fun x => GraphNode.radius (GraphDefinition.heap g (GraphNode.oid x)))).
    exact Hin. }
  unfold GraphLayout.createCircle.
  assert (Hemp : objIsEmpty (GraphDefinition.nodes g) = false)
    by (destruct (GraphDefinition.nodes g); [congruence | reflexivity]).
  rewrite Hemp, Ho. fold (radii g order). rewrite Hmax.
  rewrite fold_placeNode by (auto; intros m _ []). cbn [app].
  destruct (fillEdges_total g
              (placed (circleRadius (List.length order) nodeRadius)
                      (2 * PI / INR (List.length order)) 0 order) [])
    as [es Hes].
  { intros e He. rewrite placed_keys.
    destruct (wf_edges g W e He) as [H1 H2].
    split; (eapply Permutation_in; [symmetry; exact Hp|]); assumption. }
  exists order, nodeRadius, es. repeat split; auto.
Qed.

(** ** Layout snapshots *)

Lemma sound_NoDup l : sound l -> NoDup (objKeys (GraphLayout.nodes l)).
Proof.
  intros S. eapply Permutation_NoDup; [symmetry; apply S | apply S].
Qed.

Lemma sound_covers l : sound l -> covers (GraphLayout.graph l) (GraphLayout.nodes l).
Proof.
  intros S e He. destruct (wf_edges _ (sound_graph l S) e He) as [H1 H2].
  split; (eapply Permutation_in; [symmetry; apply S|]); assumption.
Qed.

Lemma fillEdges_sound g ns l :
  wf g -> Permutation (objKeys ns) (objKeys (GraphDefinition.nodes g)) ->
  (forall k n, In (k, n) ns -> LayoutNode.designerId n = k) ->
  GraphLayout.fillEdges (GraphLayout.mk g ns []) = Ok l ->
  sound l.
Proof.
  intros W Hp Hids H.
  destruct (fillEdges_inv _ _ H) as (Hg & Hn & _). simpl in Hg, Hn.
  constructor; rewrite ?Hg, ?Hn; auto.
Qed.

Lemma createCircle_sound g l :
  wf g -> GraphLayout.createCircle g = Ok l -> sound l.
Proof.
  intros W. unfold GraphLayout.createCircle.
  destruct (objIsEmpty (GraphDefinition.nodes g)) eqn:Ee.
  - intros [= <-]. destruct (GraphDefinition.nodes g) eqn:En; [|discriminate].
    assert (He : GraphDefinition.edges g = []).
    { destruct (GraphDefinition.edges g) as [|e t] eqn:E; [reflexivity|].
      destruct (wf_edges g W e) as [H _]; [rewrite E; now left|].
      rewrite En in H. destruct H. }
    constructor; simpl; auto.
    + now rewrite En.
    + intros k n [].
    + unfold GraphLayout.fillEdges, GraphLayout.new. simpl. now rewrite He.
  - destruct (circleOrder_ok g W) as (order & Ho & Hnd & Hp & _). rewrite Ho.
    destruct (lodashMax _) as [nodeRadius|]; [|discriminate].
    rewrite fold_placeNode by (auto; intros m _ []). cbn [app].
    apply fillEdges_sound; auto.
    + now rewrite placed_keys.
    + apply placed_ids.
Qed.

Lemma changePositions_sound nodeFunc l :
  sound l ->
  (forall n, LayoutNode.designerId (nodeFunc n) = LayoutNode.designerId n) ->
  exists l', GraphLayout.changePositions nodeFunc l = Ok l'
             /\ sound l'
             /\ GraphLayout.graph l' = GraphLayout.graph l
             /\ GraphLayout.nodes l' = objMapValues nodeFunc (GraphLayout.nodes l).
Proof.
  intros S Hf. unfold GraphLayout.changePositions.
  destruct (fillEdges_total (GraphLayout.graph l)
              (objMapValues nodeFunc (GraphLayout.nodes l)) []) as [es Hes].
  { intros e He. rewrite objKeys_objMapValues. now apply sound_covers. }
  rewrite Hes. eexists. split; [reflexivity|]. split; [|split; reflexivity].
  eapply fillEdges_sound; [apply S | | | exact Hes].
  - rewrite objKeys_objMapValues. apply S.
  - intros k n Hin. unfold objMapValues in Hin. apply in_map_iff in Hin.
    destruct Hin as [[k' n'] [[= <- <-] Hin]]. simpl. rewrite Hf.
    eapply sound_ids; eassumption.
Qed.

Lemma moveNode_id forces n :
  LayoutNode.designerId (ForceAlgorithmStep.moveNode forces n) = LayoutNode.designerId n.
Proof.
  unfold ForceAlgorithmStep.moveNode. now destruct (objGet _ forces).
Qed.

Lemma moveOnly_id node d x :
  LayoutNode.designerId (GraphLayout.moveOnly node d x) = LayoutNode.designerId x.
Proof.
  unfold GraphLayout.moveOnly, LayoutNode.same.
  destruct (String.eqb _ _) eqn:E; [|reflexivity].
  apply String.eqb_eq in E. now rewrite E.
Qed.

Lemma changePositions_shape nodeFunc l :
  sound l ->
  (forall n, LayoutNode.designerId (nodeFunc n) = LayoutNode.designerId n) ->
  exists l', GraphLayout.changePositions nodeFunc l = Ok l' /\ sameShape l l'.
Proof.
  intros S Hf. destruct (changePositions_sound nodeFunc l S Hf) as (l' & H1 & H2 & H3 & H4).
  exists l'. split; [assumption|]. split; [assumption|]. split; [assumption|].
  rewrite H4. apply objKeys_objMapValues.
Qed.

Lemma springyStep_shape l l' :
  sound l -> GraphLayout.springyStep l = Ok l' -> sameShape l l'.
Proof.
  intros S H. unfold GraphLayout.springyStep in H.
  destruct (GraphLayout.runForces l) as [nodeForces|e]; [|discriminate]. cbn [bind] in H.
  destruct (changePositions_shape (ForceAlgorithmStep.moveNode nodeForces) l S
              (moveNode_id nodeForces)) as (l1 & E & Hs).
  rewrite E in H. injection H as <-. exact Hs.
Qed.

Lemma fixViewBox_shape l :
  sound l -> exists l', GraphLayout.fixViewBox l = Ok l' /\ sameShape l l'.
Proof.
  intros S. unfold GraphLayout.fixViewBox.
  destruct (lodashMin _) as [minX|]; [destruct (lodashMin _) as [minY|]|];
    apply changePositions_shape; auto.
Qed.

Lemma tryMoveNode_shape l node :
  sound l ->
  exists items, GraphLayout.tryMoveNode l node = Ok items
                /\ items <> []
                /\ forall item, In item items -> sameShape l item.
Proof.
  intros S. unfold GraphLayout.tryMoveNode.
  destruct (mapM_total (fun d => GraphLayout.changePositions (GraphLayout.moveOnly node d) l)
                       GraphLayout.moves) as [items Hitems].
  { intros d _.
    destruct (changePositions_shape (GraphLayout.moveOnly node d) l S) as (l' & H & _);
      [apply moveOnly_id | eauto]. }
  exists items. split; [assumption|]. split.
  - apply mapM_length in Hitems. destruct items; [discriminate | congruence].
  - intros item Hin. destruct (mapM_In _ _ _ _ Hitems Hin) as (d & _ & Hd).
    destruct (changePositions_shape (GraphLayout.moveOnly node d) l S) as (l' & H & Hs);
      [apply moveOnly_id|]. congruence.
Qed.

Lemma consider_fold l items :
  forall best,
    bestOk l best -> (forall item, In item items -> sameShape l item) ->
    bestOk l (fold_left GraphLayout.consider items best)
    /\ (best <> None \/ items <> [] -> fold_left GraphLayout.consider items best <> None).
Proof.
  induction items as [|item t IH]; simpl; intros best Hb Hi.
  - split; [assumption|]. intros [H|H]; congruence.
  - assert (Hc : bestOk l (GraphLayout.consider best item)
                 /\ GraphLayout.consider best item <> None).
    { unfold GraphLayout.consider. destruct best as [[res resScore]|].
      - destruct (GraphLayout.scoreLt _ _); simpl; split; auto; discriminate.
      - simpl. split; [auto | discriminate]. }
    destruct Hc as [Hc1 Hc2]. destruct (IH _ Hc1) as [H1 H2]; [auto|].
    split; [assumption|]. intros _. apply H2. now left.
Qed.

Lemma tryMoveLoop_total l vs :
  sound l ->
  forall best, bestOk l best ->
    exists best', GraphLayout.tryMoveLoop l vs best = Ok best'
                  /\ bestOk l best'
                  /\ (best <> None \/ vs <> [] -> best' <> None)
                  /\ (best = None -> vs = [] -> best' = None).
Proof.
  intros S. induction vs as [|node rest IH]; simpl; intros best Hb.
  - exists best. split; [reflexivity|]. split; [assumption|]. split; [|auto].
    intros [H|H]; congruence.
  - destruct (tryMoveNode_shape l node S) as (items & Hitems & Hne & Hshape).
    rewrite Hitems. simpl.
    destruct (consider_fold l items best Hb Hshape) as [H1 H2].
    destruct (IH _ H1) as (best' & E & H3 & H4 & _).
    exists best'. split; [assumption|]. split; [assumption|]. split; [|discriminate].
    intros _. apply H4. left. apply H2. now right.
Qed.

Lemma tryMoveElement_total l :
  sound l ->
  exists r, GraphLayout.tryMoveElement l = Ok r
            /\ (forall l', r = Some l' -> sameShape l l')
            /\ (GraphLayout.nodes l <> [] -> r <> None)
            /\ (GraphLayout.nodes l = [] -> r = None).
Proof.
  intros S. unfold GraphLayout.tryMoveElement.
  destruct (tryMoveLoop_total l (objValues (GraphLayout.nodes l)) S None I)
    as (best & E & H1 & H2 & H3).
  rewrite E. simpl. eexists. split; [reflexivity|]. split; [|split].
  - intros l' Hl'. destruct best as [[res s]|]; [|discriminate].
    injection Hl' as <-. apply H1.
  - intros Hne. destruct best as [[res s]|]; [discriminate|].
    exfalso. apply H2; [|reflexivity]. right.
    unfold objValues. destruct (GraphLayout.nodes l); [congruence | discriminate].
  - intros He. rewrite H3; auto. now rewrite He.
Qed.

Lemma tryMoveElement_shape l l' :
  sound l -> GraphLayout.tryMoveElement l = Ok (Some l') -> sameShape l l'.
Proof.
  intros S H. destruct (tryMoveElement_total l S) as (r & E & H1 & _).
  rewrite E in H. injection H as ->. now apply H1.
Qed.

Lemma sameShape_nonempty l l' :
  sameShape l l' -> GraphLayout.nodes l <> [] -> GraphLayout.nodes l' <> [].
Proof.
  intros (_ & _ & Hk) Hne He. rewrite He in Hk.
  destruct (GraphLayout.nodes l); [congruence | discriminate].
Qed.

Lemma springySteps_sound steps :
  forall l l', sound l -> GraphLayout.springySteps steps l = Ok l' -> sameShape l l'.
Proof.
  induction steps as [|k IH]; simpl; intros l l' S H.
  - injection H as <-. split; [assumption|]. split; reflexivity.
  - destruct (GraphLayout.springyStep l) as [l1|e] eqn:E; [|discriminate]. cbn [bind] in H.
    destruct (springyStep_shape l l1 S E) as (S1 & G1 & K1).
    destruct (IH l1 l' S1 H) as (S' & G' & K').
    split; [assumption|]. split; congruence.
Qed.

Lemma doMoveLoop_sound steps :
  forall l s l', sound l -> GraphLayout.doMoveLoop steps l s = Ok l' -> sameShape l l'.
Proof.
  induction steps as [|k IH]; simpl; intros l s l' S H.
  - injection H as <-. split; [assumption|]. split; reflexivity.
  - destruct (tryMoveElement_total l S) as (r & E & H1 & _). rewrite E in H. simpl in H.
    destruct r as [res|]; [|discriminate].
    destruct (H1 res eq_refl) as (S1 & G1 & K1).
    destruct (GraphLayout.tooSmall _ _).
    + injection H as <-. split; [assumption|]. split; reflexivity.
    + destruct (IH _ _ _ S1 H) as (S' & G' & K'). split; [assumption|]. split; congruence.
Qed.

Lemma produced_sound l : produced l -> sound l.
Proof.
  induction 1 as [g l Hr Hc | l l' _ IH H | l l' _ IH H | l l' _ IH H
                  | l node items item _ IH _ H Hin | l l' _ IH H | l l' _ IH H].
  - eapply createCircle_sound; [apply reachable_wf|]; eassumption.
  - now apply (springyStep_shape l l' IH).
  - now apply (springySteps_sound SPRINGY_STEPS l l' IH).
  - destruct (fixViewBox_shape l IH) as (l1 & E & S1 & _). congruence.
  - destruct (tryMoveNode_shape l node IH) as (items' & E & _ & Hs).
    rewrite E in H. injection H as ->. now apply Hs.
  - now apply (tryMoveElement_shape l l' IH).
  - now apply (doMoveLoop_sound _ _ _ _ IH H).
Qed.


(** C1, amended.  In every layout the operations produce, a layout edge
    joins the placed nodes found under the designer ids of its graph edge,
    and its cached length is the rectangle-to-rectangle distance between
    these two placed nodes. *)
Theorem edge_length_is_rectangle_distance (l : GraphLayout.t) (e : LayoutEdge.t) :
  produced l -> In e (GraphLayout.edges l) ->
  objGet (GraphNode.designerId (GraphEdge.source (LayoutEdge.edge e))) (GraphLayout.nodes l)
  = Some (LayoutEdge.source e)
  /\ objGet (GraphNode.designerId (GraphEdge.target (LayoutEdge.edge e))) (GraphLayout.nodes l)
     = Some (LayoutEdge.target e)
  /\ LayoutEdge.length e
     = rectangleDistance (LayoutNode.bounds (LayoutEdge.source e))
                         (LayoutNode.bounds (LayoutEdge.target e)).
Proof.
  intros H Hin. apply produced_sound in H.
  pose proof (sound_edges l H) as He.
  apply fillEdges_inv in He. destruct He as (_ & _ & He). simpl in He.
  destruct (mapM_In _ _ _ _ He Hin) as (ge & _ & Hge).
  apply fillEdge_inv in Hge. destruct Hge as (<- & H1 & H2 & H3). auto.
Qed.

(** *** The circular layout of two joined nodes *)

Lemma Rlt_dec_irrefl (A : Type) (x : R) (u v : A) : (if Rlt_dec x x then u else v) = v.
Proof. destruct (Rlt_dec x x); [lra | reflexivity]. Qed.

Lemma pair_circleOrder : GraphLayout.circleOrder pairGraph = Some [nodeA; nodeB].
Proof.
  unfold GraphLayout.circleOrder.
  change (objValues (GraphDefinition.nodes pairGraph)) with [nodeA; nodeB].
  change (List.length (GraphDefinition.nodes pairGraph)) with 2%nat.
  remember (GraphDefinition.heap pairGraph) as st eqn:Est.
  assert (H0 : GraphNode.neightboors (st 0%nat) = [nodeB]) by (subst st; reflexivity).
  assert (H1 : GraphNode.neightboors (st 1%nat) = [nodeA]) by (subst st; reflexivity).
  clear Est.
  assert (Hs : sortsBefore st nodeB nodeA = false).
  { unfold sortsBefore. simpl GraphNode.oid. rewrite H0, H1. simpl.
    rewrite !Rlt_dec_irrefl. reflexivity. }
  cbn [addNodeNeighboors sortBy fold_right sortInsert]. rewrite Hs.
  cbn [visitNodes existsb snd fst GraphNode.oid GraphNode.designerId nodeA nodeB app].
  rewrite H0.
  cbn [addNodeNeighboors sortBy fold_right sortInsert visitNodes existsb snd fst
       GraphNode.oid GraphNode.designerId nodeA nodeB app].
  rewrite H1. reflexivity.
Qed.

Lemma pair_createCircle : GraphLayout.createCircle pairGraph = Ok pairLayout.
Proof.
  unfold GraphLayout.createCircle.
  change (objIsEmpty (GraphDefinition.nodes pairGraph)) with false. cbv iota.
  rewrite pair_circleOrder. reflexivity.
Qed.

Lemma pairGraph_reachable : GraphDefinition.reachable pairGraph.
Proof. repeat constructor. Qed.

Lemma pair_produced : produced pairLayout.
Proof.
  apply (produced_circle pairGraph); [apply pairGraph_reachable | apply pair_createCircle].
Qed.


Lemma edge_length_is_rectangle_distance_witness :
  produced pairLayout
  /\ In pairEdge (GraphLayout.edges pairLayout)
  /\ LayoutEdge.length pairEdge
     = rectangleDistance (LayoutNode.bounds pairPlacedA) (LayoutNode.bounds pairPlacedB).
Proof.
  split; [exact pair_produced|]. split; [now left|].
  exact (proj2 (proj2 (edge_length_is_rectangle_distance pairLayout pairEdge pair_produced
                         (or_introl eq_refl)))).
Defined.

Lemma sqrt2_bounds : 1 < sqrt 2 < 3 / 2.
Proof.
  pose proof (sqrt_sqrt 2 ltac:(lra)) as H. pose proof (sqrt_pos 2) as H0. nra.
Qed.

Lemma halfDiagonal_2_2 o id : halfDiagonal (GraphNode.mk o id 2 2) = sqrt 2.
Proof.
  unfold halfDiagonal. simpl. f_equal. lra.
Qed.

Lemma pairRadius_eq : pairRadius = (2 * sqrt 2) / (2 * PI) + sqrt 2.
Proof.
  unfold pairRadius, circleRadius, nodeA, nodeB. rewrite !halfDiagonal_2_2.
  rewrite Rmax_left by lra. simpl INR. replace (1 + 1) with 2 by lra. reflexivity.
Qed.

Lemma pairRadius_bounds : 1 < pairRadius < 3.
Proof.
  rewrite pairRadius_eq. pose proof sqrt2_bounds as Hs. pose proof PI2_3_2 as Hp.
  assert (H : 0 < (2 * sqrt 2) / (2 * PI) < 1).
  { split.
    - apply Rdiv_lt_0_compat; lra.
    - apply (Rmult_lt_reg_r (2 * PI)); [lra|].
      unfold Rdiv. rewrite Rmult_assoc, Rinv_l by lra. lra. }
  lra.
Qed.

Lemma pairPlacedA_eq : pairPlacedA = LayoutNode.mk nodeA 0 pairRadius.
Proof.
  unfold pairPlacedA. rewrite sin_0, cos_0. f_equal; lra.
Qed.

Lemma pairPlacedB_eq : pairPlacedB = LayoutNode.mk nodeB 0 (- pairRadius).
Proof.
  unfold pairPlacedB. replace (0 + 2 * PI / INR 2) with PI by (simpl INR; lra).
  rewrite sin_PI, cos_PI. f_equal; lra.
Qed.

Lemma rectangleDistance_sym r1 r2 : rectangleDistance r1 r2 = rectangleDistance r2 r1.
Proof.
  unfold rectangleDistance.
  rewrite (Rmax_comm (left r2 - right r1)), (Rmax_comm (top r2 - bottom r1)). reflexivity.
Qed.

Lemma rectangleDistance_nonneg r1 r2 : 0 <= rectangleDistance r1 r2.
Proof. apply sqrt_pos. Qed.

Lemma pair_distance : LayoutNode.distanceTo pairPlacedA pairPlacedB = 2 * pairRadius - 2.
Proof.
  rewrite pairPlacedA_eq, pairPlacedB_eq. pose proof pairRadius_bounds as Hr.
  cbv [LayoutNode.distanceTo rectangleDistance LayoutNode.bounds LayoutNode.left
       LayoutNode.top LayoutNode.right LayoutNode.bottom LayoutNode.x LayoutNode.y
       LayoutNode.node GraphNode.width GraphNode.height nodeA nodeB left top right bottom].
  rewrite (Rmax_left 0) by (apply Rmax_lub; lra).
  rewrite (Rmax_right (- pairRadius - 2 / 2 - (pairRadius + 2 / 2))) by lra.
  rewrite (Rmax_right 0) by lra.
  replace (0 * 0 + (pairRadius - 2 / 2 - (- pairRadius + 2 / 2))
                   * (pairRadius - 2 / 2 - (- pairRadius + 2 / 2)))
    with ((2 * pairRadius - 2) * (2 * pairRadius - 2)) by lra.
  apply sqrt_square. lra.
Qed.

(** C1 as stated fails on the circular layout of two 2 x 2 nodes joined
    by an edge: the centres are [2 * pairRadius] apart, the cached length
    is the gap between the two rectangles, [2 * pairRadius - 2]. *)
Lemma pair_edge_length_not_euclidean :
  produced pairLayout
  /\ In pairEdge (GraphLayout.edges pairLayout)
  /\ LayoutEdge.length pairEdge
     <> Vector2D.magnitude
          (Vector2D.subtract (LayoutNode.position (LayoutEdge.source pairEdge))
                             (LayoutNode.position (LayoutEdge.target pairEdge))).
Proof.
  split; [exact pair_produced|]. split; [now left|].
  change (LayoutEdge.length pairEdge) with (LayoutNode.distanceTo pairPlacedA pairPlacedB).
  rewrite pair_distance.
  change (LayoutEdge.source pairEdge) with pairPlacedA.
  change (LayoutEdge.target pairEdge) with pairPlacedB.
  rewrite pairPlacedA_eq, pairPlacedB_eq. pose proof pairRadius_bounds as Hr.
  cbv [Vector2D.magnitude Vector2D.subtract LayoutNode.position LayoutNode.x LayoutNode.y
       Vector2D.x Vector2D.y].
  replace ((0 - 0) * (0 - 0) + (pairRadius - - pairRadius) * (pairRadius - - pairRadius))
    with ((2 * pairRadius) * (2 * pairRadius)) by lra.
  rewrite sqrt_square by lra. lra.
Qed.

(** ** The empty graph *)

Lemma springyStep_empty g :
  GraphDefinition.edges g = [] ->
  GraphLayout.springyStep (GraphLayout.new g) = Ok (GraphLayout.new g).
Proof.
  intros He. unfold GraphLayout.springyStep, GraphLayout.changePositions,
    GraphLayout.fillEdges. simpl. rewrite He. reflexivity.
Qed.

Lemma springySteps_empty g steps :
  GraphDefinition.edges g = [] ->
  GraphLayout.springySteps steps (GraphLayout.new g) = Ok (GraphLayout.new g).
Proof.
  intros He. induction steps as [|k IH]; simpl; [reflexivity|].
  rewrite (springyStep_empty g He). simpl. exact IH.
Qed.

Lemma doMoveLoop_empty g steps s :
  GraphLayout.doMoveLoop (S steps) (GraphLayout.new g) s = Err TypeError.
Proof. reflexivity. Qed.

(** C2.  On the empty graph [createCircle] answers the empty layout and
    so does [springyAlg] on that layout; [doMoveSteps] on it does not
    return a layout: [tryMoveElement] answers [null] and reading its
    score raises a [TypeError]. *)
Theorem empty_graph_entry_points :
  GraphLayout.createCircle GraphDefinition.empty = Ok (GraphLayout.new GraphDefinition.empty)
  /\ GraphLayout.springyAlg (GraphLayout.new GraphDefinition.empty)
     = Ok (GraphLayout.new GraphDefinition.empty)
  /\ GraphLayout.tryMoveElement (GraphLayout.new GraphDefinition.empty) = Ok None
  /\ GraphLayout.doMoveSteps (GraphLayout.new GraphDefinition.empty) = Err TypeError.
Proof.
  split; [reflexivity|]. split; [|split].
  - apply springySteps_empty. reflexivity.
  - reflexivity.
  - apply doMoveLoop_empty.
Qed.

(** ** The refinement loop *)

Lemma lodashMin_nonempty {A : Type} (f : A -> R) (l : list A) :
  l <> [] -> exists m, lodashMin (map (fun n => Some (f n)) l) = Some m.
Proof.
  destruct l as [|a t]; [congruence|]. intros _. simpl.
  destruct (lodashMin _); eauto.
Qed.

Lemma lodashMax_nonempty {A : Type} (f : A -> R) (l : list A) :
  l <> [] -> exists m, lodashMax (map (fun n => Some (f n)) l) = Some m.
Proof.
  destruct l as [|a t]; [congruence|]. intros _. simpl.
  destruct (lodashMax _); eauto.
Qed.

Lemma score_nonempty l : GraphLayout.nodes l <> [] -> exists s, GraphLayout.score l = Some s.
Proof.
  intros Hne. unfold GraphLayout.score.
  assert (Hv : objValues (GraphLayout.nodes l) <> []).
  { unfold objValues. destruct (GraphLayout.nodes l); [congruence | discriminate]. }
  destruct (lodashMin_nonempty LayoutNode.left _ Hv) as [a ->].
  destruct (lodashMin_nonempty LayoutNode.top _ Hv) as [b ->].
  destruct (lodashMax_nonempty LayoutNode.right _ Hv) as [c ->].
  destruct (lodashMax_nonempty LayoutNode.bottom _ Hv) as [d ->].
  eauto.
Qed.

Lemma doMoveLoop_run steps :
  forall l, sound l -> GraphLayout.nodes l <> [] ->
    exists k r,
      (k <= steps)%nat
      /\ GraphLayout.doMoveLoop steps l (GraphLayout.score l) = Ok r
      /\ accepted k l r
      /\ (k = steps \/ stalls r).
Proof.
  induction steps as [|n IH]; intros l Hs Hne.
  - exists 0%nat, l. split; [lia|]. split; [reflexivity|]. split; [constructor | now left].
  - destruct (tryMoveElement_total l Hs) as (next & E & Hshape & Hsome & _).
    destruct next as [l1|]; [|exfalso; now apply Hsome].
    pose proof (Hshape l1 eq_refl) as Hs1.
    assert (Hne1 : GraphLayout.nodes l1 <> []) by (eapply sameShape_nonempty; eassumption).
    destruct (score_nonempty l Hne) as [s Es].
    destruct (score_nonempty l1 Hne1) as [s1 Es1].
    cbn [GraphLayout.doMoveLoop]. rewrite E. cbn [bind]. rewrite Es, Es1.
    unfold GraphLayout.tooSmall.
    destruct (Rlt_dec (s - s1) MINIMAL_SCORE_BENEFIT) as [Hlt|Hge].
    + exists 0%nat, l. split; [lia|]. split; [reflexivity|]. split; [constructor|].
      right. exists l1, s, s1. auto.
    + destruct Hs1 as (S1 & _ & _).
      destruct (IH l1 S1 Hne1) as (k & r & Hk & Hrun & Hacc & Hend).
      rewrite Es1 in Hrun.
      exists (S k), r. split; [lia|]. split; [assumption|]. split.
      * eapply accepted_S; eauto. lra.
      * destruct Hend as [->|Hend]; [now left | now right].
Qed.

(** C5.  On a produced layout with at least one node [doMoveSteps]
    returns after at most [MOVE_STEP_COUNT] = 1000 steps; each step it
    accepted lowered the score by at least 1, and when it stops early the
    next step would have gained less than 1 and the layout returned is the
    one before that step. *)
Theorem doMoveSteps_terminates (l : GraphLayout.t) :
  produced l -> GraphLayout.nodes l <> [] ->
  exists k r,
    (k <= 1000)%nat
    /\ GraphLayout.doMoveSteps l = Ok r
    /\ accepted k l r
    /\ (k = 1000%nat \/ stalls r).
Proof.
  intros Hp Hne. apply (doMoveLoop_run MOVE_STEP_COUNT l); [now apply produced_sound | assumption].
Qed.

Lemma doMoveSteps_terminates_witness :
  produced pairLayout
  /\ GraphLayout.nodes pairLayout <> []
  /\ exists k r,
       (k <= 1000)%nat
       /\ GraphLayout.doMoveSteps pairLayout = Ok r
       /\ accepted k pairLayout r
       /\ (k = 1000%nat \/ stalls r).
Proof.
  split; [exact pair_produced|]. split; [discriminate|].
  apply (doMoveSteps_terminates pairLayout); [exact pair_produced | discriminate].
Defined.

(** ** Forces *)

Lemma vec_eq (v w : Vector2D.t) :
  Vector2D.x v = Vector2D.x w -> Vector2D.y v = Vector2D.y w -> v = w.
Proof. destruct v, w. simpl. intros -> ->. reflexivity. Qed.

Ltac vec := apply vec_eq; simpl; try lra.

Lemma vadd_zero_l v : Vector2D.add vzero v = v.
Proof. vec. Qed.

Lemma vadd_zero_r v : Vector2D.add v vzero = v.
Proof. vec. Qed.

Lemma vadd_assoc u v w : Vector2D.add (Vector2D.add u v) w = Vector2D.add u (Vector2D.add v w).
Proof. vec. Qed.

Lemma vadd_comm u v : Vector2D.add u v = Vector2D.add v u.
Proof. vec. Qed.

Lemma received_applyForce k node force nodeForces :
  received k (ForceAlgorithmStep.applyForce node force nodeForces)
  = if String.eqb k (LayoutNode.designerId node)
    then Vector2D.add (received k nodeForces) (ForceAlgorithmStep.clamp force)
    else received k nodeForces.
Proof.
  unfold ForceAlgorithmStep.applyForce, received.
  destruct (String.eqb k (LayoutNode.designerId node)) eqn:E.
  - apply String.eqb_eq in E. subst k.
    destruct (objGet (LayoutNode.designerId node) nodeForces) as [acc|];
      rewrite objGet_objSet_same; [reflexivity | now rewrite vadd_zero_l].
  - apply String.eqb_neq in E.
    destruct (objGet (LayoutNode.designerId node) nodeForces) as [acc|];
      rewrite objGet_objSet_other by congruence; reflexivity.
Qed.

Lemma magnitude_nonneg v : 0 <= Vector2D.magnitude v.
Proof. apply sqrt_pos. Qed.

Lemma magnitude_pos v : v <> vzero -> 0 < Vector2D.magnitude v.
Proof.
  intros H. unfold Vector2D.magnitude. apply sqrt_lt_R0.
  destruct v as [a b]. simpl.
  destruct (Req_dec a 0) as [->|Ha]; [destruct (Req_dec b 0) as [->|Hb]|]; [now elim H | nra | nra].
Qed.

Lemma magnitude_sqr v :
  Vector2D.magnitude v * Vector2D.magnitude v
  = Vector2D.x v * Vector2D.x v + Vector2D.y v * Vector2D.y v.
Proof. unfold Vector2D.magnitude. apply sqrt_sqrt. nra. Qed.

Lemma magnitude_multiply v c :
  0 <= c -> Vector2D.magnitude (Vector2D.multiply v c) = c * Vector2D.magnitude v.
Proof.
  intros Hc. unfold Vector2D.magnitude at 1. simpl.
  apply sqrt_lem_1.
  - nra.
  - pose proof (magnitude_nonneg v). nra.
  - pose proof (magnitude_sqr v). nra.
Qed.

Lemma magnitude_normalise v : v <> vzero -> Vector2D.magnitude (Vector2D.normalise v) = 1.
Proof.
  intros H. pose proof (magnitude_pos v H) as Hm. pose proof (magnitude_sqr v) as Hs.
  unfold Vector2D.normalise, Vector2D.divide. unfold Vector2D.magnitude at 1. simpl.
  apply sqrt_lem_1; [|lra|].
  - assert (H1 := Rle_0_sqr (Vector2D.x v / Vector2D.magnitude v)).
    assert (H2 := Rle_0_sqr (Vector2D.y v / Vector2D.magnitude v)).
    unfold Rsqr in *. lra.
  - rewrite Rmult_1_l. symmetry.
    replace (Vector2D.x v / Vector2D.magnitude v * (Vector2D.x v / Vector2D.magnitude v)
             + Vector2D.y v / Vector2D.magnitude v * (Vector2D.y v / Vector2D.magnitude v))
      with ((Vector2D.x v * Vector2D.x v + Vector2D.y v * Vector2D.y v)
            / (Vector2D.magnitude v * Vector2D.magnitude v)) by (field; lra).
    rewrite <- Hs. field. lra.
Qed.

Lemma clamp_small force :
  Vector2D.magnitude force <= MAX_FORCE_SIZE -> ForceAlgorithmStep.clamp force = force.
Proof.
  intros H. unfold ForceAlgorithmStep.clamp.
  destruct (Rgt_dec _ _) as [Hgt|_]; [lra | reflexivity].
Qed.

Lemma clamp_bounded force : Vector2D.magnitude (ForceAlgorithmStep.clamp force) <= MAX_FORCE_SIZE.
Proof.
  unfold ForceAlgorithmStep.clamp.
  destruct (Rgt_dec _ _) as [Hgt|Hle]; [|lra].
  unfold MAX_FORCE_SIZE in *.
  rewrite magnitude_multiply by lra. rewrite magnitude_normalise; [lra|].
  intros ->. unfold Vector2D.magnitude in Hgt. simpl in Hgt.
  replace (0 * 0 + 0 * 0) with 0 in Hgt by lra. rewrite sqrt_0 in Hgt. lra.
Qed.

Lemma clamp_direction force :
  exists c, 0 < c /\ ForceAlgorithmStep.clamp force = Vector2D.multiply force c.
Proof.
  unfold ForceAlgorithmStep.clamp.
  destruct (Rgt_dec _ _) as [Hgt|Hle].
  - unfold MAX_FORCE_SIZE in *. exists (100 / Vector2D.magnitude force). split.
    + apply Rdiv_lt_0_compat; lra.
    + apply vec_eq; simpl; field; lra.
  - exists 1. split; [lra | vec].
Qed.

(** *** Repulsion *)

Lemma coulombVisit_eq n1 n2 nodeForces :
  ForceAlgorithmStep.coulombVisit n1 nodeForces n2
  = if String.eqb (LayoutNode.designerId n1) (LayoutNode.designerId n2) then nodeForces
    else ForceAlgorithmStep.applyForce n2 (backForce n1 n2)
           (ForceAlgorithmStep.applyForce n1 (coulombForce n1 n2) nodeForces).
Proof. reflexivity. Qed.

Lemma distanceTo_sym a b : LayoutNode.distanceTo a b = LayoutNode.distanceTo b a.
Proof. apply rectangleDistance_sym. Qed.

Lemma repulsion_sym a b : ForceAlgorithmStep.repulsion a b = ForceAlgorithmStep.repulsion b a.
Proof. unfold ForceAlgorithmStep.repulsion. now rewrite (distanceTo_sym a b). Qed.

Lemma repulsion_bounds a b :
  0 < ForceAlgorithmStep.repulsion a b <= MAX_FORCE_SIZE.
Proof.
  unfold ForceAlgorithmStep.repulsion, MIN_NODE_DISTANCE, REPULSION, MAX_FORCE_SIZE.
  pose proof (rectangleDistance_nonneg (LayoutNode.bounds a) (LayoutNode.bounds b)) as Hd.
  fold (LayoutNode.distanceTo a b) in Hd.
  set (d := LayoutNode.distanceTo a b + 50). cbv zeta.
  assert (Hdd : 2500 <= d * d) by (subst d; nra).
  split.
  - apply Rdiv_lt_0_compat; lra.
  - apply (Rmult_le_reg_r (d * d)); [lra|].
    unfold Rdiv. rewrite Rmult_assoc, Rinv_l by lra. lra.
Qed.

Lemma subtract_nonzero p q : p <> q -> Vector2D.subtract p q <> vzero.
Proof.
  intros H E. apply H. unfold Vector2D.subtract, vzero in E.
  injection E as E1 E2. vec.
Qed.

Lemma magnitude_subtract_sym p q :
  Vector2D.magnitude (Vector2D.subtract p q) = Vector2D.magnitude (Vector2D.subtract q p).
Proof.
  unfold Vector2D.magnitude, Vector2D.subtract. simpl. f_equal. lra.
Qed.

Lemma backForce_eq n1 n2 : backForce n1 n2 = coulombForce n2 n1.
Proof.
  unfold backForce, coulombForce, ForceAlgorithmStep.repulsion. cbv zeta.
  rewrite (distanceTo_sym n2 n1).
  unfold Vector2D.normalise, Vector2D.divide.
  rewrite (magnitude_subtract_sym (LayoutNode.position n2) (LayoutNode.position n1)).
  apply vec_eq; simpl; unfold Rdiv; ring.
Qed.

Lemma coulombForce_magnitude a b :
  LayoutNode.position a <> LayoutNode.position b ->
  Vector2D.magnitude (coulombForce a b) = ForceAlgorithmStep.repulsion a b.
Proof.
  intros H. unfold coulombForce. pose proof (repulsion_bounds a b).
  rewrite magnitude_multiply by lra.
  rewrite magnitude_normalise by now apply subtract_nonzero. lra.
Qed.

Lemma coulombForce_clamp a b :
  LayoutNode.position a <> LayoutNode.position b ->
  ForceAlgorithmStep.clamp (coulombForce a b) = coulombForce a b.
Proof.
  intros H. apply clamp_small. rewrite coulombForce_magnitude by assumption.
  apply repulsion_bounds.
Qed.

Lemma coulombForce_away a b :
  LayoutNode.position a <> LayoutNode.position b ->
  exists c, 0 < c /\
    coulombForce a b
    = Vector2D.multiply (Vector2D.subtract (LayoutNode.position a) (LayoutNode.position b)) c.
Proof.
  intros H.
  pose proof (magnitude_pos _ (subtract_nonzero _ _ H)) as Hm.
  pose proof (repulsion_bounds a b) as Hr.
  exists (ForceAlgorithmStep.repulsion a b
          / Vector2D.magnitude
              (Vector2D.subtract (LayoutNode.position a) (LayoutNode.position b))).
  split; [apply Rdiv_lt_0_compat; lra|].
  unfold coulombForce, Vector2D.normalise, Vector2D.divide.
  apply vec_eq; simpl; field; lra.
Qed.

Lemma received_coulombVisit k n1 n2 nodeForces :
  received k (ForceAlgorithmStep.coulombVisit n1 nodeForces n2)
  = Vector2D.add (received k nodeForces) (coulombOn k n1 n2).
Proof.
  rewrite coulombVisit_eq. unfold coulombOn.
  destruct (String.eqb (LayoutNode.designerId n1) (LayoutNode.designerId n2)).
  - now rewrite vadd_zero_r.
  - rewrite !received_applyForce.
    destruct (String.eqb k (LayoutNode.designerId n1)),
             (String.eqb k (LayoutNode.designerId n2)); vec.
Qed.

Lemma received_coulombRow k n1 l :
  forall nodeForces,
    received k (fold_left (ForceAlgorithmStep.coulombVisit n1) l nodeForces)
    = Vector2D.add (received k nodeForces) (vsum (map (coulombOn k n1) l)).
Proof.
  induction l as [|n2 t IH]; simpl; intros nodeForces.
  - now rewrite vadd_zero_r.
  - rewrite IH, received_coulombVisit. apply vadd_assoc.
Qed.

Lemma received_coulombRows k vs l :
  forall nodeForces,
    received k
      (fold_left (fun nodeForces n1 => fold_left (ForceAlgorithmStep.coulombVisit n1) vs nodeForces)
                 l nodeForces)
    = Vector2D.add (received k nodeForces)
                   (vsum (map (fun n1 => vsum (map (coulombOn k n1) vs)) l)).
Proof.
  induction l as [|n1 t IH]; simpl; intros nodeForces.
  - now rewrite vadd_zero_r.
  - rewrite IH, received_coulombRow. apply vadd_assoc.
Qed.

Lemma NoDup_map_eq {A B : Type} (f : A -> B) (l : list A) (a b : A) :
  NoDup (map f l) -> In a l -> In b l -> f a = f b -> a = b.
Proof.
  induction l as [|x t IH]; simpl; intros Hnd Ha Hb E; [destruct Ha|].
  inversion Hnd as [|? ? Hx Hnd']; subst.
  destruct Ha as [->|Ha], Hb as [->|Hb]; auto.
  - exfalso. apply Hx. rewrite E. now apply in_map.
  - exfalso. apply Hx. rewrite <- E. now apply in_map.
Qed.

Lemma vsum_map_add {A : Type} (f g : A -> Vector2D.t) (l : list A) :
  vsum (map (fun b => Vector2D.add (f b) (g b)) l)
  = Vector2D.add (vsum (map f l)) (vsum (map g l)).
Proof.
  induction l as [|b t IH]; simpl.
  - now rewrite vadd_zero_l.
  - rewrite IH. vec.
Qed.

Lemma vsum_map_zero {A : Type} (f : A -> Vector2D.t) (l : list A) :
  (forall b, In b l -> f b = vzero) -> vsum (map f l) = vzero.
Proof.
  induction l as [|b t IH]; simpl; intros H; [reflexivity|].
  rewrite H by now left. rewrite IH by auto. vec.
Qed.

Lemma vsum_indicator (vs : list LayoutNode.t) (a : LayoutNode.t) (c : Vector2D.t) :
  NoDup (map LayoutNode.designerId vs) -> In a vs ->
  vsum (map (fun n => if String.eqb (LayoutNode.designerId n) (LayoutNode.designerId a)
                      then c else vzero) vs) = c.
Proof.
  induction vs as [|n t IH]; simpl; intros Hnd Ha; [destruct Ha|].
  inversion Hnd as [|? ? Hn Hnd']; subst.
  destruct Ha as [->|Ha].
  - rewrite String.eqb_refl. rewrite vsum_map_zero; [apply vadd_zero_r|].
    intros b Hb. destruct (String.eqb _ _) eqn:E; [|reflexivity].
    apply String.eqb_eq in E. exfalso. apply Hn. rewrite <- E. now apply in_map.
  - destruct (String.eqb _ _) eqn:E.
    + apply String.eqb_eq in E. exfalso. apply Hn. rewrite E. now apply in_map.
    + rewrite IH by assumption. apply vadd_zero_l.
Qed.

Section Coulomb.
Variable layoutNodes : list (string * LayoutNode.t).
Variable a : LayoutNode.t.
Let vs : list LayoutNode.t := objValues layoutNodes.
Hypothesis ids_distinct : NoDup (map LayoutNode.designerId vs).
Hypothesis a_placed : In a vs.
Hypothesis centres_distinct :
  forall b, In b vs -> LayoutNode.designerId b <> LayoutNode.designerId a ->
            LayoutNode.position b <> LayoutNode.position a.

Let single (b : LayoutNode.t) : Vector2D.t :=
  if String.eqb (LayoutNode.designerId b) (LayoutNode.designerId a) then vzero
  else coulombForce a b.

Lemma coulombOn_own_row n2 :
  In n2 vs -> coulombOn (LayoutNode.designerId a) a n2 = single n2.
Proof.
  intros H2. unfold coulombOn, single.
  rewrite (String.eqb_sym (LayoutNode.designerId n2)).
  destruct (String.eqb (LayoutNode.designerId a) (LayoutNode.designerId n2)) eqn:E;
    [reflexivity|].
  apply String.eqb_neq in E. rewrite String.eqb_refl.
  rewrite coulombForce_clamp; [apply vadd_zero_r|].
  intros Hp. apply (centres_distinct n2 H2); congruence.
Qed.

Lemma coulombOn_other_row n1 n2 :
  In n1 vs -> LayoutNode.designerId n1 <> LayoutNode.designerId a -> In n2 vs ->
  coulombOn (LayoutNode.designerId a) n1 n2
  = if String.eqb (LayoutNode.designerId n2) (LayoutNode.designerId a)
    then coulombForce a n1 else vzero.
Proof.
  intros H1 Hne H2. unfold coulombOn.
  assert (E1 : String.eqb (LayoutNode.designerId a) (LayoutNode.designerId n1) = false)
    by (apply String.eqb_neq; congruence).
  rewrite E1, (String.eqb_sym (LayoutNode.designerId n2)).
  destruct (String.eqb (LayoutNode.designerId a) (LayoutNode.designerId n2)) eqn:E2.
  - apply String.eqb_eq in E2.
    assert (n2 = a) by (eapply NoDup_map_eq; eauto). subst n2.
    assert (E : String.eqb (LayoutNode.designerId n1) (LayoutNode.designerId a) = false)
      by (apply String.eqb_neq; congruence).
    rewrite E, backForce_eq, coulombForce_clamp; [apply vadd_zero_l|].
    intros Hp. apply (centres_distinct n1 H1 Hne). congruence.
  - destruct (String.eqb (LayoutNode.designerId n1) (LayoutNode.designerId n2));
      [reflexivity | apply vadd_zero_l].
Qed.

Lemma received_applyCoulombsLaw nodeForces :
  received (LayoutNode.designerId a)
           (ForceAlgorithmStep.applyCoulombsLaw layoutNodes nodeForces)
  = Vector2D.add (received (LayoutNode.designerId a) nodeForces) (vsum (map (twice a) vs)).
Proof.
  unfold ForceAlgorithmStep.applyCoulombsLaw. fold vs.
  rewrite received_coulombRows. f_equal.
  set (S := vsum (map single vs)).
  rewrite (map_ext_in _
             (fun n1 => Vector2D.add
                          (if String.eqb (LayoutNode.designerId n1) (LayoutNode.designerId a)
                           then S else vzero)
                          (single n1))).
  - rewrite vsum_map_add, vsum_indicator by assumption.
    rewrite (map_ext (twice a) (fun b => Vector2D.add (single b) (single b))).
    + now rewrite vsum_map_add.
    + intros b. unfold twice, single.
      destruct (String.eqb _ _); [now rewrite vadd_zero_l | reflexivity].
  - intros n1 H1.
    destruct (String.eqb (LayoutNode.designerId n1) (LayoutNode.designerId a)) eqn:E.
    + apply String.eqb_eq in E.
      assert (n1 = a) by (eapply NoDup_map_eq; eauto). subst n1.
      rewrite (map_ext_in _ single) by (intros n2 H2; now apply coulombOn_own_row).
      unfold single at 2. rewrite String.eqb_refl. now rewrite vadd_zero_r.
    + apply String.eqb_neq in E.
      rewrite (map_ext_in _ (fun n2 =>
                 if String.eqb (LayoutNode.designerId n2) (LayoutNode.designerId a)
                 then coulombForce a n1 else vzero))
        by (intros n2 H2; now apply coulombOn_other_row).
      rewrite vsum_indicator by assumption.
      unfold single. apply String.eqb_neq in E. rewrite E. now rewrite vadd_zero_l.
Qed.

End Coulomb.

Lemma coulombVisit_pair a b nodeForces :
  LayoutNode.designerId a <> LayoutNode.designerId b ->
  LayoutNode.position a <> LayoutNode.position b ->
  received (LayoutNode.designerId a) (ForceAlgorithmStep.coulombVisit a nodeForces b)
  = Vector2D.add (received (LayoutNode.designerId a) nodeForces) (coulombForce a b)
  /\ received (LayoutNode.designerId a) (ForceAlgorithmStep.coulombVisit b nodeForces a)
     = Vector2D.add (received (LayoutNode.designerId a) nodeForces) (coulombForce a b).
Proof.
  intros Hne Hp.
  assert (Eab : String.eqb (LayoutNode.designerId a) (LayoutNode.designerId b) = false)
    by now apply String.eqb_neq.
  assert (Eba : String.eqb (LayoutNode.designerId b) (LayoutNode.designerId a) = false)
    by (apply String.eqb_neq; congruence).
  rewrite !received_coulombVisit. unfold coulombOn.
  rewrite Eab, Eba, String.eqb_refl, backForce_eq, coulombForce_clamp by assumption.
  now rewrite vadd_zero_l, vadd_zero_r.
Qed.

(** C3, amended.  Take two placed nodes [a], [b] with different designer
    ids whose centres differ.  The visit of [(a, b)] and the visit of
    [(b, a)] each add to the accumulator of [a] the same force: of size
    0.5 * 500000 / (d + 50)², [d] the rectangle distance of the two, and
    directed from [b] to [a]; a visit of a pair without [a] adds nothing
    to it.  So a pass of [applyCoulombsLaw] over placed nodes with
    distinct ids adds to a node whose centre differs from all other
    centres, for every other node, that force twice. *)
Theorem repulsion_applied_twice :
  (forall a b,
     LayoutNode.designerId a <> LayoutNode.designerId b ->
     LayoutNode.position a <> LayoutNode.position b ->
     (forall nodeForces,
        received (LayoutNode.designerId a) (ForceAlgorithmStep.coulombVisit a nodeForces b)
        = Vector2D.add (received (LayoutNode.designerId a) nodeForces) (coulombForce a b))
     /\ (forall nodeForces,
           received (LayoutNode.designerId a) (ForceAlgorithmStep.coulombVisit b nodeForces a)
           = Vector2D.add (received (LayoutNode.designerId a) nodeForces) (coulombForce a b))
     /\ Vector2D.magnitude (coulombForce a b)
        = (1 / 2 * 500000)
          / ((rectangleDistance (LayoutNode.bounds a) (LayoutNode.bounds b) + 50)
             * (rectangleDistance (LayoutNode.bounds a) (LayoutNode.bounds b) + 50))
     /\ (exists c, 0 < c /\
           coulombForce a b
           = Vector2D.multiply
               (Vector2D.subtract (LayoutNode.position a) (LayoutNode.position b)) c))
  /\ (forall a n1 n2 nodeForces,
        LayoutNode.designerId n1 <> LayoutNode.designerId a ->
        LayoutNode.designerId n2 <> LayoutNode.designerId a ->
        received (LayoutNode.designerId a) (ForceAlgorithmStep.coulombVisit n1 nodeForces n2)
        = received (LayoutNode.designerId a) nodeForces)
  /\ (forall layoutNodes a,
        NoDup (map LayoutNode.designerId (objValues layoutNodes)) ->
        In a (objValues layoutNodes) ->
        (forall b, In b (objValues layoutNodes) ->
                   LayoutNode.designerId b <> LayoutNode.designerId a ->
                   LayoutNode.position b <> LayoutNode.position a) ->
        forall nodeForces,
          received (LayoutNode.designerId a)
                   (ForceAlgorithmStep.applyCoulombsLaw layoutNodes nodeForces)
          = Vector2D.add (received (LayoutNode.designerId a) nodeForces)
                         (vsum (map (twice a) (objValues layoutNodes)))).
Proof.
  split; [|split].
  - intros a b Hne Hp. split; [|split; [|split]].
    + intros nodeForces. apply (coulombVisit_pair a b nodeForces Hne Hp).
    + intros nodeForces. apply (coulombVisit_pair a b nodeForces Hne Hp).
    + now apply coulombForce_magnitude.
    + now apply coulombForce_away.
  - intros a n1 n2 nodeForces H1 H2. rewrite received_coulombVisit. unfold coulombOn.
    assert (E1 : String.eqb (LayoutNode.designerId a) (LayoutNode.designerId n1) = false)
      by (apply String.eqb_neq; congruence).
    assert (E2 : String.eqb (LayoutNode.designerId a) (LayoutNode.designerId n2) = false)
      by (apply String.eqb_neq; congruence).
    rewrite E1, E2.
    destruct (String.eqb (LayoutNode.designerId n1) (LayoutNode.designerId n2)); vec.
  - intros layoutNodes a Hnd Ha Hc nodeForces. now apply received_applyCoulombsLaw.
Qed.

Lemma pair_centres_distinct :
  LayoutNode.position pairPlacedB <> LayoutNode.position pairPlacedA.
Proof.
  rewrite pairPlacedA_eq, pairPlacedB_eq. pose proof pairRadius_bounds.
  unfold LayoutNode.position. simpl. intros [= E]. lra.
Qed.

Lemma pair_ids_distinct :
  NoDup (map LayoutNode.designerId (objValues (GraphLayout.nodes pairLayout))).
Proof.
  simpl. constructor; [simpl; intros [H|[]]; discriminate|].
  constructor; [simpl; tauto | constructor].
Qed.

Lemma pair_others_apart b :
  In b (objValues (GraphLayout.nodes pairLayout)) ->
  LayoutNode.designerId b <> LayoutNode.designerId pairPlacedA ->
  LayoutNode.position b <> LayoutNode.position pairPlacedA.
Proof.
  intros [<-|[<-|[]]] Hne; [now elim Hne | exact pair_centres_distinct].
Qed.

Lemma repulsion_applied_twice_witness :
  LayoutNode.designerId pairPlacedA <> LayoutNode.designerId pairPlacedB
  /\ LayoutNode.position pairPlacedA <> LayoutNode.position pairPlacedB
  /\ NoDup (map LayoutNode.designerId (objValues (GraphLayout.nodes pairLayout)))
  /\ In pairPlacedA (objValues (GraphLayout.nodes pairLayout))
  /\ received "a" (ForceAlgorithmStep.coulombVisit pairPlacedA [] pairPlacedB)
     = Vector2D.add vzero (coulombForce pairPlacedA pairPlacedB)
  /\ received "a" (ForceAlgorithmStep.applyCoulombsLaw (GraphLayout.nodes pairLayout) [])
     = Vector2D.add vzero
         (vsum [vzero; Vector2D.add (coulombForce pairPlacedA pairPlacedB)
                                    (coulombForce pairPlacedA pairPlacedB)]).
Proof.
  assert (Hne : LayoutNode.designerId pairPlacedA <> LayoutNode.designerId pairPlacedB)
    by discriminate.
  assert (Hp : LayoutNode.position pairPlacedA <> LayoutNode.position pairPlacedB)
    by (intros E; apply pair_centres_distinct; now symmetry).
  split; [exact Hne|]. split; [exact Hp|]. split; [exact pair_ids_distinct|].
  split; [now left|]. split.
  - exact (proj1 (proj1 repulsion_applied_twice pairPlacedA pairPlacedB Hne Hp) []).
  - exact (proj2 (proj2 repulsion_applied_twice) (GraphLayout.nodes pairLayout) pairPlacedA
             pair_ids_distinct (or_introl eq_refl) pair_others_apart []).
Defined.

(** *** One relaxation step of the two joined nodes *)

Lemma magnitude_vertical y : Vector2D.magnitude (Vector2D.mk 0 y) = Rabs y.
Proof.
  unfold Vector2D.magnitude. simpl.
  replace (0 * 0 + y * y) with (Rsqr y) by (unfold Rsqr; lra).
  apply sqrt_Rsqr_abs.
Qed.

Lemma normalise_up c : 0 < c -> Vector2D.normalise (Vector2D.mk 0 c) = Vector2D.mk 0 1.
Proof.
  intros Hc. unfold Vector2D.normalise, Vector2D.divide.
  rewrite magnitude_vertical, Rabs_pos_eq by lra. apply vec_eq; simpl; field; lra.
Qed.

Lemma normalise_down c : 0 < c -> Vector2D.normalise (Vector2D.mk 0 (- c)) = Vector2D.mk 0 (- 1).
Proof.
  intros Hc. unfold Vector2D.normalise, Vector2D.divide.
  rewrite magnitude_vertical, Rabs_Ropp, Rabs_pos_eq by lra. apply vec_eq; simpl; field; lra.
Qed.

Lemma pairRepulsion_bound : 85 < pairRepulsion.
Proof.
  unfold pairRepulsion, ForceAlgorithmStep.repulsion. rewrite pair_distance.
  cbv zeta. unfold MIN_NODE_DISTANCE, REPULSION. pose proof pairRadius_bounds as Hr.
  set (d := 2 * pairRadius - 2 + 50).
  assert (Hd : 0 < d * d < 2916) by (subst d; nra).
  apply (Rmult_lt_reg_r (d * d)); [lra|].
  unfold Rdiv. rewrite Rmult_assoc, Rinv_l by lra. lra.
Qed.

Lemma pair_position_A : LayoutNode.position pairPlacedA = Vector2D.mk 0 pairRadius.
Proof. now rewrite pairPlacedA_eq. Qed.

Lemma pair_position_B : LayoutNode.position pairPlacedB = Vector2D.mk 0 (- pairRadius).
Proof. now rewrite pairPlacedB_eq. Qed.

Lemma clamp_vertical y : Rabs y <= 100 -> ForceAlgorithmStep.clamp (Vector2D.mk 0 y) = Vector2D.mk 0 y.
Proof.
  intros H. apply clamp_small. rewrite magnitude_vertical. exact H.
Qed.

Lemma pair_coulombForce : coulombForce pairPlacedA pairPlacedB = Vector2D.mk 0 pairRepulsion.
Proof.
  pose proof pairRadius_bounds as Hr.
  unfold coulombForce. fold pairRepulsion. rewrite pair_position_A, pair_position_B.
  replace (Vector2D.subtract (Vector2D.mk 0 pairRadius) (Vector2D.mk 0 (- pairRadius)))
    with (Vector2D.mk 0 (2 * pairRadius)) by vec.
  rewrite normalise_up by lra. vec.
Qed.

Lemma pair_hookeForce :
  Vector2D.multiply
    (Vector2D.normalise
       (Vector2D.subtract (LayoutNode.position pairPlacedB) (LayoutNode.position pairPlacedA)))
    ((SPRING_LENGTH - LayoutNode.distanceTo pairPlacedA pairPlacedB) * - (1 / 2))
  = Vector2D.mk 0 (51 - pairRadius).
Proof.
  pose proof pairRadius_bounds as Hr.
  rewrite pair_distance, pair_position_A, pair_position_B.
  replace (Vector2D.subtract (Vector2D.mk 0 (- pairRadius)) (Vector2D.mk 0 pairRadius))
    with (Vector2D.mk 0 (- (2 * pairRadius))) by vec.
  rewrite normalise_down by lra. unfold SPRING_LENGTH. vec.
Qed.

Lemma pair_gravityForce :
  Vector2D.multiply (Vector2D.multiply (LayoutNode.position pairPlacedA) (-1)) GRAVITY
  = Vector2D.mk 0 (- (pairRadius / 100)).
Proof.
  rewrite pair_position_A. unfold GRAVITY. vec.
Qed.

Lemma pair_received :
  received "a" (GraphLayout.stepForces pairLayout)
  = Vector2D.mk 0 (51 - pairRadius + (pairRepulsion + pairRepulsion) - pairRadius / 100).
Proof.
  pose proof pairRadius_bounds as Hr.
  pose proof (received_applyCoulombsLaw (GraphLayout.nodes pairLayout) pairPlacedA
                pair_ids_distinct (or_introl eq_refl) pair_others_apart) as Hc.
  change (LayoutNode.designerId pairPlacedA) with "a"%string in Hc.
  cbn [GraphLayout.nodes pairLayout] in Hc.
  unfold GraphLayout.stepForces, ForceAlgorithmStep.applyGravity,
    ForceAlgorithmStep.applyHooksLaw.
  cbn [GraphLayout.nodes GraphLayout.edges pairLayout objValues map snd fold_left].
  unfold ForceAlgorithmStep.gravityVisit, ForceAlgorithmStep.hookeVisit.
  rewrite !received_applyForce, Hc, !received_applyForce.
  change (LayoutEdge.target pairEdge) with pairPlacedB.
  change (LayoutEdge.source pairEdge) with pairPlacedA.
  change (LayoutEdge.length pairEdge) with (LayoutNode.distanceTo pairPlacedA pairPlacedB).
  change (LayoutNode.designerId pairPlacedB) with "b"%string.
  change (LayoutNode.designerId pairPlacedA) with "a"%string.
  cbn [String.eqb Ascii.eqb Bool.eqb GraphLayout.nodes pairLayout objValues map snd vsum
       fold_right].
  unfold twice.
  change (LayoutNode.designerId pairPlacedB) with "b"%string.
  change (LayoutNode.designerId pairPlacedA) with "a"%string.
  cbn [String.eqb Ascii.eqb Bool.eqb].
  rewrite pair_coulombForce, pair_hookeForce, pair_gravityForce.
  rewrite !clamp_vertical by (rewrite ?Rabs_Ropp, Rabs_pos_eq; lra).
  unfold received. simpl objGet. vec.
Qed.

Lemma pair_received_large :
  100 < Vector2D.magnitude (received "a" (GraphLayout.stepForces pairLayout)).
Proof.
  rewrite pair_received, magnitude_vertical.
  pose proof pairRadius_bounds. pose proof pairRepulsion_bound.
  rewrite Rabs_pos_eq; lra.
Qed.

Lemma pair_springyStep :
  exists l' n',
    GraphLayout.springyStep pairLayout = Ok l'
    /\ objGet "a" (GraphLayout.nodes l') = Some n'
    /\ Vector2D.subtract (LayoutNode.position n') (LayoutNode.position pairPlacedA)
       = received "a" (GraphLayout.stepForces pairLayout).
Proof.
  destruct (changePositions_sound
              (ForceAlgorithmStep.moveNode (GraphLayout.stepForces pairLayout)) pairLayout
              (produced_sound _ pair_produced)
              (moveNode_id (GraphLayout.stepForces pairLayout)))
    as (l' & E & _ & _ & Hn).
  exists l', (ForceAlgorithmStep.moveNode (GraphLayout.stepForces pairLayout) pairPlacedA).
  split; [exact E|]. split.
  - rewrite Hn, objGet_objMapValues. reflexivity.
  - pose proof pair_received_large as Hl.
    unfold ForceAlgorithmStep.moveNode, received in *.
    change (LayoutNode.designerId pairPlacedA) with "a"%string.
    destruct (objGet "a" (GraphLayout.stepForces pairLayout)) as [force|].
    + unfold LayoutNode.translate, LayoutNode.position. vec.
    + exfalso. unfold vzero, Vector2D.magnitude in Hl. simpl in Hl.
      replace (0 * 0 + 0 * 0) with 0 in Hl by lra. rewrite sqrt_0 in Hl. lra.
Qed.

(** *** The whole passes *)

Lemma applyForce_keys node force nodeForces k :
  In k (objKeys (ForceAlgorithmStep.applyForce node force nodeForces))
  <-> k = LayoutNode.designerId node \/ In k (objKeys nodeForces).
Proof.
  unfold ForceAlgorithmStep.applyForce.
  destruct (objGet (LayoutNode.designerId node) nodeForces); apply objKeys_objSet.
Qed.

Lemma applyGravity_keys vs :
  forall nodeForces k,
    In k (objKeys (fold_left ForceAlgorithmStep.gravityVisit vs nodeForces))
    <-> In k (map LayoutNode.designerId vs) \/ In k (objKeys nodeForces).
Proof.
  induction vs as [|n t IH]; simpl; intros F k; [tauto|].
  rewrite IH. unfold ForceAlgorithmStep.gravityVisit. rewrite applyForce_keys.
  split; [intros [H|[H|H]] | intros [[H|H]|H]]; auto.
Qed.

Lemma received_applyGravity k vs :
  forall nodeForces,
    received k (fold_left ForceAlgorithmStep.gravityVisit vs nodeForces)
    = Vector2D.add (received k nodeForces)
        (vsum (map (fun n => if String.eqb (LayoutNode.designerId n) k
                             then gravityForce n else vzero) vs)).
Proof.
  induction vs as [|n t IH]; simpl; intros F; [now rewrite vadd_zero_r|].
  rewrite IH. unfold ForceAlgorithmStep.gravityVisit. rewrite received_applyForce.
  rewrite (String.eqb_sym (LayoutNode.designerId n) k).
  destruct (String.eqb k (LayoutNode.designerId n)).
  - unfold gravityForce. now rewrite vadd_assoc.
  - now rewrite vadd_zero_l.
Qed.


Lemma sound_objGet l k n :
  sound l -> objGet k (GraphLayout.nodes l) = Some n ->
  LayoutNode.designerId n = k /\ In n (objValues (GraphLayout.nodes l)).
Proof.
  intros Hs E. apply objGet_In in E. split; [exact (sound_ids l Hs k n E)|].
  unfold objValues. apply in_map_iff. now exists (k, n).
Qed.

Lemma received_hookeVisit k nodeForces edge :
  received k (ForceAlgorithmStep.hookeVisit nodeForces edge)
  = Vector2D.add (received k nodeForces) (springOn k edge).
Proof.
  unfold ForceAlgorithmStep.hookeVisit, springOn. cbv zeta. rewrite !received_applyForce.
  destruct (String.eqb k (LayoutNode.designerId (LayoutEdge.source edge))),
    (String.eqb k (LayoutNode.designerId (LayoutEdge.target edge)));
    rewrite ?vadd_assoc, ?vadd_zero_l, ?vadd_zero_r; reflexivity.
Qed.

Lemma received_applyHooksLaw k layoutEdges :
  forall nodeForces,
    received k (ForceAlgorithmStep.applyHooksLaw layoutEdges nodeForces)
    = Vector2D.add (received k nodeForces) (vsum (map (springOn k) layoutEdges)).
Proof.
  unfold ForceAlgorithmStep.applyHooksLaw.
  induction layoutEdges as [|e t IH]; simpl; intros F; [now rewrite vadd_zero_r|].
  now rewrite IH, received_hookeVisit, vadd_assoc.
Qed.

Lemma received_gravityOn k vs :
  forall nodeForces,
    received k (fold_left ForceAlgorithmStep.gravityVisit vs nodeForces)
    = Vector2D.add (received k nodeForces) (vsum (map (gravityOn k) vs)).
Proof. exact (received_applyGravity k vs). Qed.

Lemma received_stepForces k l :
  received k (GraphLayout.stepForces l)
  = Vector2D.add
      (Vector2D.add
         (vsum (map (springOn k) (GraphLayout.edges l)))
         (vsum (map (fun n1 => vsum (map (coulombOn k n1) (objValues (GraphLayout.nodes l))))
                    (objValues (GraphLayout.nodes l)))))
      (vsum (map (gravityOn k) (objValues (GraphLayout.nodes l)))).
Proof.
  unfold GraphLayout.stepForces, ForceAlgorithmStep.applyGravity,
    ForceAlgorithmStep.applyCoulombsLaw.
  rewrite received_gravityOn, received_coulombRows, received_applyHooksLaw.
  unfold received at 1. simpl objGet. now rewrite vadd_zero_l.
Qed.

(** *** Calls that may raise *)

Lemma foldM_returns {A S : Type} (f : S -> A -> result S) (g : S -> A -> S) (l : list A) :
  (forall s a s', f s a = Ok s' -> s' = g s a) ->
  forall s s', foldM f l s = Ok s' -> s' = fold_left g l s.
Proof.
  intros Hf. induction l as [|a t IH]; simpl; intros s s' H.
  - now injection H as <-.
  - destruct (f s a) as [s1|e] eqn:E; [|discriminate]. cbn [bind] in H.
    rewrite <- (Hf s a s1 E). now apply IH.
Qed.

Lemma foldM_keeps {A S : Type} (f : S -> A -> result S) (I : S -> Prop) (l : list A) :
  (forall s a s', I s -> f s a = Ok s' -> I s') ->
  forall s s', I s -> foldM f l s = Ok s' -> I s'.
Proof.
  intros Hf. induction l as [|a t IH]; simpl; intros s s' Hs H.
  - now injection H as <-.
  - destruct (f s a) as [s1|e] eqn:E; [|discriminate]. cbn [bind] in H.
    apply (IH s1 s'); [now apply (Hf s a) | exact H].
Qed.


Lemma foldM_total {A S : Type} (f : S -> A -> result S) (g : S -> A -> S) (l : list A) :
  (forall s a, In a l -> f s a = Ok (g s a)) ->
  forall s, foldM f l s = Ok (fold_left g l s).
Proof.
  induction l as [|a t IH]; simpl; intros Hf s; [reflexivity|].
  rewrite (Hf s a) by now left. cbn [bind]. apply IH. intros s' a' Ha'. apply Hf. now right.
Qed.

Lemma call_applyForce_returns node force nodeForces nodeForces' :
  ForceAlgorithmStep.Call.applyForce node force nodeForces = Ok nodeForces' ->
  nodeForces' = ForceAlgorithmStep.applyForce node force nodeForces.
Proof.
  unfold ForceAlgorithmStep.Call.applyForce.
  destruct (objGet _ nodeForces); [|destruct (inherited _)]; congruence.
Qed.

Lemma call_applyForce_keeps node force nodeForces nodeForces' :
  ordinary (objKeys nodeForces) ->
  ForceAlgorithmStep.Call.applyForce node force nodeForces = Ok nodeForces' ->
  ordinary (objKeys nodeForces').
Proof.
  intros Ho H. pose proof (call_applyForce_returns _ _ _ _ H) as E. subst nodeForces'.
  intros k Hk. apply applyForce_keys in Hk. destruct Hk as [->|Hk]; [|now apply Ho].
  unfold ForceAlgorithmStep.Call.applyForce in H.
  destruct (objGet (LayoutNode.designerId node) nodeForces) as [acc|] eqn:E.
  - apply Ho. eapply objGet_Some_key; exact E.
  - destruct (inherited (LayoutNode.designerId node)); [discriminate | reflexivity].
Qed.


Lemma call_applyForce_total node force nodeForces :
  inherited (LayoutNode.designerId node) = false ->
  ForceAlgorithmStep.Call.applyForce node force nodeForces
  = Ok (ForceAlgorithmStep.applyForce node force nodeForces).
Proof.
  intros H. unfold ForceAlgorithmStep.Call.applyForce. rewrite H.
  now destruct (objGet _ nodeForces).
Qed.

Lemma call_coulombVisit_returns n1 nodeForces n2 nodeForces' :
  ForceAlgorithmStep.Call.coulombVisit n1 nodeForces n2 = Ok nodeForces' ->
  nodeForces' = ForceAlgorithmStep.coulombVisit n1 nodeForces n2.
Proof.
  unfold ForceAlgorithmStep.Call.coulombVisit, ForceAlgorithmStep.coulombVisit.
  destruct (String.eqb _ _); [now intros [= <-]|]. cbv zeta.
  destruct (ForceAlgorithmStep.Call.applyForce n1 _ nodeForces) as [F1|e] eqn:E1;
    [|discriminate].
  cbn [bind]. intros H.
  apply call_applyForce_returns in E1. apply call_applyForce_returns in H. now subst.
Qed.

Lemma call_coulombVisit_keeps n1 nodeForces n2 nodeForces' :
  ordinary (objKeys nodeForces) ->
  ForceAlgorithmStep.Call.coulombVisit n1 nodeForces n2 = Ok nodeForces' ->
  ordinary (objKeys nodeForces').
Proof.
  unfold ForceAlgorithmStep.Call.coulombVisit.
  destruct (String.eqb _ _); [now intros Ho [= <-]|]. cbv zeta. intros Ho.
  destruct (ForceAlgorithmStep.Call.applyForce n1 _ nodeForces) as [F1|e] eqn:E1;
    [|discriminate].
  cbn [bind]. intros H.
  eapply call_applyForce_keeps; [|exact H]. eapply call_applyForce_keeps; [exact Ho | exact E1].
Qed.


Lemma call_coulombVisit_total n1 nodeForces n2 :
  inherited (LayoutNode.designerId n1) = false ->
  inherited (LayoutNode.designerId n2) = false ->
  ForceAlgorithmStep.Call.coulombVisit n1 nodeForces n2
  = Ok (ForceAlgorithmStep.coulombVisit n1 nodeForces n2).
Proof.
  intros H1 H2.
  unfold ForceAlgorithmStep.Call.coulombVisit, ForceAlgorithmStep.coulombVisit.
  destruct (String.eqb _ _); [reflexivity|]. cbv zeta.
  rewrite (call_applyForce_total n1) by exact H1. cbn [bind].
  now rewrite (call_applyForce_total n2) by exact H2.
Qed.

Lemma call_hookeVisit_returns nodeForces edge nodeForces' :
  ForceAlgorithmStep.Call.hookeVisit nodeForces edge = Ok nodeForces' ->
  nodeForces' = ForceAlgorithmStep.hookeVisit nodeForces edge.
Proof.
  unfold ForceAlgorithmStep.Call.hookeVisit, ForceAlgorithmStep.hookeVisit. cbv zeta.
  destruct (ForceAlgorithmStep.Call.applyForce (LayoutEdge.source edge) _ nodeForces)
    as [F1|e] eqn:E1; [|discriminate].
  cbn [bind]. intros H.
  apply call_applyForce_returns in E1. apply call_applyForce_returns in H. now subst.
Qed.

Lemma call_hookeVisit_keeps nodeForces edge nodeForces' :
  ordinary (objKeys nodeForces) ->
  ForceAlgorithmStep.Call.hookeVisit nodeForces edge = Ok nodeForces' ->
  ordinary (objKeys nodeForces').
Proof.
  unfold ForceAlgorithmStep.Call.hookeVisit. cbv zeta. intros Ho.
  destruct (ForceAlgorithmStep.Call.applyForce (LayoutEdge.source edge) _ nodeForces)
    as [F1|e] eqn:E1; [|discriminate].
  cbn [bind]. intros H.
  eapply call_applyForce_keeps; [|exact H]. eapply call_applyForce_keeps; [exact Ho | exact E1].
Qed.


Lemma call_hookeVisit_total nodeForces edge :
  inherited (LayoutNode.designerId (LayoutEdge.source edge)) = false ->
  inherited (LayoutNode.designerId (LayoutEdge.target edge)) = false ->
  ForceAlgorithmStep.Call.hookeVisit nodeForces edge
  = Ok (ForceAlgorithmStep.hookeVisit nodeForces edge).
Proof.
  intros H1 H2.
  unfold ForceAlgorithmStep.Call.hookeVisit, ForceAlgorithmStep.hookeVisit. cbv zeta.
  rewrite (call_applyForce_total (LayoutEdge.source edge)) by exact H1. cbn [bind].
  now rewrite (call_applyForce_total (LayoutEdge.target edge)) by exact H2.
Qed.

Lemma call_applyHooksLaw_returns layoutEdges nodeForces nodeForces' :
  ForceAlgorithmStep.Call.applyHooksLaw layoutEdges nodeForces = Ok nodeForces' ->
  nodeForces' = ForceAlgorithmStep.applyHooksLaw layoutEdges nodeForces.
Proof. apply foldM_returns. intros s a s'. apply call_hookeVisit_returns. Qed.

Lemma call_applyCoulombsLaw_returns layoutNodes nodeForces nodeForces' :
  ForceAlgorithmStep.Call.applyCoulombsLaw layoutNodes nodeForces = Ok nodeForces' ->
  nodeForces' = ForceAlgorithmStep.applyCoulombsLaw layoutNodes nodeForces.
Proof.
  unfold ForceAlgorithmStep.Call.applyCoulombsLaw, ForceAlgorithmStep.applyCoulombsLaw.
  apply (foldM_returns
           (fun F n1 => foldM (ForceAlgorithmStep.Call.coulombVisit n1) (objValues layoutNodes) F)
           (fun F n1 => fold_left (ForceAlgorithmStep.coulombVisit n1) (objValues layoutNodes) F)).
  intros s a s'. apply foldM_returns. intros s0 a0 s0'. apply call_coulombVisit_returns.
Qed.

Lemma call_applyGravity_returns layoutNodes nodeForces nodeForces' :
  ForceAlgorithmStep.Call.applyGravity layoutNodes nodeForces = Ok nodeForces' ->
  nodeForces' = ForceAlgorithmStep.applyGravity layoutNodes nodeForces.
Proof.
  apply foldM_returns. intros s a s'. unfold ForceAlgorithmStep.Call.gravityVisit.
  apply call_applyForce_returns.
Qed.

Lemma runForces_returns l nodeForces :
  GraphLayout.runForces l = Ok nodeForces ->
  nodeForces = GraphLayout.stepForces l /\ ordinary (objKeys nodeForces).
Proof.
  unfold GraphLayout.runForces, GraphLayout.stepForces.
  destruct (ForceAlgorithmStep.Call.applyHooksLaw (GraphLayout.edges l) []) as [F1|e] eqn:E1;
    [|discriminate].
  cbn [bind].
  destruct (ForceAlgorithmStep.Call.applyCoulombsLaw (GraphLayout.nodes l) F1) as [F2|e] eqn:E2;
    [|discriminate].
  cbn [bind]. intros E3.
  assert (O1 : ordinary (objKeys F1)).
  { apply (foldM_keeps ForceAlgorithmStep.Call.hookeVisit (fun F => ordinary (objKeys F))
             (GraphLayout.edges l)) with (s := []) (s' := F1); [|intros k []|exact E1].
    intros s a s'. apply call_hookeVisit_keeps. }
  assert (O2 : ordinary (objKeys F2)).
  { apply (foldM_keeps
             (fun F n1 => foldM (ForceAlgorithmStep.Call.coulombVisit n1)
                                (objValues (GraphLayout.nodes l)) F)
             (fun F => ordinary (objKeys F))
             (objValues (GraphLayout.nodes l))) with (s := F1) (s' := F2);
      [|exact O1|exact E2].
    intros s a s' Hs Hf.
    exact (foldM_keeps (ForceAlgorithmStep.Call.coulombVisit a)
             (fun F => ordinary (objKeys F)) _
             (fun s0 a0 s0' => call_coulombVisit_keeps a s0 a0 s0') s s' Hs Hf). }
  split.
  - apply call_applyHooksLaw_returns in E1. apply call_applyCoulombsLaw_returns in E2.
    apply call_applyGravity_returns in E3. now subst.
  - apply (foldM_keeps ForceAlgorithmStep.Call.gravityVisit (fun F => ordinary (objKeys F))
             (objValues (GraphLayout.nodes l))) with (s := F2) (s' := nodeForces);
      [|exact O2|exact E3].
    intros s a s'. unfold ForceAlgorithmStep.Call.gravityVisit. apply call_applyForce_keeps.
Qed.


Lemma runForces_total l :
  (forall n, In n (objValues (GraphLayout.nodes l)) ->
     inherited (LayoutNode.designerId n) = false) ->
  (forall edge, In edge (GraphLayout.edges l) ->
     inherited (LayoutNode.designerId (LayoutEdge.source edge)) = false
     /\ inherited (LayoutNode.designerId (LayoutEdge.target edge)) = false) ->
  GraphLayout.runForces l = Ok (GraphLayout.stepForces l).
Proof.
  intros Hn He. unfold GraphLayout.runForces, GraphLayout.stepForces.
  unfold ForceAlgorithmStep.Call.applyHooksLaw.
  rewrite (foldM_total ForceAlgorithmStep.Call.hookeVisit ForceAlgorithmStep.hookeVisit)
    by (intros s a Ha; apply call_hookeVisit_total; apply (He a Ha)).
  cbn [bind]. unfold ForceAlgorithmStep.Call.applyCoulombsLaw.
  rewrite (foldM_total
             (fun F n1 => foldM (ForceAlgorithmStep.Call.coulombVisit n1)
                                (objValues (GraphLayout.nodes l)) F)
             (fun F n1 => fold_left (ForceAlgorithmStep.coulombVisit n1)
                                    (objValues (GraphLayout.nodes l)) F))
    by (intros s a Ha; apply foldM_total; intros s0 a0 Ha0;
        apply call_coulombVisit_total; auto).
  cbn [bind]. unfold ForceAlgorithmStep.Call.applyGravity.
  rewrite (foldM_total ForceAlgorithmStep.Call.gravityVisit ForceAlgorithmStep.gravityVisit)
    by (intros s a Ha; unfold ForceAlgorithmStep.Call.gravityVisit;
        apply call_applyForce_total; auto).
  reflexivity.
Qed.

Lemma sound_edge_ids l edge :
  sound l -> In edge (GraphLayout.edges l) ->
  In (LayoutNode.designerId (LayoutEdge.source edge)) (objKeys (GraphLayout.nodes l))
  /\ In (LayoutNode.designerId (LayoutEdge.target edge)) (objKeys (GraphLayout.nodes l)).
Proof.
  intros Hs Hin. pose proof (sound_edges l Hs) as He.
  apply fillEdges_inv in He. destruct He as (_ & _ & He). simpl in He.
  destruct (mapM_In _ _ _ _ He Hin) as (ge & _ & Hge).
  apply fillEdge_inv in Hge. destruct Hge as (_ & H1 & H2 & _).
  destruct (sound_objGet l _ _ Hs H1) as [E1 _]. destruct (sound_objGet l _ _ Hs H2) as [E2 _].
  rewrite E1, E2. split; eapply objGet_Some_key; eassumption.
Qed.

Lemma sound_runForces l :
  sound l -> ordinary (objKeys (GraphLayout.nodes l)) ->
  GraphLayout.runForces l = Ok (GraphLayout.stepForces l).
Proof.
  intros Hs Ho. apply runForces_total.
  - intros n Hn. unfold objValues in Hn. apply in_map_iff in Hn.
    destruct Hn as [[k n'] [<- Hn]]. simpl. rewrite (sound_ids l Hs k n' Hn).
    apply Ho. unfold objKeys. change k with (fst (k, n')). now apply in_map.
  - intros edge Hin. destruct (sound_edge_ids l edge Hs Hin) as [H1 H2]. split; now apply Ho.
Qed.

(** A step that returns went through its three passes, every node has an
    entry in the accumulator, and is moved by it. *)
Lemma springyStep_returns l l' :
  sound l -> GraphLayout.springyStep l = Ok l' ->
  ordinary (objKeys (GraphLayout.nodes l))
  /\ GraphLayout.nodes l'
     = objMapValues (ForceAlgorithmStep.moveNode (GraphLayout.stepForces l)) (GraphLayout.nodes l)
  /\ forall k n, objGet k (GraphLayout.nodes l) = Some n ->
       objGet k (GraphLayout.stepForces l) = Some (received k (GraphLayout.stepForces l))
       /\ objGet k (GraphLayout.nodes l')
          = Some (LayoutNode.translate n
                    (Vector2D.x (received k (GraphLayout.stepForces l)))
                    (Vector2D.y (received k (GraphLayout.stepForces l)))).
Proof.
  intros Hs H. unfold GraphLayout.springyStep in H.
  destruct (GraphLayout.runForces l) as [nodeForces|e] eqn:Er; [|discriminate].
  cbn [bind] in H. destruct (runForces_returns l nodeForces Er) as [-> Ho].
  destruct (changePositions_sound
              (ForceAlgorithmStep.moveNode (GraphLayout.stepForces l)) l Hs
              (moveNode_id _)) as (l1 & E & _ & _ & En).
  rewrite E in H. injection H as <-.
  assert (Hkey : forall k n, objGet k (GraphLayout.nodes l) = Some n ->
                   In k (objKeys (GraphLayout.stepForces l))).
  { intros k n Hk. destruct (sound_objGet l k n Hs Hk) as [Hid Hin].
    unfold GraphLayout.stepForces, ForceAlgorithmStep.applyGravity.
    apply applyGravity_keys. left. rewrite <- Hid. now apply in_map. }
  split; [|split; [exact En|]].
  - intros k Hk. destruct (In_objKeys_objGet _ _ Hk) as [n Hn].
    apply Ho. exact (Hkey k n Hn).
  - intros k n Hk. destruct (In_objKeys_objGet _ _ (Hkey k n Hk)) as [force Ef].
    assert (R1 : received k (GraphLayout.stepForces l) = force)
      by (unfold received; now rewrite Ef).
    rewrite R1. split; [exact Ef|].
    destruct (sound_objGet l k n Hs Hk) as [Hid _].
    rewrite En, objGet_objMapValues, Hk. simpl.
    unfold ForceAlgorithmStep.moveNode. now rewrite Hid, Ef.
Qed.

Lemma springyStep_total l :
  sound l -> ordinary (objKeys (GraphLayout.nodes l)) ->
  exists l', GraphLayout.springyStep l = Ok l' /\ sameShape l l'.
Proof.
  intros Hs Ho. unfold GraphLayout.springyStep. rewrite (sound_runForces l Hs Ho). cbn [bind].
  apply changePositions_shape; [exact Hs | apply moveNode_id].
Qed.


Lemma clamp_cut force :
  MAX_FORCE_SIZE < Vector2D.magnitude force ->
  Vector2D.magnitude (ForceAlgorithmStep.clamp force) = MAX_FORCE_SIZE.
Proof.
  intros Hgt. unfold ForceAlgorithmStep.clamp.
  destruct (Rgt_dec _ _) as [_|Hle]; [|unfold Rgt in Hle; lra].
  unfold MAX_FORCE_SIZE in *.
  rewrite magnitude_multiply by lra. rewrite magnitude_normalise; [lra|].
  intros ->. unfold Vector2D.magnitude in Hgt. simpl in Hgt.
  replace (0 * 0 + 0 * 0) with 0 in Hgt by lra. rewrite sqrt_0 in Hgt. lra.
Qed.

(** C4.  An [applyForce] that returns has added to the accumulator of its
    node the force cut back by [clamp], and nothing to any other: never
    longer than [MAX_FORCE_SIZE] = 100, of length 100 when the force was
    longer, unchanged when it was not, and always a positive multiple of
    the force given.  The three passes of a relaxation step reach the
    accumulator through it alone: when [applyHooksLaw],
    [applyCoulombsLaw] and [applyGravity] return, what each has added
    for a designer id is the sum of the clamped spring forces of the
    edges at that node, of the clamped repulsion forces of the visited
    pairs with that node, and the clamped gravity force of the node; and
    a [springyStep] that returns has moved every node by the sum of
    these three.  The sum is not cut back: in one step on the circular
    layout of two joined 2 x 2 nodes node ["a"] moves further than
    100. *)
Theorem force_clamped_per_application :
  (forall node force nodeForces nodeForces',
     ForceAlgorithmStep.Call.applyForce node force nodeForces = Ok nodeForces' ->
     received (LayoutNode.designerId node) nodeForces'
     = Vector2D.add (received (LayoutNode.designerId node) nodeForces)
                    (ForceAlgorithmStep.clamp force)
     /\ forall k, k <> LayoutNode.designerId node ->
          received k nodeForces' = received k nodeForces)
  /\ (forall force,
        Vector2D.magnitude (ForceAlgorithmStep.clamp force) <= 100
        /\ (Vector2D.magnitude force <= 100 -> ForceAlgorithmStep.clamp force = force)
        /\ (100 < Vector2D.magnitude force ->
            Vector2D.magnitude (ForceAlgorithmStep.clamp force) = 100)
        /\ exists c, 0 < c /\ ForceAlgorithmStep.clamp force = Vector2D.multiply force c)
  /\ (forall k layoutEdges nodeForces nodeForces',
        ForceAlgorithmStep.Call.applyHooksLaw layoutEdges nodeForces = Ok nodeForces' ->
        received k nodeForces'
        = Vector2D.add (received k nodeForces) (vsum (map (springOn k) layoutEdges)))
  /\ (forall k layoutNodes nodeForces nodeForces',
        ForceAlgorithmStep.Call.applyCoulombsLaw layoutNodes nodeForces = Ok nodeForces' ->
        received k nodeForces'
        = Vector2D.add (received k nodeForces)
            (vsum (map (fun n1 => vsum (map (coulombOn k n1) (objValues layoutNodes)))
                       (objValues layoutNodes))))
  /\ (forall k layoutNodes nodeForces nodeForces',
        ForceAlgorithmStep.Call.applyGravity layoutNodes nodeForces = Ok nodeForces' ->
        received k nodeForces'
        = Vector2D.add (received k nodeForces)
            (vsum (map (gravityOn k) (objValues layoutNodes))))
  /\ (forall l l' k n,
        produced l ->
        GraphLayout.springyStep l = Ok l' ->
        objGet k (GraphLayout.nodes l) = Some n ->
        exists n',
          objGet k (GraphLayout.nodes l') = Some n'
          /\ Vector2D.subtract (LayoutNode.position n') (LayoutNode.position n)
             = Vector2D.add
                 (Vector2D.add
                    (vsum (map (springOn k) (GraphLayout.edges l)))
                    (vsum (map (fun n1 =>
                                  vsum (map (coulombOn k n1) (objValues (GraphLayout.nodes l))))
                               (objValues (GraphLayout.nodes l)))))
                 (vsum (map (gravityOn k) (objValues (GraphLayout.nodes l)))))
  /\ (exists l l' k n n',
        produced l
        /\ GraphLayout.springyStep l = Ok l'
        /\ objGet k (GraphLayout.nodes l) = Some n
        /\ objGet k (GraphLayout.nodes l') = Some n'
        /\ 100 < Vector2D.magnitude
                   (Vector2D.subtract (LayoutNode.position n') (LayoutNode.position n))).
Proof.
  split; [|split; [|split; [|split; [|split; [|split]]]]].
  - intros node force nodeForces nodeForces' H.
    apply call_applyForce_returns in H. subst nodeForces'. split.
    + rewrite received_applyForce. now rewrite String.eqb_refl.
    + intros k Hk. rewrite received_applyForce.
      apply String.eqb_neq in Hk. now rewrite Hk.
  - intros force. split; [apply clamp_bounded|]. split; [apply clamp_small|].
    split; [apply clamp_cut | apply clamp_direction].
  - intros k layoutEdges nodeForces nodeForces' H.
    apply call_applyHooksLaw_returns in H. subst nodeForces'. apply received_applyHooksLaw.
  - intros k layoutNodes nodeForces nodeForces' H.
    apply call_applyCoulombsLaw_returns in H. subst nodeForces'.
    unfold ForceAlgorithmStep.applyCoulombsLaw. apply received_coulombRows.
  - intros k layoutNodes nodeForces nodeForces' H.
    apply call_applyGravity_returns in H. subst nodeForces'.
    unfold ForceAlgorithmStep.applyGravity. apply received_gravityOn.
  - intros l l' k n Hp H Hk.
    destruct (springyStep_returns l l' (produced_sound l Hp) H) as (_ & _ & Hmove).
    destruct (Hmove k n Hk) as [_ Hn'].
    eexists. split; [exact Hn'|]. rewrite <- received_stepForces.
    unfold LayoutNode.translate, LayoutNode.position. vec.
  - destruct pair_springyStep as (l' & n' & E & Hn' & Hd).
    exists pairLayout, l', "a"%string, pairPlacedA, n'.
    split; [exact pair_produced|]. split; [exact E|]. split; [reflexivity|].
    split; [exact Hn'|]. rewrite Hd. exact pair_received_large.
Qed.

Lemma magnitude_300_400 : Vector2D.magnitude (Vector2D.mk 300 400) = 500.
Proof.
  unfold Vector2D.magnitude. simpl.
  replace (300 * 300 + 400 * 400) with (500 * 500) by lra.
  apply sqrt_square. lra.
Qed.

Lemma force_clamped_per_application_witness :
  ForceAlgorithmStep.Call.applyForce pairPlacedA (Vector2D.mk 300 400) []
  = Ok [("a"%string, ForceAlgorithmStep.clamp (Vector2D.mk 300 400))]
  /\ received "a" [("a"%string, ForceAlgorithmStep.clamp (Vector2D.mk 300 400))]
     = Vector2D.add (received "a" []) (ForceAlgorithmStep.clamp (Vector2D.mk 300 400))
  /\ 100 < Vector2D.magnitude (Vector2D.mk 300 400)
  /\ Vector2D.magnitude (ForceAlgorithmStep.clamp (Vector2D.mk 300 400)) = 100
  /\ exists l' n',
       GraphLayout.springyStep pairLayout = Ok l'
       /\ objGet "a" (GraphLayout.nodes l') = Some n'
       /\ Vector2D.subtract (LayoutNode.position n') (LayoutNode.position pairPlacedA)
          = Vector2D.add
              (Vector2D.add
                 (vsum (map (springOn "a") (GraphLayout.edges pairLayout)))
                 (vsum (map (fun n1 =>
                               vsum (map (coulombOn "a" n1)
                                         (objValues (GraphLayout.nodes pairLayout))))
                            (objValues (GraphLayout.nodes pairLayout)))))
              (vsum (map (gravityOn "a") (objValues (GraphLayout.nodes pairLayout)))).
Proof.
  assert (Hc : ForceAlgorithmStep.Call.applyForce pairPlacedA (Vector2D.mk 300 400) []
               = Ok [("a"%string, ForceAlgorithmStep.clamp (Vector2D.mk 300 400))])
    by reflexivity.
  assert (Hm : 100 < Vector2D.magnitude (Vector2D.mk 300 400))
    by (rewrite magnitude_300_400; lra).
  destruct force_clamped_per_application as (Happly & Hclamp & _ & _ & _ & Hstep & _).
  split; [exact Hc|].
  split; [exact (proj1 (Happly pairPlacedA (Vector2D.mk 300 400) [] _ Hc))|].
  split; [exact Hm|].
  split; [exact (proj1 (proj2 (proj2 (Hclamp (Vector2D.mk 300 400)))) Hm)|].
  destruct pair_springyStep as (l' & n0 & E & _ & _).
  destruct (Hstep pairLayout l' "a"%string pairPlacedA pair_produced E eq_refl) as (n' & Hn' & Hd).
  exists l', n'. split; [exact E|]. split; [exact Hn' | exact Hd].
Defined.

(** ** Positions on the circle *)




Lemma circle_point_magnitude angle radius :
  0 <= radius ->
  Vector2D.magnitude (Vector2D.mk (sin angle * radius) (cos angle * radius)) = radius.
Proof.
  intros Hr. unfold Vector2D.magnitude. simpl.
  pose proof (sin2_cos2 angle) as H. unfold Rsqr in H.
  apply sqrt_lem_1; nra.
Qed.










Section CircleOrderOf.
Variable P : GraphNode.t -> Prop.
Variable st : GraphNode.store.
Hypothesis neightboors_P : forall o m, In m (GraphNode.neightboors (st o)) -> P m.



End CircleOrderOf.




(** *** The circular layout of two nodes without extent *)

Lemma point_circleOrder : GraphLayout.circleOrder pointGraph = Some [nodeP; nodeQ].
Proof.
  unfold GraphLayout.circleOrder.
  change (objValues (GraphDefinition.nodes pointGraph)) with [nodeP; nodeQ].
  change (List.length (GraphDefinition.nodes pointGraph)) with 2%nat.
  remember (GraphDefinition.heap pointGraph) as st eqn:Est.
  assert (H0 : GraphNode.neightboors (st 0%nat) = []) by (subst st; reflexivity).
  assert (H1 : GraphNode.neightboors (st 1%nat) = []) by (subst st; reflexivity).
  clear Est.
  assert (Hs : sortsBefore st nodeQ nodeP = false).
  { unfold sortsBefore. simpl GraphNode.oid. rewrite H0, H1. simpl.
    rewrite !Rlt_dec_irrefl. reflexivity. }
  cbn [addNodeNeighboors sortBy fold_right sortInsert]. rewrite Hs.
  cbn [visitNodes existsb snd fst GraphNode.oid GraphNode.designerId nodeP nodeQ app].
  rewrite H0.
  cbn [addNodeNeighboors sortBy fold_right sortInsert visitNodes existsb snd fst
       GraphNode.oid GraphNode.designerId nodeP nodeQ app].
  rewrite H1. reflexivity.
Qed.

Lemma point_createCircle : GraphLayout.createCircle pointGraph = Ok pointLayout.
Proof.
  unfold GraphLayout.createCircle.
  change (objIsEmpty (GraphDefinition.nodes pointGraph)) with false. cbv iota.
  rewrite point_circleOrder. reflexivity.
Qed.

Lemma pointRadius_zero : pointRadius = 0.
Proof.
  unfold pointRadius, circleRadius, halfDiagonal. simpl.
  replace (0 * 0 / 4 + 0 * 0 / 4) with 0 by lra.
  rewrite sqrt_0, Rmax_left by lra. unfold Rdiv. lra.
Qed.


Lemma point_produced : produced pointLayout.
Proof.
  apply (produced_circle pointGraph); [repeat constructor | apply point_createCircle].
Qed.

Lemma pointPlacedP_eq : pointPlacedP = LayoutNode.mk nodeP 0 0.
Proof. unfold pointPlacedP. rewrite pointRadius_zero. f_equal; lra. Qed.

Lemma pointPlacedQ_eq : pointPlacedQ = LayoutNode.mk nodeQ 0 0.
Proof. unfold pointPlacedQ. rewrite pointRadius_zero. f_equal; lra. Qed.

Lemma coulombForce_coincident a b :
  LayoutNode.position a = LayoutNode.position b -> coulombForce a b = vzero.
Proof.
  intros E. unfold coulombForce, Vector2D.normalise, Vector2D.divide. rewrite E.
  apply vec_eq; simpl; unfold Rdiv; ring.
Qed.

Lemma magnitude_vzero : Vector2D.magnitude vzero = 0.
Proof.
  unfold Vector2D.magnitude, vzero. simpl.
  replace (0 * 0 + 0 * 0) with 0 by lra. apply sqrt_0.
Qed.

Lemma clamp_vzero : ForceAlgorithmStep.clamp vzero = vzero.
Proof. apply clamp_small. rewrite magnitude_vzero. unfold MAX_FORCE_SIZE. lra. Qed.

Lemma point_distance : rectangleDistance (LayoutNode.bounds pointPlacedP)
                                         (LayoutNode.bounds pointPlacedQ) = 0.
Proof.
  rewrite pointPlacedP_eq, pointPlacedQ_eq.
  cbv [rectangleDistance LayoutNode.bounds LayoutNode.left LayoutNode.top LayoutNode.right
       LayoutNode.bottom LayoutNode.x LayoutNode.y LayoutNode.node GraphNode.width
       GraphNode.height nodeP nodeQ left top right bottom].
  replace (0 - 0 / 2 - (0 + 0 / 2)) with 0 by lra.
  rewrite (Rmax_left 0 0), (Rmax_left 0 0) by lra.
  replace (0 * 0 + 0 * 0) with 0 by lra. apply sqrt_0.
Qed.

(** C3 as stated fails for two nodes with the same centre, as in the
    circular layout of two nodes without extent: the formula gives the
    size 100, but the direction is the zero vector scaled, and no force
    reaches either node. *)
Lemma coincident_centres_no_repulsion :
  produced pointLayout
  /\ In pointPlacedP (objValues (GraphLayout.nodes pointLayout))
  /\ In pointPlacedQ (objValues (GraphLayout.nodes pointLayout))
  /\ LayoutNode.designerId pointPlacedP <> LayoutNode.designerId pointPlacedQ
  /\ (1 / 2 * 500000)
     / ((rectangleDistance (LayoutNode.bounds pointPlacedP) (LayoutNode.bounds pointPlacedQ) + 50)
        * (rectangleDistance (LayoutNode.bounds pointPlacedP) (LayoutNode.bounds pointPlacedQ)
           + 50)) = 100
  /\ Vector2D.magnitude (coulombForce pointPlacedP pointPlacedQ) = 0
  /\ received "a" (ForceAlgorithmStep.coulombVisit pointPlacedP [] pointPlacedQ) = vzero
  /\ received "a" (ForceAlgorithmStep.applyCoulombsLaw (GraphLayout.nodes pointLayout) [])
     = vzero.
Proof.
  assert (E : LayoutNode.position pointPlacedP = LayoutNode.position pointPlacedQ)
    by (now rewrite pointPlacedP_eq, pointPlacedQ_eq).
  assert (F1 : coulombForce pointPlacedP pointPlacedQ = vzero)
    by (now apply coulombForce_coincident).
  assert (F2 : coulombForce pointPlacedQ pointPlacedP = vzero)
    by (now apply coulombForce_coincident).
  split; [exact point_produced|]. split; [now left|]. split; [right; now left|].
  split; [discriminate|]. split; [rewrite point_distance; lra|].
  split; [rewrite F1; apply magnitude_vzero|]. split.
  - rewrite received_coulombVisit. unfold coulombOn.
    change (LayoutNode.designerId pointPlacedP) with "a"%string.
    change (LayoutNode.designerId pointPlacedQ) with "b"%string.
    cbn [String.eqb Ascii.eqb Bool.eqb].
    rewrite F1, clamp_vzero. unfold received. simpl. vec.
  - unfold ForceAlgorithmStep.applyCoulombsLaw. rewrite received_coulombRows.
    cbn [GraphLayout.nodes pointLayout objValues map snd vsum fold_right].
    unfold coulombOn.
    change (LayoutNode.designerId pointPlacedP) with "a"%string.
    change (LayoutNode.designerId pointPlacedQ) with "b"%string.
    cbn [String.eqb Ascii.eqb Bool.eqb].
    rewrite backForce_eq, F1, clamp_vzero. unfold received. simpl. vec.
Qed.

(** * Further properties *)

(** ** What every graph built through the interface keeps *)

Lemma lookup_found id g x :
  GraphDefinition.lookup id g = Some x ->
  (exists n, objGet id (GraphDefinition.nodes g) = Some n /\ x = GraphDefinition.Node n)
  \/ (objGet id (GraphDefinition.nodes g) = None /\ inherited id = true
      /\ x = GraphDefinition.Inherited id).
Proof.
  unfold GraphDefinition.lookup.
  destruct (objGet id (GraphDefinition.nodes g)) as [n|].
  - intros [= <-]. left. eauto.
  - destruct (inherited id); [|discriminate]. intros [= <-]. right. auto.
Qed.

(** What [addEdge] does to the edges that have an inherited member at an
    end. *)
Lemma addEdge_strays a b g :
  GraphDefinition.strays (GraphDefinition.addEdge a b g) = GraphDefinition.strays g
  \/ exists source target,
       GraphDefinition.strays (GraphDefinition.addEdge a b g)
       = GraphDefinition.strays g ++ [(source, target)]
       /\ GraphDefinition.lookup a g = Some source
       /\ GraphDefinition.lookup b g = Some target
       /\ (objGet a (GraphDefinition.nodes g) = None
           \/ objGet b (GraphDefinition.nodes g) = None).
Proof.
  destruct (objGet a (GraphDefinition.nodes g)) as [s|] eqn:Ea;
    [destruct (objGet b (GraphDefinition.nodes g)) as [t|] eqn:Eb|].
  - left. unfold GraphDefinition.addEdge. rewrite Ea, Eb. now destruct (existsb _ _).
  - rewrite (addEdge_stray a b g (or_intror Eb)).
    destruct (GraphDefinition.lookup a g) as [x|]; [|now left].
    destruct (GraphDefinition.lookup b g) as [y|]; [|now left].
    destruct (existsb _ _); [now left|]. right. exists x, y. auto.
  - rewrite (addEdge_stray a b g (or_introl Ea)).
    destruct (GraphDefinition.lookup a g) as [x|]; [|now left].
    destruct (GraphDefinition.lookup b g) as [y|]; [|now left].
    destruct (existsb _ _); [now left|]. right. exists x, y. auto.
Qed.

Lemma reachable_strays g :
  GraphDefinition.reachable g ->
  forall x, In x (GraphDefinition.strays g) ->
    (exists name, inherited name = true
                  /\ (fst x = GraphDefinition.Inherited name
                      \/ snd x = GraphDefinition.Inherited name))
    /\ (forall n, fst x = GraphDefinition.Node n \/ snd x = GraphDefinition.Node n ->
          In (GraphNode.designerId n) (objKeys (GraphDefinition.nodes g))).
Proof.
  induction 1 as [|id w h g Hr IH|a b g Hr IH|g Hr IH]; intros x Hx.
  - destruct Hx.
  - simpl in Hx. destruct (IH x Hx) as [H1 H2]. split; [exact H1|].
    intros n Hn. simpl. apply objKeys_objSet. right. now apply H2.
  - rewrite addEdge_nodes.
    destruct (addEdge_strays a b g) as [E|(s & t & E & La & Lb & Hu)]; rewrite E in Hx;
      [now apply IH|].
    apply in_app_or in Hx. destruct Hx as [Hx|[<-|[]]]; [now apply IH|].
    pose proof (reachable_wf g Hr) as W. simpl.
    destruct (lookup_found a g s La) as [(n & Ea & ->)|(Ea & Ia & ->)];
      destruct (lookup_found b g t Lb) as [(m & Eb & ->)|(Eb & Ib & ->)].
    + destruct Hu; congruence.
    + split; [exists b; auto|]. intros n0 [[= <-]|H0]; [|discriminate].
      rewrite (wf_ids g W a n) by now apply objGet_In. eapply objGet_Some_key; exact Ea.
    + split; [exists a; auto|]. intros n0 [H0|[= <-]]; [discriminate|].
      rewrite (wf_ids g W b m) by now apply objGet_In. eapply objGet_Some_key; exact Eb.
    + split; [exists a; auto|]. intros n0 [H0|H0]; discriminate.
  - simpl in *. now apply IH.
Qed.

(** X2.  In a graph built through the interface every edge joins two
    nodes whose designer ids the graph knows, or else has at an end an
    inherited member, under whose name [addEdge] was called, and then
    its other end is such a member too or a node whose designer id the
    graph knows.  No two edges join the same two node objects (in either
    direction), every node is registered under its own designer id, and
    two ids never share a node object. *)
Theorem reachable_graph_invariant (g : GraphDefinition.t) :
  GraphDefinition.reachable g ->
  (forall e, In e (GraphDefinition.edges g) ->
     objHas (GraphNode.designerId (GraphEdge.source e)) (GraphDefinition.nodes g) = true
     /\ objHas (GraphNode.designerId (GraphEdge.target e)) (GraphDefinition.nodes g) = true)
  /\ (forall x, In x (GraphDefinition.strays g) ->
        (exists name, inherited name = true
                      /\ (fst x = GraphDefinition.Inherited name
                          \/ snd x = GraphDefinition.Inherited name))
        /\ (forall n, fst x = GraphDefinition.Node n \/ snd x = GraphDefinition.Node n ->
              objHas (GraphNode.designerId n) (GraphDefinition.nodes g) = true))
  /\ (forall s t,
        (List.length (filter (GraphDefinition.joins s t) (GraphDefinition.edges g)) <= 1)%nat)
  /\ (forall k n, objGet k (GraphDefinition.nodes g) = Some n ->
        GraphNode.designerId n = k /\ (GraphNode.oid n < GraphDefinition.nextOid g)%nat)
  /\ (forall k n k' n',
        objGet k (GraphDefinition.nodes g) = Some n ->
        objGet k' (GraphDefinition.nodes g) = Some n' ->
        GraphNode.same n n' = true -> k = k').
Proof.
  intros Hr. pose proof (reachable_wf g Hr) as W. split; [|split; [|split; [|split]]].
  - intros e He. destruct (wf_edges g W e He) as [H1 H2].
    apply In_objKeys_objGet in H1. apply In_objKeys_objGet in H2.
    destruct H1 as [n1 H1]. destruct H2 as [n2 H2].
    unfold objHas. now rewrite H1, H2.
  - intros x Hx. destruct (reachable_strays g Hr x Hx) as [H1 H2]. split; [exact H1|].
    intros n Hn. destruct (In_objKeys_objGet _ _ (H2 n Hn)) as [m Hm].
    unfold objHas. now rewrite Hm.
  - apply W.
  - intros k n H. apply objGet_In in H. split; [eapply wf_ids | eapply wf_oids]; eassumption.
  - intros k n k' n' H H' E. apply Nat.eqb_eq in E.
    eapply (wf_inj g W); [apply objGet_In, H | apply objGet_In, H' | exact E].
Qed.

Lemma reachable_graph_invariant_witness :
  GraphDefinition.reachable (GraphDefinition.addEdge "constructor" "a" singleGraph)
  /\ GraphDefinition.strays (GraphDefinition.addEdge "constructor" "a" singleGraph)
     = [(GraphDefinition.Inherited "constructor", GraphDefinition.Node nodeS)]
  /\ (forall x,
        In x (GraphDefinition.strays (GraphDefinition.addEdge "constructor" "a" singleGraph)) ->
        (exists name, inherited name = true
                      /\ (fst x = GraphDefinition.Inherited name
                          \/ snd x = GraphDefinition.Inherited name))
        /\ (forall n, fst x = GraphDefinition.Node n \/ snd x = GraphDefinition.Node n ->
              objHas (GraphNode.designerId n)
                     (GraphDefinition.nodes
                        (GraphDefinition.addEdge "constructor" "a" singleGraph)) = true)).
Proof.
  assert (Hr : GraphDefinition.reachable
                 (GraphDefinition.addEdge "constructor" "a" singleGraph))
    by (repeat constructor).
  split; [exact Hr|]. split; [reflexivity|].
  exact (proj1 (proj2 (reachable_graph_invariant _ Hr))).
Defined.

(** ** initialize: the adjacency lists *)

Lemma neightboors_push_mono node m st o m' :
  In m' (GraphNode.neightboors (st o)) ->
  In m' (GraphNode.neightboors (GraphNode.push node m st o)).
Proof.
  unfold GraphNode.push, GraphNode.update.
  destruct (Nat.eqb o (GraphNode.oid node)) eqn:E; simpl; [|tauto].
  apply Nat.eqb_eq in E. subst o. intros H. apply in_or_app. now left.
Qed.

Lemma neightboors_scanEdge_mono node st e o m :
  In m (GraphNode.neightboors (st o)) ->
  In m (GraphNode.neightboors (GraphDefinition.scanEdge node st e o)).
Proof.
  intros H. unfold GraphDefinition.scanEdge.
  repeat match goal with
         | |- context [if ?c then _ else _] => destruct c
         end; repeat apply neightboors_push_mono; exact H.
Qed.

Lemma neightboors_scanEdges_mono node es :
  forall st o m,
    In m (GraphNode.neightboors (st o)) ->
    In m (GraphNode.neightboors (fold_left (GraphDefinition.scanEdge node) es st o)).
Proof.
  induction es as [|e t IH]; simpl; intros st o m H; [exact H|].
  apply IH. now apply neightboors_scanEdge_mono.
Qed.

Lemma neightboors_initialize node st o :
  GraphNode.neightboors (GraphNode.initialize node st o) = GraphNode.neightboors (st o).
Proof.
  unfold GraphNode.initialize, GraphNode.update.
  destruct (Nat.eqb o (GraphNode.oid node)) eqn:E; [|reflexivity].
  apply Nat.eqb_eq in E. now subst.
Qed.

Lemma neightboors_initializeNode_mono es st node o m :
  In m (GraphNode.neightboors (st o)) ->
  In m (GraphNode.neightboors (GraphDefinition.initializeNode es st node o)).
Proof.
  intros H. unfold GraphDefinition.initializeNode. rewrite neightboors_initialize.
  now apply neightboors_scanEdges_mono.
Qed.

Lemma neightboors_initializeNodes_mono es l :
  forall st o m,
    In m (GraphNode.neightboors (st o)) ->
    In m (GraphNode.neightboors (fold_left (GraphDefinition.initializeNode es) l st o)).
Proof.
  induction l as [|x t IH]; simpl; intros st o m H; [exact H|].
  apply IH. now apply neightboors_initializeNode_mono.
Qed.

Lemma includes_In st node m :
  GraphNode.includes st node m = true <->
  exists x, In x (GraphNode.neightboors (st (GraphNode.oid node)))
            /\ GraphNode.oid x = GraphNode.oid m.
Proof.
  unfold GraphNode.includes, GraphNode.same. rewrite existsb_exists.
  split; intros [x [Hx E]]; exists x; (split; [exact Hx|]).
  - apply Nat.eqb_eq in E. congruence.
  - apply Nat.eqb_eq. congruence.
Qed.

Lemma includes_push st node m : GraphNode.includes (GraphNode.push node m st) node m = true.
Proof.
  apply includes_In. exists m. split; [|reflexivity].
  unfold GraphNode.push, GraphNode.update. rewrite Nat.eqb_refl. simpl.
  apply in_or_app. right. now left.
Qed.

Lemma scanEdge_includes node st e :
  (GraphNode.same (GraphEdge.source e) node = true ->
   GraphNode.includes (GraphDefinition.scanEdge node st e) node (GraphEdge.target e) = true)
  /\ (GraphNode.same (GraphEdge.target e) node = true ->
      GraphNode.includes (GraphDefinition.scanEdge node st e) node (GraphEdge.source e) = true).
Proof.
  unfold GraphDefinition.scanEdge.
  set (st1 := if GraphNode.same (GraphEdge.source e) node
                   && negb (GraphNode.includes st node (GraphEdge.target e))
                then GraphNode.push node (GraphEdge.target e) st else st).
  assert (H1 : GraphNode.same (GraphEdge.source e) node = true ->
               GraphNode.includes st1 node (GraphEdge.target e) = true).
  { intros Hs. subst st1. rewrite Hs. simpl.
    destruct (GraphNode.includes st node (GraphEdge.target e)) eqn:E; simpl;
      [exact E | apply includes_push]. }
  split.
  - intros Hs. specialize (H1 Hs).
    destruct (GraphNode.same (GraphEdge.target e) node
              && negb (GraphNode.includes st1 node (GraphEdge.source e))); [|exact H1].
    apply includes_In in H1. destruct H1 as [x [Hx E]]. apply includes_In.
    exists x. split; [now apply neightboors_push_mono | exact E].
  - intros Ht. rewrite Ht. simpl.
    destruct (GraphNode.includes st1 node (GraphEdge.source e)) eqn:E; simpl;
      [exact E | apply includes_push].
Qed.

Lemma scanEdges_includes node es :
  forall st e, In e es ->
    (GraphNode.same (GraphEdge.source e) node = true ->
     GraphNode.includes (fold_left (GraphDefinition.scanEdge node) es st) node
                        (GraphEdge.target e) = true)
    /\ (GraphNode.same (GraphEdge.target e) node = true ->
        GraphNode.includes (fold_left (GraphDefinition.scanEdge node) es st) node
                           (GraphEdge.source e) = true).
Proof.
  induction es as [|e0 t IH]; simpl; intros st e He; [destruct He|].
  destruct He as [->|He]; [|now apply IH].
  destruct (scanEdge_includes node st e) as [H1 H2].
  split; intros H; [specialize (H1 H) | specialize (H2 H)].
  - apply includes_In in H1. destruct H1 as [x [Hx E]]. apply includes_In.
    exists x. split; [now apply neightboors_scanEdges_mono | exact E].
  - apply includes_In in H2. destruct H2 as [x [Hx E]]. apply includes_In.
    exists x. split; [now apply neightboors_scanEdges_mono | exact E].
Qed.

Lemma initializeNodes_includes es l :
  forall st node e, In node l -> In e es ->
    (GraphNode.same (GraphEdge.source e) node = true ->
     GraphNode.includes (fold_left (GraphDefinition.initializeNode es) l st) node
                        (GraphEdge.target e) = true)
    /\ (GraphNode.same (GraphEdge.target e) node = true ->
        GraphNode.includes (fold_left (GraphDefinition.initializeNode es) l st) node
                           (GraphEdge.source e) = true).
Proof.
  induction l as [|x t IH]; simpl; intros st node e Hn He; [destruct Hn|].
  destruct Hn as [->|Hn]; [|now apply IH].
  destruct (scanEdges_includes node es st e He) as [H1 H2].
  assert (Hup : forall m,
             GraphNode.includes (fold_left (GraphDefinition.scanEdge node) es st) node m = true ->
             GraphNode.includes
               (fold_left (GraphDefinition.initializeNode es) t
                          (GraphDefinition.initializeNode es st node)) node m = true).
  { intros m H. apply includes_In in H. destruct H as [y [Hy E]]. apply includes_In.
    exists y. split; [|exact E].
    apply neightboors_initializeNodes_mono. unfold GraphDefinition.initializeNode.
    now rewrite neightboors_initialize. }
  split; intros H; apply Hup; auto.
Qed.

(** Every neighbour on record at [o] came from an edge at the object [o]. *)
Lemma neightboors_push_at node m st o m' :
  In m' (GraphNode.neightboors (GraphNode.push node m st o)) ->
  In m' (GraphNode.neightboors (st o)) \/ (o = GraphNode.oid node /\ m' = m).
Proof.
  unfold GraphNode.push, GraphNode.update.
  destruct (Nat.eqb o (GraphNode.oid node)) eqn:E; simpl; [|tauto].
  apply Nat.eqb_eq in E. subst o. intros H. apply in_app_or in H.
  destruct H as [H|[H|[]]]; auto.
Qed.

Lemma neightboors_scanEdge_at node st e o m :
  In m (GraphNode.neightboors (GraphDefinition.scanEdge node st e o)) ->
  In m (GraphNode.neightboors (st o))
  \/ (GraphNode.oid (GraphEdge.source e) = o /\ m = GraphEdge.target e)
  \/ (GraphNode.oid (GraphEdge.target e) = o /\ m = GraphEdge.source e).
Proof.
  unfold GraphDefinition.scanEdge.
  destruct (GraphNode.same (GraphEdge.source e) node) eqn:Es;
    destruct (GraphNode.same (GraphEdge.target e) node) eqn:Et; simpl;
    unfold GraphNode.same in Es, Et;
    repeat match goal with
           | |- context [if ?c then _ else _] => destruct c
           end;
    intros H;
    repeat (apply neightboors_push_at in H; destruct H as [H|[-> ->]]);
    try (now left);
    try (apply Nat.eqb_eq in Es); try (apply Nat.eqb_eq in Et); auto.
Qed.

Lemma neightboors_scanEdges_at node es :
  forall st o m,
    In m (GraphNode.neightboors (fold_left (GraphDefinition.scanEdge node) es st o)) ->
    In m (GraphNode.neightboors (st o))
    \/ exists e, In e es
         /\ ((GraphNode.oid (GraphEdge.source e) = o /\ m = GraphEdge.target e)
             \/ (GraphNode.oid (GraphEdge.target e) = o /\ m = GraphEdge.source e)).
Proof.
  induction es as [|e t IH]; simpl; intros st o m H; [now left|].
  apply IH in H. destruct H as [H|[e' [He' H]]].
  - apply neightboors_scanEdge_at in H. destruct H as [H|H]; [now left|].
    right. exists e. split; [now left | exact H].
  - right. exists e'. split; [now right | exact H].
Qed.

Lemma neightboors_initializeNodes_at es l :
  forall st o m,
    In m (GraphNode.neightboors (fold_left (GraphDefinition.initializeNode es) l st o)) ->
    In m (GraphNode.neightboors (st o))
    \/ exists e, In e es
         /\ ((GraphNode.oid (GraphEdge.source e) = o /\ m = GraphEdge.target e)
             \/ (GraphNode.oid (GraphEdge.target e) = o /\ m = GraphEdge.source e)).
Proof.
  induction l as [|x t IH]; simpl; intros st o m H; [now left|].
  apply IH in H. destruct H as [H|H]; [|now right].
  unfold GraphDefinition.initializeNode in H. rewrite neightboors_initialize in H.
  now apply neightboors_scanEdges_at in H.
Qed.

Lemma reachable_neightboors_incident g :
  GraphDefinition.reachable g ->
  forall o m, In m (GraphNode.neightboors (GraphDefinition.heap g o)) ->
    exists e, In e (GraphDefinition.edges g)
      /\ ((GraphNode.oid (GraphEdge.source e) = o /\ m = GraphEdge.target e)
          \/ (GraphNode.oid (GraphEdge.target e) = o /\ m = GraphEdge.source e)).
Proof.
  induction 1 as [|id w h g _ IH|a b g _ IH|g _ IH]; intros o m.
  - intros [].
  - simpl. unfold GraphNode.update.
    destruct (Nat.eqb o (GraphDefinition.nextOid g)); [intros [] | apply IH].
  - intros Hm.
    rewrite addEdge_heap in Hm. destruct (IH o m Hm) as (e & He & Hse).
    exists e. split; [|exact Hse]. now apply addEdge_edges_kept.
  - simpl. intros Hm. apply neightboors_initializeNodes_at in Hm.
    destruct Hm as [Hm|Hm]; [exact (IH o m Hm) | exact Hm].
Qed.

(** X3.  After [initialize()] of a graph built through the interface, the
    adjacency list of a node [n] of the graph holds a node object [m]
    exactly when some edge joins [n] and [m], in either direction. *)
Theorem initialize_adjacency (g : GraphDefinition.t) (k : string) (n m : GraphNode.t) :
  GraphDefinition.reachable g ->
  objGet k (GraphDefinition.nodes g) = Some n ->
  GraphNode.includes (GraphDefinition.heap (GraphDefinition.initialize g)) n m
  = existsb (GraphDefinition.joins n m) (GraphDefinition.edges g).
Proof.
  intros Hr Hn. apply eq_true_iff_eq. split.
  - intros H. apply includes_In in H. destruct H as [x [Hx E]].
    destruct (reachable_neightboors_incident _ (GraphDefinition.reach_initialize g Hr) _ _ Hx)
      as (e & He & Hse).
    apply existsb_exists. exists e. split; [exact He|].
    unfold GraphDefinition.joins, GraphNode.same.
    destruct Hse as [[H1 ->]|[H1 ->]]; rewrite H1, E, !Nat.eqb_refl; simpl;
      [reflexivity | apply orb_true_r].
  - intros H. apply existsb_exists in H. destruct H as [e [He J]].
    assert (Hv : In n (objValues (GraphDefinition.nodes g))).
    { unfold objValues. change n with (snd (k, n)). apply in_map. now apply objGet_In. }
    destruct (initializeNodes_includes (GraphDefinition.edges g)
                (objValues (GraphDefinition.nodes g)) (GraphDefinition.heap g) n e Hv He)
      as [H1 H2].
    unfold GraphDefinition.joins in J. apply orb_true_iff in J.
    destruct J as [J|J]; apply andb_true_iff in J; destruct J as [Ja Jb].
    + specialize (H1 Ja). apply includes_In in H1. destruct H1 as [x [Hx E]].
      apply includes_In. exists x. split; [exact Hx|].
      apply Nat.eqb_eq in Jb. congruence.
    + specialize (H2 Ja). apply includes_In in H2. destruct H2 as [x [Hx E]].
      apply includes_In. exists x. split; [exact Hx|].
      apply Nat.eqb_eq in Jb. congruence.
Qed.

Lemma initialize_adjacency_witness :
  GraphDefinition.reachable (GraphDefinition.addEdge "a" "b" twoGraph)
  /\ objGet "a"%string (GraphDefinition.nodes (GraphDefinition.addEdge "a" "b" twoGraph))
     = Some (GraphNode.mk 0 "a" 2 2)
  /\ GraphNode.includes (GraphDefinition.heap pairGraph) (GraphNode.mk 0 "a" 2 2)
                        (GraphNode.mk 1 "b" 2 2)
     = true.
Proof.
  assert (Hr : GraphDefinition.reachable (GraphDefinition.addEdge "a" "b" twoGraph))
    by (repeat constructor).
  split; [exact Hr|]. split; [reflexivity|].
  exact (initialize_adjacency (GraphDefinition.addEdge "a" "b" twoGraph) "a"%string
           (GraphNode.mk 0 "a" 2 2) (GraphNode.mk 1 "b" 2 2) Hr eq_refl).
Defined.

(** *** No node twice in an adjacency list *)

Lemma push_distinct node m st :
  GraphNode.includes st node m = false ->
  (forall o, NoDup (map GraphNode.oid (GraphNode.neightboors (st o)))) ->
  forall o, NoDup (map GraphNode.oid (GraphNode.neightboors (GraphNode.push node m st o))).
Proof.
  intros Hi Hnd o. unfold GraphNode.push, GraphNode.update.
  destruct (Nat.eqb o (GraphNode.oid node)) eqn:E; [|apply Hnd]. simpl.
  rewrite map_app. simpl. apply NoDup_app; [apply Hnd | constructor; [tauto | constructor]|].
  intros x Hx [<-|[]]. apply in_map_iff in Hx. destruct Hx as (y & Ey & Hy).
  assert (GraphNode.includes st node m = true); [|congruence].
  apply includes_In. exists y. auto.
Qed.

Lemma scanEdge_distinct node st e :
  (forall o, NoDup (map GraphNode.oid (GraphNode.neightboors (st o)))) ->
  forall o, NoDup (map GraphNode.oid
                       (GraphNode.neightboors (GraphDefinition.scanEdge node st e o))).
Proof.
  intros Hnd. unfold GraphDefinition.scanEdge.
  set (st1 := if GraphNode.same (GraphEdge.source e) node
                   && negb (GraphNode.includes st node (GraphEdge.target e))
                then GraphNode.push node (GraphEdge.target e) st else st).
  assert (H1 : forall o, NoDup (map GraphNode.oid (GraphNode.neightboors (st1 o)))).
  { subst st1. destruct (GraphNode.same (GraphEdge.source e) node); simpl; [|exact Hnd].
    destruct (GraphNode.includes st node (GraphEdge.target e)) eqn:E; simpl; [exact Hnd|].
    now apply push_distinct. }
  destruct (GraphNode.same (GraphEdge.target e) node); simpl; [|exact H1].
  destruct (GraphNode.includes st1 node (GraphEdge.source e)) eqn:E; simpl; [exact H1|].
  now apply push_distinct.
Qed.

Lemma scanEdges_distinct node es :
  forall st,
    (forall o, NoDup (map GraphNode.oid (GraphNode.neightboors (st o)))) ->
    forall o, NoDup (map GraphNode.oid
                (GraphNode.neightboors (fold_left (GraphDefinition.scanEdge node) es st o))).
Proof.
  induction es as [|e t IH]; simpl; intros st Hnd; [exact Hnd|].
  apply IH. now apply scanEdge_distinct.
Qed.

Lemma initializeNodes_distinct es l :
  forall st,
    (forall o, NoDup (map GraphNode.oid (GraphNode.neightboors (st o)))) ->
    forall o, NoDup (map GraphNode.oid
                (GraphNode.neightboors (fold_left (GraphDefinition.initializeNode es) l st o))).
Proof.
  induction l as [|x t IH]; simpl; intros st Hnd; [exact Hnd|].
  apply IH. intros o. unfold GraphDefinition.initializeNode. rewrite neightboors_initialize.
  now apply scanEdges_distinct.
Qed.

(** X4.  In a graph built through the interface no adjacency list ever
    holds the same node object twice. *)
Theorem neightboors_distinct (g : GraphDefinition.t) (o : nat) :
  GraphDefinition.reachable g ->
  NoDup (map GraphNode.oid (GraphNode.neightboors (GraphDefinition.heap g o))).
Proof.
  intros Hr. revert o. induction Hr as [|id w h g _ IH|a b g _ IH|g _ IH]; intros o.
  - constructor.
  - simpl. unfold GraphNode.update.
    destruct (Nat.eqb o (GraphDefinition.nextOid g)); [constructor | apply IH].
  - rewrite addEdge_heap. apply IH.
  - simpl. now apply initializeNodes_distinct.
Qed.

Lemma neightboors_distinct_witness :
  GraphDefinition.reachable pairGraph
  /\ NoDup (map GraphNode.oid (GraphNode.neightboors (GraphDefinition.heap pairGraph 0%nat))).
Proof.
  assert (Hr : GraphDefinition.reachable pairGraph) by (repeat constructor).
  split; [exact Hr | exact (neightboors_distinct pairGraph 0%nat Hr)].
Defined.

(** *** A node added again *)

Lemma reachable_edge_oids g :
  GraphDefinition.reachable g ->
  forall e, In e (GraphDefinition.edges g) ->
    (GraphNode.oid (GraphEdge.source e) < GraphDefinition.nextOid g)%nat
    /\ (GraphNode.oid (GraphEdge.target e) < GraphDefinition.nextOid g)%nat.
Proof.
  induction 1 as [|id w h g Hr IH|a b g Hr IH|g Hr IH]; intros e He.
  - destruct He.
  - simpl in *. destruct (IH e He). split; lia.
  - pose proof (reachable_wf g Hr) as W.
    destruct (addEdge_fields a b g) as (En & _ & _ & _). rewrite En.
    destruct (objGet a (GraphDefinition.nodes g)) as [s|] eqn:Ea;
      [destruct (objGet b (GraphDefinition.nodes g)) as [t|] eqn:Eb|].
    + destruct (addEdge_known g a b s t Ea Eb) as (_ & _ & Hold & Hnew).
      destruct (existsb (GraphDefinition.joins s t) (GraphDefinition.edges g)) eqn:Ex.
      * rewrite (Hold eq_refl) in He. now apply IH.
      * rewrite (Hnew eq_refl) in He. apply in_app_or in He.
        destruct He as [He|[<-|[]]]; [now apply IH|]. simpl.
        split; eapply (wf_oids g W); apply objGet_In; eassumption.
    + destruct (addEdge_unknown a b g (or_intror Eb)) as (_ & _ & _ & E).
      rewrite E in He. now apply IH.
    + destruct (addEdge_unknown a b g (or_introl Ea)) as (_ & _ & _ & E).
      rewrite E in He. now apply IH.
  - simpl in *. now apply IH.
Qed.

(** X1.  [addNode] makes a new node object every time.  In a graph built
    through the interface the object registered by [addNode(id, w, h)]
    is no end of any edge and is none of the nodes under the other ids,
    also when [id] was a designer id before and edges were drawn for it:
    these keep the replaced object.  So after a following [initialize()]
    the new node has no neighbour. *)
Theorem addNode_again_unjoined (g : GraphDefinition.t) (id : string) (w h : R) :
  GraphDefinition.reachable g ->
  let g1 := GraphDefinition.addNode id w h g in
  exists n,
    objGet id (GraphDefinition.nodes g1) = Some n
    /\ GraphNode.designerId n = id /\ GraphNode.width n = w /\ GraphNode.height n = h
    /\ (forall e, In e (GraphDefinition.edges g1) ->
          GraphNode.same (GraphEdge.source e) n = false
          /\ GraphNode.same (GraphEdge.target e) n = false)
    /\ (forall k m, k <> id -> objGet k (GraphDefinition.nodes g1) = Some m ->
          GraphNode.same m n = false)
    /\ GraphNode.neightboors
         (GraphDefinition.heap (GraphDefinition.initialize g1) (GraphNode.oid n)) = [].
Proof.
  intros Hr g1. pose proof (reachable_wf g Hr) as W.
  exists (GraphNode.mk (GraphDefinition.nextOid g) id w h).
  assert (Hedges : forall e, In e (GraphDefinition.edges g1) ->
            GraphNode.same (GraphEdge.source e)
              (GraphNode.mk (GraphDefinition.nextOid g) id w h) = false
            /\ GraphNode.same (GraphEdge.target e)
                 (GraphNode.mk (GraphDefinition.nextOid g) id w h) = false).
  { intros e He. destruct (reachable_edge_oids g Hr e He) as [H1 H2].
    unfold GraphNode.same. simpl. split; apply Nat.eqb_neq; lia. }
  split; [apply objGet_objSet_same|]. split; [reflexivity|]. split; [reflexivity|].
  split; [reflexivity|]. split; [exact Hedges|]. split.
  - intros k m Hk Hm. simpl in Hm. rewrite objGet_objSet_other in Hm by congruence.
    apply objGet_In in Hm. pose proof (wf_oids g W k m Hm).
    unfold GraphNode.same. simpl. apply Nat.eqb_neq. lia.
  - destruct (GraphNode.neightboors _) as [|m rest] eqn:E; [reflexivity|]. exfalso.
    assert (Hr2 : GraphDefinition.reachable (GraphDefinition.initialize g1))
      by (subst g1; now repeat constructor).
    destruct (reachable_neightboors_incident _ Hr2 (GraphDefinition.nextOid g) m)
      as (e & He & Hinc).
    { simpl GraphNode.oid in E. rewrite E. now left. }
    destruct (Hedges e He) as [H1 H2]. unfold GraphNode.same in H1, H2. simpl in H1, H2.
    apply Nat.eqb_neq in H1. apply Nat.eqb_neq in H2.
    destruct Hinc as [[Ho _]|[Ho _]]; congruence.
Qed.

Lemma addNode_again_unjoined_witness :
  exists n,
    objGet "a"%string (GraphDefinition.nodes readdedGraph) = Some n
    /\ GraphNode.designerId n = "a"%string /\ GraphNode.width n = 2 /\ GraphNode.height n = 2
    /\ (forall e, In e (GraphDefinition.edges readdedGraph) ->
          GraphNode.same (GraphEdge.source e) n = false
          /\ GraphNode.same (GraphEdge.target e) n = false)
    /\ (forall k m, k <> "a"%string ->
          objGet k (GraphDefinition.nodes readdedGraph) = Some m ->
          GraphNode.same m n = false)
    /\ GraphNode.neightboors
         (GraphDefinition.heap (GraphDefinition.initialize readdedGraph) (GraphNode.oid n)) = [].
Proof.
  apply (addNode_again_unjoined
           (GraphDefinition.addEdge "a" "b"
              (GraphDefinition.addNode "b" 1 1
                 (GraphDefinition.addNode "a" 1 1 GraphDefinition.empty)))
           "a"%string 2 2).
  repeat constructor.
Defined.

(** *** A second initialize() *)

Lemma scanEdge_noop node st e :
  (GraphNode.same (GraphEdge.source e) node = true ->
   GraphNode.includes st node (GraphEdge.target e) = true) ->
  (GraphNode.same (GraphEdge.target e) node = true ->
   GraphNode.includes st node (GraphEdge.source e) = true) ->
  GraphDefinition.scanEdge node st e = st.
Proof.
  intros H1 H2. unfold GraphDefinition.scanEdge.
  assert (E1 : GraphNode.same (GraphEdge.source e) node
               && negb (GraphNode.includes st node (GraphEdge.target e)) = false).
  { destruct (GraphNode.same (GraphEdge.source e) node); [|reflexivity].
    now rewrite H1. }
  rewrite E1.
  destruct (GraphNode.same (GraphEdge.target e) node); [|reflexivity].
  now rewrite H2.
Qed.

Lemma scanEdges_noop node es st :
  (forall e, In e es ->
     (GraphNode.same (GraphEdge.source e) node = true ->
      GraphNode.includes st node (GraphEdge.target e) = true)
     /\ (GraphNode.same (GraphEdge.target e) node = true ->
         GraphNode.includes st node (GraphEdge.source e) = true)) ->
  fold_left (GraphDefinition.scanEdge node) es st = st.
Proof.
  induction es as [|e t IH]; simpl; intros H; [reflexivity|].
  rewrite scanEdge_noop by (apply H; now left). apply IH. intros e' He'. apply H. now right.
Qed.

Lemma includes_pointwise st st' node m :
  (forall o, st o = st' o) -> GraphNode.includes st node m = GraphNode.includes st' node m.
Proof. intros H. unfold GraphNode.includes. now rewrite H. Qed.

Lemma initializeNodes_noop es l :
  forall st0 st,
    (forall o, st o = st0 o) ->
    (forall x e, In x l -> In e es ->
       (GraphNode.same (GraphEdge.source e) x = true ->
        GraphNode.includes st0 x (GraphEdge.target e) = true)
       /\ (GraphNode.same (GraphEdge.target e) x = true ->
           GraphNode.includes st0 x (GraphEdge.source e) = true)) ->
    (forall x, In x l ->
       GraphNode.radius (st0 (GraphNode.oid x)) = Some (halfDiagonal x)) ->
    forall o, fold_left (GraphDefinition.initializeNode es) l st o = st0 o.
Proof.
  induction l as [|x t IH]; simpl; intros st0 st Heq Hinc Hrad o; [apply Heq|].
  apply IH; auto. clear o. intros o.
  unfold GraphDefinition.initializeNode.
  rewrite scanEdges_noop.
  - unfold GraphNode.initialize, GraphNode.update.
    destruct (Nat.eqb o (GraphNode.oid x)) eqn:E; [|apply Heq].
    apply Nat.eqb_eq in E. subst o. rewrite Heq.
    specialize (Hrad x (or_introl eq_refl)).
    destruct (st0 (GraphNode.oid x)) as [ns r]. simpl in *. now subst r.
  - intros e He. rewrite !(includes_pointwise st st0) by exact Heq.
    apply Hinc; [now left | exact He].
Qed.

(** X5.  [initialize()] touches neither the nodes nor the edges, and in a
    graph built through the interface a second [initialize()] right after
    the first changes no adjacency list and no radius. *)
Theorem initialize_again (g : GraphDefinition.t) :
  GraphDefinition.reachable g ->
  GraphDefinition.nodes (GraphDefinition.initialize g) = GraphDefinition.nodes g
  /\ GraphDefinition.edges (GraphDefinition.initialize g) = GraphDefinition.edges g
  /\ forall o,
       GraphDefinition.heap (GraphDefinition.initialize (GraphDefinition.initialize g)) o
       = GraphDefinition.heap (GraphDefinition.initialize g) o.
Proof.
  intros Hr. split; [reflexivity|]. split; [reflexivity|].
  pose proof (reachable_wf g Hr) as W.
  intros o. cbn [GraphDefinition.initialize GraphDefinition.heap GraphDefinition.nodes
                 GraphDefinition.edges].
  apply initializeNodes_noop; [reflexivity | |].
  - intros x e Hx He. now apply initializeNodes_includes.
  - intros x Hx. unfold objValues in Hx. apply in_map_iff in Hx.
    destruct Hx as [[k x'] [<- Hx]]. simpl.
    exact (initialize_radius g k x' W Hx).
Qed.

Lemma initialize_again_witness :
  GraphDefinition.reachable (GraphDefinition.addEdge "a" "b" twoGraph)
  /\ GraphDefinition.heap (GraphDefinition.initialize pairGraph) 0%nat
     = GraphDefinition.heap pairGraph 0%nat.
Proof.
  assert (Hr : GraphDefinition.reachable (GraphDefinition.addEdge "a" "b" twoGraph))
    by (repeat constructor).
  split; [exact Hr|].
  exact (proj2 (proj2 (initialize_again (GraphDefinition.addEdge "a" "b" twoGraph) Hr)) 0%nat).
Defined.

(** ** One relaxation step *)

Lemma ordinary_pair : ordinary (objKeys (GraphLayout.nodes pairLayout)).
Proof. intros k [<-|[<-|[]]]; reflexivity. Qed.





(** *** Springs and repulsion cancel out *)

Lemma total_objSet_found k v acc (o : ForceAlgorithmStep.forces) :
  objGet k o = Some acc ->
  Vector2D.add (total (objSet k v o)) acc = Vector2D.add (total o) v.
Proof.
  unfold total. induction o as [|[k' v'] t IH]; simpl; [discriminate|].
  destruct (String.eqb k k').
  - intros [= ->]. simpl. vec.
  - intros E. simpl. specialize (IH E). rewrite vadd_assoc, IH. vec.
Qed.

Lemma total_objSet_new k v (o : ForceAlgorithmStep.forces) :
  objGet k o = None -> total (objSet k v o) = Vector2D.add (total o) v.
Proof.
  unfold total. induction o as [|[k' v'] t IH]; simpl; [intros _; vec|].
  destruct (String.eqb k k'); [discriminate|].
  intros E. simpl. rewrite (IH E). vec.
Qed.

Lemma total_applyForce node force nodeForces :
  total (ForceAlgorithmStep.applyForce node force nodeForces)
  = Vector2D.add (total nodeForces) (ForceAlgorithmStep.clamp force).
Proof.
  unfold ForceAlgorithmStep.applyForce.
  destruct (objGet (LayoutNode.designerId node) nodeForces) as [acc|] eqn:E.
  - pose proof (total_objSet_found _ (Vector2D.add acc (ForceAlgorithmStep.clamp force))
                                    _ _ E) as H.
    apply vec_eq.
    + apply (f_equal Vector2D.x) in H. simpl in *. lra.
    + apply (f_equal Vector2D.y) in H. simpl in *. lra.
  - now apply total_objSet_new.
Qed.

Lemma magnitude_vopp v : Vector2D.magnitude (vopp v) = Vector2D.magnitude v.
Proof. unfold Vector2D.magnitude, vopp. simpl. f_equal. ring. Qed.

Lemma clamp_vopp force :
  ForceAlgorithmStep.clamp (vopp force) = vopp (ForceAlgorithmStep.clamp force).
Proof.
  unfold ForceAlgorithmStep.clamp. rewrite magnitude_vopp.
  destruct (Rgt_dec (Vector2D.magnitude force) MAX_FORCE_SIZE); [|reflexivity].
  unfold Vector2D.normalise. rewrite magnitude_vopp.
  apply vec_eq; simpl; unfold Rdiv; ring.
Qed.

Lemma total_opposite node1 node2 force nodeForces :
  total (ForceAlgorithmStep.applyForce node2 (vopp force)
           (ForceAlgorithmStep.applyForce node1 force nodeForces))
  = total nodeForces.
Proof. rewrite !total_applyForce, clamp_vopp. vec. Qed.

Lemma total_coulombVisit n1 nodeForces n2 :
  total (ForceAlgorithmStep.coulombVisit n1 nodeForces n2) = total nodeForces.
Proof.
  unfold ForceAlgorithmStep.coulombVisit.
  destruct (String.eqb (LayoutNode.designerId n1) (LayoutNode.designerId n2)); [reflexivity|].
  cbv zeta.
  match goal with
  | |- total (ForceAlgorithmStep.applyForce _ ?b (ForceAlgorithmStep.applyForce _ ?a _)) = _ =>
      replace b with (vopp a) by (apply vec_eq; simpl; unfold Rdiv; ring)
  end.
  apply total_opposite.
Qed.

Lemma total_hookeVisit nodeForces edge :
  total (ForceAlgorithmStep.hookeVisit nodeForces edge) = total nodeForces.
Proof.
  unfold ForceAlgorithmStep.hookeVisit. cbv zeta.
  match goal with
  | |- total (ForceAlgorithmStep.applyForce _ ?b (ForceAlgorithmStep.applyForce _ ?a _)) = _ =>
      replace b with (vopp a) by (apply vec_eq; simpl; unfold Rdiv; ring)
  end.
  apply total_opposite.
Qed.

Lemma total_applyHooksLaw es :
  forall nodeForces, total (ForceAlgorithmStep.applyHooksLaw es nodeForces) = total nodeForces.
Proof.
  unfold ForceAlgorithmStep.applyHooksLaw.
  induction es as [|e t IH]; simpl; intros F; [reflexivity|].
  now rewrite IH, total_hookeVisit.
Qed.

Lemma total_coulombRow n1 vs :
  forall nodeForces,
    total (fold_left (ForceAlgorithmStep.coulombVisit n1) vs nodeForces) = total nodeForces.
Proof.
  induction vs as [|n2 t IH]; simpl; intros F; [reflexivity|].
  now rewrite IH, total_coulombVisit.
Qed.

Lemma total_coulombRows vs rows :
  forall nodeForces,
    total (fold_left (fun nodeForces n1 =>
                        fold_left (ForceAlgorithmStep.coulombVisit n1) vs nodeForces)
                     rows nodeForces)
    = total nodeForces.
Proof.
  induction rows as [|n1 t IH]; simpl; intros F; [reflexivity|].
  now rewrite IH, total_coulombRow.
Qed.

Lemma total_applyCoulombsLaw ns :
  forall nodeForces, total (ForceAlgorithmStep.applyCoulombsLaw ns nodeForces) = total nodeForces.
Proof. intros F. apply total_coulombRows. Qed.

Lemma total_applyGravity vs :
  forall nodeForces,
    total (fold_left ForceAlgorithmStep.gravityVisit vs nodeForces)
    = Vector2D.add (total nodeForces) (vsum (map gravityForce vs)).
Proof.
  induction vs as [|n t IH]; simpl; intros F; [now rewrite vadd_zero_r|].
  rewrite IH. unfold ForceAlgorithmStep.gravityVisit. rewrite total_applyForce.
  unfold gravityForce. now rewrite vadd_assoc.
Qed.

(** X7.  Springs and repulsion push and pull in opposite pairs: whatever
    the accumulator held before, [applyHooksLaw] and [applyCoulombsLaw]
    leave the sum of all its forces unchanged, so the forces of one
    relaxation step add up to the gravity forces of the nodes alone.
    (Vectors as in the embedding: exact arithmetic.) *)
Theorem springs_and_repulsion_cancel :
  (forall layoutEdges nodeForces,
     total (ForceAlgorithmStep.applyHooksLaw layoutEdges nodeForces) = total nodeForces)
  /\ (forall layoutNodes nodeForces,
        total (ForceAlgorithmStep.applyCoulombsLaw layoutNodes nodeForces) = total nodeForces)
  /\ (forall l,
        total (GraphLayout.stepForces l)
        = vsum (map gravityForce (objValues (GraphLayout.nodes l)))).
Proof.
  split; [intros; apply total_applyHooksLaw|].
  split; [intros; apply total_applyCoulombsLaw|].
  intros l. unfold GraphLayout.stepForces, ForceAlgorithmStep.applyGravity.
  rewrite total_applyGravity, total_applyCoulombsLaw, total_applyHooksLaw.
  unfold total. simpl. now rewrite vadd_zero_l.
Qed.

(** ** fixViewBox *)

Lemma lodashMin_spec {A : Type} (f : A -> R) (l : list A) (m : R) :
  lodashMin (map (fun n => Some (f n)) l) = Some m ->
  (exists a, In a l /\ f a = m) /\ forall a, In a l -> m <= f a.
Proof.
  revert m. induction l as [|a t IH]; simpl; intros m; [discriminate|].
  destruct (lodashMin (map (fun n => Some (f n)) t)) as [m'|] eqn:E.
  - intros [= <-]. destruct (IH m' eq_refl) as [[b [Hb Eb]] Hlow]. split.
    + unfold Rmin. destruct (Rle_dec (f a) m').
      * exists a. auto.
      * exists b. auto.
    + intros c [<-|Hc].
      * apply Rmin_l.
      * eapply Rle_trans; [apply Rmin_r | now apply Hlow].
  - intros [= <-]. destruct t as [|b t]; [|simpl in E; destruct (lodashMin _); discriminate].
    split; [exists a; auto|]. intros c [<-|[]]. lra.
Qed.

Lemma lodashMin_shift {A : Type} (f g : A -> R) (c : R) (l : list A) :
  (forall a, In a l -> g a = f a + c) ->
  lodashMin (map (fun n => Some (g n)) l)
  = option_map (fun m => m + c) (lodashMin (map (fun n => Some (f n)) l)).
Proof.
  induction l as [|a t IH]; simpl; intros H; [reflexivity|].
  rewrite IH by auto. rewrite (H a) by auto.
  destruct (lodashMin (map (fun n => Some (f n)) t)); simpl; [|reflexivity].
  f_equal. unfold Rmin.
  destruct (Rle_dec (f a + c) (r + c)), (Rle_dec (f a) r); lra.
Qed.

Lemma objValues_objMapValues {V W : Type} (f : V -> W) (o : list (string * V)) :
  objValues (objMapValues f o) = map f (objValues o).
Proof. unfold objValues, objMapValues. rewrite !map_map. reflexivity. Qed.

Lemma objMapValues_same {V : Type} (f : V -> V) (o : list (string * V)) :
  (forall v, In v (objValues o) -> f v = v) -> objMapValues f o = o.
Proof.
  unfold objMapValues, objValues. induction o as [|[k v] t IH]; simpl; intros H; [reflexivity|].
  rewrite (H v) by auto. rewrite IH by auto. reflexivity.
Qed.

(** X8.  [fixViewBox] on a produced layout with at least one node shifts
    all nodes by one common vector and keeps their graph nodes; afterwards
    no node begins left of 50 or above 50, some node begins at left 50 and
    some node at top 50.  A second [fixViewBox] changes nothing. *)
Theorem fixViewBox_normalises (l : GraphLayout.t) :
  produced l -> GraphLayout.nodes l <> [] ->
  exists l' dx dy,
    GraphLayout.fixViewBox l = Ok l'
    /\ GraphLayout.nodes l'
       = objMapValues (fun n => LayoutNode.translate n dx dy) (GraphLayout.nodes l)
    /\ (forall n, In n (objValues (GraphLayout.nodes l')) ->
          50 <= LayoutNode.left n /\ 50 <= LayoutNode.top n)
    /\ (exists n, In n (objValues (GraphLayout.nodes l')) /\ LayoutNode.left n = 50)
    /\ (exists n, In n (objValues (GraphLayout.nodes l')) /\ LayoutNode.top n = 50)
    /\ GraphLayout.fixViewBox l' = Ok l'.
Proof.
  intros Hp Hne. pose proof (produced_sound l Hp) as Hs.
  assert (Hv : objValues (GraphLayout.nodes l) <> []).
  { unfold objValues. destruct (GraphLayout.nodes l); [congruence | discriminate]. }
  destruct (lodashMin_nonempty LayoutNode.left _ Hv) as [minX EX].
  destruct (lodashMin_nonempty LayoutNode.top _ Hv) as [minY EY].
  destruct (changePositions_sound
              (fun n => LayoutNode.translate n (- minX + 50) (- minY + 50)) l Hs
              (fun n => eq_refl)) as (l' & E & Hs' & Hg & En).
  assert (EX' : lodashMin (map (fun n => Some (LayoutNode.left n))
                               (objValues (GraphLayout.nodes l'))) = Some 50).
  { rewrite En, objValues_objMapValues, map_map.
    rewrite (lodashMin_shift LayoutNode.left
               (fun n => LayoutNode.left (LayoutNode.translate n (- minX + 50) (- minY + 50)))
               (- minX + 50))
      by (intros; unfold LayoutNode.left, LayoutNode.translate; simpl; lra).
    rewrite EX. simpl. f_equal. lra. }
  assert (EY' : lodashMin (map (fun n => Some (LayoutNode.top n))
                               (objValues (GraphLayout.nodes l'))) = Some 50).
  { rewrite En, objValues_objMapValues, map_map.
    rewrite (lodashMin_shift LayoutNode.top
               (fun n => LayoutNode.top (LayoutNode.translate n (- minX + 50) (- minY + 50)))
               (- minY + 50))
      by (intros; unfold LayoutNode.top, LayoutNode.translate; simpl; lra).
    rewrite EY. simpl. f_equal. lra. }
  destruct (lodashMin_spec _ _ _ EX') as [HX1 HX2].
  destruct (lodashMin_spec _ _ _ EY') as [HY1 HY2].
  exists l', (- minX + 50), (- minY + 50).
  split; [unfold GraphLayout.fixViewBox; now rewrite EX, EY|].
  split; [exact En|].
  split; [intros n Hn; split; auto|].
  split; [exact HX1|].
  split; [exact HY1|].
  unfold GraphLayout.fixViewBox. rewrite EX', EY'. unfold GraphLayout.changePositions.
  rewrite objMapValues_same.
  - exact (sound_edges l' Hs').
  - intros [nd px py] _. unfold LayoutNode.translate. simpl. f_equal; lra.
Qed.

Lemma fixViewBox_normalises_witness :
  exists l' dx dy,
    GraphLayout.fixViewBox pairLayout = Ok l'
    /\ GraphLayout.nodes l'
       = objMapValues (fun n => LayoutNode.translate n dx dy) (GraphLayout.nodes pairLayout)
    /\ (forall n, In n (objValues (GraphLayout.nodes l')) ->
          50 <= LayoutNode.left n /\ 50 <= LayoutNode.top n)
    /\ (exists n, In n (objValues (GraphLayout.nodes l')) /\ LayoutNode.left n = 50)
    /\ (exists n, In n (objValues (GraphLayout.nodes l')) /\ LayoutNode.top n = 50)
    /\ GraphLayout.fixViewBox l' = Ok l'.
Proof.
  apply (fixViewBox_normalises pairLayout pair_produced). discriminate.
Defined.

(** ** The refinement step *)

Lemma changePositions_nodes nodeFunc l item :
  sound l ->
  (forall n, LayoutNode.designerId (nodeFunc n) = LayoutNode.designerId n) ->
  GraphLayout.changePositions nodeFunc l = Ok item ->
  sound item
  /\ GraphLayout.graph item = GraphLayout.graph l
  /\ GraphLayout.nodes item = objMapValues nodeFunc (GraphLayout.nodes l).
Proof.
  intros Hs Hid E.
  destruct (changePositions_sound nodeFunc l Hs Hid) as (l' & E' & H).
  rewrite E in E'. injection E' as <-. exact H.
Qed.

Lemma moveOnly_lookup l node d k :
  sound l -> In node (objValues (GraphLayout.nodes l)) ->
  objGet k (objMapValues (GraphLayout.moveOnly node d) (GraphLayout.nodes l))
  = if String.eqb k (LayoutNode.designerId node)
    then Some (LayoutNode.translate node (fst d) (snd d))
    else objGet k (GraphLayout.nodes l).
Proof.
  intros Hs Hin. rewrite objGet_objMapValues.
  unfold objValues in Hin. apply in_map_iff in Hin. destruct Hin as [[k0 n0] [E0 Hin]].
  simpl in E0. subst n0.
  pose proof (sound_ids l Hs _ _ Hin) as Hid.
  pose proof (In_objGet _ _ _ (sound_NoDup l Hs) Hin) as Hget.
  destruct (String.eqb k (LayoutNode.designerId node)) eqn:E.
  - apply String.eqb_eq in E. rewrite E, Hid, Hget. simpl.
    unfold GraphLayout.moveOnly, LayoutNode.same. now rewrite String.eqb_refl.
  - destruct (objGet k (GraphLayout.nodes l)) as [x|] eqn:Ex; [|reflexivity].
    simpl. destruct (sound_objGet l k x Hs Ex) as [Hx _].
    unfold GraphLayout.moveOnly, LayoutNode.same. now rewrite Hx, E.
Qed.

(** X9.  For a node of a produced layout [tryMoveNode] answers eight
    layouts over the same graph, one for each of the moves (20, 0),
    (-20, 0), (0, 20), (0, -20), (70, 70), (70, -70), (-70, 70),
    (-70, -70) and in this order: the node is shifted by the move, every
    other node stays where it was. *)
Theorem tryMoveNode_candidates (l : GraphLayout.t) (node : LayoutNode.t) :
  produced l -> In node (objValues (GraphLayout.nodes l)) ->
  exists items,
    GraphLayout.tryMoveNode l node = Ok items
    /\ Forall2
         (fun d item =>
            GraphLayout.graph item = GraphLayout.graph l
            /\ objKeys (GraphLayout.nodes item) = objKeys (GraphLayout.nodes l)
            /\ objGet (LayoutNode.designerId node) (GraphLayout.nodes item)
               = Some (LayoutNode.translate node (fst d) (snd d))
            /\ forall k, k <> LayoutNode.designerId node ->
                 objGet k (GraphLayout.nodes item) = objGet k (GraphLayout.nodes l))
         [ (20, 0); (-20, 0); (0, 20); (0, -20); (70, 70); (70, -70); (-70, 70); (-70, -70) ]
         items.
Proof.
  intros Hp Hin. pose proof (produced_sound l Hp) as Hs.
  destruct (tryMoveNode_shape l node Hs) as (items & E & _ & _).
  exists items. split; [exact E|].
  unfold GraphLayout.tryMoveNode in E. apply mapM_Forall2 in E.
  change [ (20, 0); (-20, 0); (0, 20); (0, -20); (70, 70); (70, -70); (-70, 70); (-70, -70) ]
    with GraphLayout.moves.
  eapply Forall2_impl; [|exact E]. intros d item Hd.
  destruct (changePositions_nodes _ l item Hs (moveOnly_id node d) Hd) as (_ & Hg & Hn).
  split; [exact Hg|]. split; [rewrite Hn; apply objKeys_objMapValues|].
  rewrite Hn. split.
  - rewrite (moveOnly_lookup l node d _ Hs Hin). now rewrite String.eqb_refl.
  - intros k Hk. rewrite (moveOnly_lookup l node d _ Hs Hin).
    apply String.eqb_neq in Hk. now rewrite Hk.
Qed.

Lemma tryMoveNode_candidates_witness :
  exists items,
    GraphLayout.tryMoveNode pairLayout pairPlacedA = Ok items
    /\ Forall2
         (fun d item =>
            GraphLayout.graph item = GraphLayout.graph pairLayout
            /\ objKeys (GraphLayout.nodes item) = objKeys (GraphLayout.nodes pairLayout)
            /\ objGet (LayoutNode.designerId pairPlacedA) (GraphLayout.nodes item)
               = Some (LayoutNode.translate pairPlacedA (fst d) (snd d))
            /\ forall k, k <> LayoutNode.designerId pairPlacedA ->
                 objGet k (GraphLayout.nodes item) = objGet k (GraphLayout.nodes pairLayout))
         [ (20, 0); (-20, 0); (0, 20); (0, -20); (70, 70); (70, -70); (-70, 70); (-70, -70) ]
         items.
Proof.
  apply (tryMoveNode_candidates pairLayout pairPlacedA pair_produced).
  simpl. now left.
Defined.

(** *** tryMoveElement picks a candidate of least score *)

Lemma least_iff (P Q : GraphLayout.t -> Prop) best :
  (forall x, P x <-> Q x) -> least P best -> least Q best.
Proof.
  intros HPQ. unfold least. destruct best as [[b sb]|].
  - intros (Hb & Hsb & Hmin). split; [now apply HPQ|]. split; [exact Hsb|].
    intros item s s' Hi. apply Hmin. now apply HPQ.
  - intros H item Hi. apply (H item). now apply HPQ.
Qed.

Lemma consider_least (P : GraphLayout.t -> Prop) best item :
  least P best -> least (fun x => P x \/ x = item) (GraphLayout.consider best item).
Proof.
  unfold GraphLayout.consider, least. destruct best as [[b sb]|].
  - intros (Hb & Hsb & Hmin).
    destruct (GraphLayout.scoreLt (GraphLayout.score item) sb) eqn:E.
    + split; [now right|]. split; [reflexivity|].
      intros x s s' [Hx| ->] Es Es'; [|rewrite Es in Es'; injection Es' as <-; lra].
      rewrite Es, Hsb in E. unfold GraphLayout.scoreLt in E.
      destruct (GraphLayout.score b) as [v|] eqn:Eb; [|discriminate].
      destruct (Rlt_dec s v); [|discriminate].
      pose proof (Hmin x v s' Hx eq_refl Es'). lra.
    + split; [now left|]. split; [exact Hsb|].
      intros x s s' [Hx| ->] Es Es'; [now apply (Hmin x)|].
      rewrite Es', Hsb, Es in E. unfold GraphLayout.scoreLt in E.
      destruct (Rlt_dec s' s); [discriminate | lra].
  - intros Hnone. split; [now right|]. split; [reflexivity|].
    intros x s s' [Hx| ->] Es Es'; [now destruct (Hnone x)|].
    rewrite Es in Es'. injection Es' as <-. lra.
Qed.

Lemma consider_fold_least items :
  forall (P : GraphLayout.t -> Prop) best,
    least P best ->
    least (fun x => P x \/ In x items) (fold_left GraphLayout.consider items best).
Proof.
  induction items as [|item t IH]; simpl; intros P best H.
  - eapply least_iff; [|exact H]. intros x. tauto.
  - eapply least_iff; [|apply IH; apply consider_least; exact H].
    intros x. simpl. split; [intros [[Hx|Hx]|Hx] | intros [Hx|[Hx|Hx]]]; auto.
Qed.

Lemma tryMoveLoop_least l vs :
  forall (P : GraphLayout.t -> Prop) best best',
    least P best ->
    GraphLayout.tryMoveLoop l vs best = Ok best' ->
    least (fun x => P x \/ exists node items,
                      In node vs /\ GraphLayout.tryMoveNode l node = Ok items /\ In x items)
          best'.
Proof.
  induction vs as [|node t IH]; simpl; intros P best best' H E.
  - injection E as <-. eapply least_iff; [|exact H].
    intros x. split; [auto | intros [Hx|(n & its & [] & _)]; exact Hx].
  - destruct (GraphLayout.tryMoveNode l node) as [items|e] eqn:Ei; [|discriminate].
    cbn [bind] in E.
    pose proof (IH _ _ _ (consider_fold_least items P best H) E) as H'.
    eapply least_iff; [|exact H']. intros x. split.
    + intros [[Hx|Hx]|(n & its & Hn & En & Hx)].
      * now left.
      * right. exists node, items. auto.
      * right. exists n, its. auto.
    + intros [Hx|(n & its & [<-|Hn] & En & Hx)].
      * left. now left.
      * rewrite Ei in En. injection En as <-. left. now right.
      * right. exists n, its. auto.
Qed.

(** X10.  On a produced layout with at least one node [tryMoveElement]
    answers one of the layouts [tryMoveNode] offers for the nodes of the
    layout, and none of these layouts has a lower score. *)
Theorem tryMoveElement_least (l : GraphLayout.t) :
  produced l -> GraphLayout.nodes l <> [] ->
  exists r s,
    GraphLayout.tryMoveElement l = Ok (Some r)
    /\ candidate l r
    /\ GraphLayout.score r = Some s
    /\ forall item, candidate l item ->
         exists s', GraphLayout.score item = Some s' /\ s <= s'.
Proof.
  intros Hp Hne. pose proof (produced_sound l Hp) as Hs.
  destruct (tryMoveElement_total l Hs) as (next & E & Hshape & Hsome & _).
  destruct next as [r|]; [|exfalso; now apply Hsome].
  assert (Hr : GraphLayout.nodes r <> [])
    by (eapply sameShape_nonempty; [apply Hshape; reflexivity | exact Hne]).
  destruct (score_nonempty r Hr) as [s Es].
  exists r, s. split; [exact E|].
  unfold GraphLayout.tryMoveElement in E.
  destruct (GraphLayout.tryMoveLoop l (objValues (GraphLayout.nodes l)) None)
    as [best|e] eqn:El; [|discriminate].
  cbn [bind] in E.
  assert (H0 : least (fun _ => False) None) by (intros x Hx; exact Hx).
  pose proof (tryMoveLoop_least l _ _ _ _ H0 El) as H.
  destruct best as [[b sb]|]; [|discriminate].
  injection E as ->. destruct H as (Hb & _ & Hmin).
  assert (Hiff : forall x,
             (False \/ exists node items,
                 In node (objValues (GraphLayout.nodes l))
                 /\ GraphLayout.tryMoveNode l node = Ok items /\ In x items)
             -> candidate l x) by (intros x [[]|Hx]; exact Hx).
  split; [now apply Hiff|]. split; [exact Es|].
  intros item Hc. destruct Hc as (node & items & Hn & Ei & Hi).
  destruct (tryMoveNode_shape l node Hs) as (items' & Ei' & _ & Hsh).
  rewrite Ei in Ei'. injection Ei' as <-.
  assert (Hitem : GraphLayout.nodes item <> [])
    by (eapply sameShape_nonempty; [apply Hsh; exact Hi | exact Hne]).
  destruct (score_nonempty item Hitem) as [s' Es'].
  exists s'. split; [exact Es'|].
  apply (Hmin item s s'); [|exact Es | exact Es'].
  right. exists node, items. auto.
Qed.

Lemma tryMoveElement_least_witness :
  exists r s,
    GraphLayout.tryMoveElement pairLayout = Ok (Some r)
    /\ candidate pairLayout r
    /\ GraphLayout.score r = Some s
    /\ forall item, candidate pairLayout item ->
         exists s', GraphLayout.score item = Some s' /\ s <= s'.
Proof.
  apply (tryMoveElement_least pairLayout pair_produced). discriminate.
Defined.

(** ** doMoveSteps *)

Lemma accepted_drop k l r :
  accepted k l r ->
  forall s, GraphLayout.score l = Some s ->
    exists sr, GraphLayout.score r = Some sr /\ sr + INR k <= s.
Proof.
  induction 1 as [l|k l l1 r s0 s1 Et Es Es1 Hgain Hacc IH]; intros s Hs.
  - exists s. split; [exact Hs | simpl; lra].
  - rewrite Es in Hs. injection Hs as <-.
    destruct (IH s1 Es1) as (sr & Er & Hle).
    exists sr. split; [exact Er|]. rewrite S_INR.
    unfold MINIMAL_SCORE_BENEFIT in Hgain. lra.
Qed.

(** X11.  On a produced layout with at least one node [doMoveSteps] never
    answers a layout that scores worse: it answers the layout it was given
    or a layout whose score is lower by at least 1. *)
Theorem doMoveSteps_never_worse (l : GraphLayout.t) :
  produced l -> GraphLayout.nodes l <> [] ->
  exists r s sr,
    GraphLayout.doMoveSteps l = Ok r
    /\ GraphLayout.score l = Some s
    /\ GraphLayout.score r = Some sr
    /\ (r = l \/ sr + 1 <= s).
Proof.
  intros Hp Hne. pose proof (produced_sound l Hp) as Hs.
  destruct (doMoveLoop_run MOVE_STEP_COUNT l Hs Hne) as (k & r & _ & Hrun & Hacc & _).
  destruct (score_nonempty l Hne) as [s Es].
  destruct (accepted_drop k l r Hacc s Es) as (sr & Er & Hle).
  exists r, s, sr. split; [exact Hrun|]. split; [exact Es|]. split; [exact Er|].
  destruct k as [|k].
  - left. inversion Hacc. reflexivity.
  - right. rewrite S_INR in Hle. pose proof (pos_INR k). lra.
Qed.

Lemma doMoveSteps_never_worse_witness :
  exists r s sr,
    GraphLayout.doMoveSteps pairLayout = Ok r
    /\ GraphLayout.score pairLayout = Some s
    /\ GraphLayout.score r = Some sr
    /\ (r = pairLayout \/ sr + 1 <= s).
Proof.
  apply (doMoveSteps_never_worse pairLayout pair_produced). discriminate.
Defined.

(** *** A single node *)

Lemma score_single g k n es :
  GraphLayout.score (GraphLayout.mk g [(k, n)] es)
  = Some (GraphNode.width (LayoutNode.node n) + GraphNode.height (LayoutNode.node n)).
Proof.
  unfold GraphLayout.score, GraphLayout.overlap. simpl. rewrite String.eqb_refl.
  f_equal. unfold LayoutNode.left, LayoutNode.right, LayoutNode.top, LayoutNode.bottom. lra.
Qed.

Lemma single_candidate l k n item :
  sound l -> GraphLayout.nodes l = [(k, n)] -> candidate l item ->
  exists d, GraphLayout.nodes item = [(k, LayoutNode.translate n (fst d) (snd d))].
Proof.
  intros Hs En (node & items & Hin & Ei & Hi).
  rewrite En in Hin. simpl in Hin. destruct Hin as [<-|[]].
  unfold GraphLayout.tryMoveNode in Ei.
  destruct (mapM_In _ _ _ _ Ei Hi) as (d & _ & Ed).
  destruct (changePositions_nodes _ l item Hs (moveOnly_id n d) Ed) as (_ & _ & Hn).
  exists d. rewrite Hn, En. simpl.
  unfold GraphLayout.moveOnly, LayoutNode.same. now rewrite String.eqb_refl.
Qed.

Lemma score_nodes l l' :
  GraphLayout.nodes l = GraphLayout.nodes l' -> GraphLayout.score l = GraphLayout.score l'.
Proof. intros E. unfold GraphLayout.score. now rewrite E. Qed.

Lemma single_createCircle :
  GraphLayout.createCircle (GraphDefinition.initialize singleGraph) = Ok singleLayout.
Proof. reflexivity. Qed.

Lemma single_produced : produced singleLayout.
Proof.
  apply (produced_circle (GraphDefinition.initialize singleGraph));
    [repeat constructor | apply single_createCircle].
Qed.

(** X12.  A produced layout with a single node comes back from
    [doMoveSteps] as it went in: every candidate of the first step has the
    score of the layout itself, the width plus the height of the node, so
    the first step gains nothing. *)
Theorem doMoveSteps_single_node (l : GraphLayout.t) (k : string) (n : LayoutNode.t) :
  produced l -> GraphLayout.nodes l = [(k, n)] ->
  GraphLayout.score l
  = Some (GraphNode.width (LayoutNode.node n) + GraphNode.height (LayoutNode.node n))
  /\ (forall item, candidate l item -> GraphLayout.score item = GraphLayout.score l)
  /\ GraphLayout.doMoveSteps l = Ok l.
Proof.
  intros Hp En. pose proof (produced_sound l Hp) as Hs.
  assert (Hsc : GraphLayout.score l
                = Some (GraphNode.width (LayoutNode.node n)
                        + GraphNode.height (LayoutNode.node n))).
  { rewrite (score_nodes l (GraphLayout.mk (GraphLayout.graph l) [(k, n)] [])) by exact En.
    apply score_single. }
  assert (Hc : forall item, candidate l item -> GraphLayout.score item = GraphLayout.score l).
  { intros item Hi. destruct (single_candidate l k n item Hs En Hi) as [d Hd].
    rewrite (score_nodes item (GraphLayout.mk (GraphLayout.graph l)
                                 [(k, LayoutNode.translate n (fst d) (snd d))] []))
      by exact Hd.
    rewrite score_single, Hsc. reflexivity. }
  split; [exact Hsc|]. split; [exact Hc|].
  assert (Hne : GraphLayout.nodes l <> []) by (rewrite En; discriminate).
  destruct (tryMoveElement_total l Hs) as (next & E & Hshape & Hsome & _).
  destruct next as [r|]; [|exfalso; now apply Hsome].
  assert (Hr : candidate l r).
  { unfold GraphLayout.tryMoveElement in E.
    destruct (GraphLayout.tryMoveLoop l (objValues (GraphLayout.nodes l)) None)
      as [best|e] eqn:El; [|discriminate].
    cbn [bind] in E.
    assert (H0 : least (fun _ => False) None) by (intros x Hx; exact Hx).
    pose proof (tryMoveLoop_least l _ _ _ _ H0 El) as H.
    destruct best as [[b sb]|]; [|discriminate].
    injection E as ->. destruct H as ([[]|Hb] & _). exact Hb. }
  unfold GraphLayout.doMoveSteps, MOVE_STEP_COUNT. cbn [GraphLayout.doMoveLoop].
  rewrite E. cbn [bind]. rewrite (Hc r Hr), Hsc.
  unfold GraphLayout.tooSmall, MINIMAL_SCORE_BENEFIT.
  destruct (Rlt_dec _ _) as [_|Hge]; [reflexivity | exfalso; apply Hge; lra].
Qed.

Lemma doMoveSteps_single_node_witness :
  GraphLayout.score singleLayout = Some (3 + 4)
  /\ (forall item, candidate singleLayout item ->
        GraphLayout.score item = GraphLayout.score singleLayout)
  /\ GraphLayout.doMoveSteps singleLayout = Ok singleLayout.
Proof.
  exact (doMoveSteps_single_node singleLayout "a"%string singlePlaced
           single_produced eq_refl).
Defined.

(** ** Where the circle starts *)







Section CircleStart.
Variable K : list string.
Variable st : GraphNode.store.
Hypothesis closed :
  forall o m, In m (GraphNode.neightboors (st o)) -> In (GraphNode.designerId m) K.


End CircleStart.



(** ** The whole chain *)

Lemma springySteps_total steps :
  forall l, sound l -> ordinary (objKeys (GraphLayout.nodes l)) ->
    exists l', GraphLayout.springySteps steps l = Ok l' /\ sameShape l l'.
Proof.
  induction steps as [|k IH]; simpl; intros l S Ho.
  - exists l. split; [reflexivity|]. split; [assumption|]. split; reflexivity.
  - destruct (springyStep_total l S Ho) as (l1 & E & S1 & G1 & K1). rewrite E. cbn [bind].
    destruct (IH l1 S1) as (l' & E' & S' & G' & K'); [now rewrite K1|].
    exists l'. split; [assumption|]. split; [assumption|]. split; congruence.
Qed.

(** X14.  For a graph built through the interface with at least one
    node, initialised last, in which no designer id is the name of an
    inherited member and no edge has such a member at an end, the chain
    [createCircle], [springyAlg], [doMoveSteps], [fixViewBox] runs
    through without raising; every layout on the way is over this graph
    and holds its designer ids in the order of the circle. *)
Theorem layout_chain_runs (g0 : GraphDefinition.t) :
  GraphDefinition.reachable g0 -> GraphDefinition.nodes g0 <> [] ->
  ordinary (objKeys (GraphDefinition.nodes g0)) ->
  GraphDefinition.strays g0 = [] ->
  let g := GraphDefinition.initialize g0 in
  exists l1 l2 l3 l4,
    GraphLayout.createCircle g = Ok l1
    /\ GraphLayout.springyAlg l1 = Ok l2
    /\ GraphLayout.doMoveSteps l2 = Ok l3
    /\ GraphLayout.fixViewBox l3 = Ok l4
    /\ GraphLayout.graph l1 = g /\ GraphLayout.graph l2 = g
    /\ GraphLayout.graph l3 = g /\ GraphLayout.graph l4 = g
    /\ Permutation (objKeys (GraphLayout.nodes l1)) (objKeys (GraphDefinition.nodes g0))
    /\ objKeys (GraphLayout.nodes l2) = objKeys (GraphLayout.nodes l1)
    /\ objKeys (GraphLayout.nodes l3) = objKeys (GraphLayout.nodes l1)
    /\ objKeys (GraphLayout.nodes l4) = objKeys (GraphLayout.nodes l1).
Proof.
  intros Hr Hne Hord _ g.
  assert (W : wf g) by (apply wf_initialize, reachable_wf, Hr).
  assert (Hi : initialized g) by (apply initialize_initialized, reachable_wf, Hr).
  destruct (createCircle_nonempty g W Hi Hne) as (order & nodeRadius & es & _ & _ & _ & _ & E1).
  set (l1 := GraphLayout.mk g _ es) in E1.
  pose proof (createCircle_sound g l1 W E1) as S1.
  assert (O1 : ordinary (objKeys (GraphLayout.nodes l1))).
  { intros k Hk. apply Hord.
    eapply Permutation_in; [exact (sound_keys l1 S1) | exact Hk]. }
  destruct (springySteps_total SPRINGY_STEPS l1 S1 O1) as (l2 & E2 & S2 & G2 & K2).
  assert (Hne1 : GraphLayout.nodes l1 <> []).
  { intros H. pose proof (sound_keys l1 S1) as P. rewrite H in P. simpl in P.
    apply Permutation_nil in P. unfold objKeys in P. apply map_eq_nil in P.
    now apply Hne. }
  assert (Hne2 : GraphLayout.nodes l2 <> []).
  { eapply sameShape_nonempty; [|exact Hne1]. unfold sameShape. auto. }
  destruct (doMoveLoop_run MOVE_STEP_COUNT l2 S2 Hne2) as (k & l3 & _ & E3 & _ & _).
  destruct (doMoveLoop_sound _ _ _ _ S2 E3) as (S3 & G3 & K3).
  destruct (fixViewBox_shape l3 S3) as (l4 & E4 & S4 & G4 & K4).
  exists l1, l2, l3, l4.
  split; [exact E1|]. split; [exact E2|]. split; [exact E3|]. split; [exact E4|].
  split; [reflexivity|]. split; [exact G2|].
  split; [now rewrite G3|]. split; [now rewrite G4, G3|].
  split; [exact (sound_keys l1 S1)|]. split; [exact K2|].
  split; [now rewrite K3|]. now rewrite K4, K3.
Qed.

Lemma layout_chain_runs_witness :
  exists l1 l2 l3 l4,
    GraphLayout.createCircle pairGraph = Ok l1
    /\ GraphLayout.springyAlg l1 = Ok l2
    /\ GraphLayout.doMoveSteps l2 = Ok l3
    /\ GraphLayout.fixViewBox l3 = Ok l4
    /\ GraphLayout.graph l1 = pairGraph /\ GraphLayout.graph l2 = pairGraph
    /\ GraphLayout.graph l3 = pairGraph /\ GraphLayout.graph l4 = pairGraph
    /\ Permutation (objKeys (GraphLayout.nodes l1))
                   (objKeys (GraphDefinition.nodes (GraphDefinition.addEdge "a" "b" twoGraph)))
    /\ objKeys (GraphLayout.nodes l2) = objKeys (GraphLayout.nodes l1)
    /\ objKeys (GraphLayout.nodes l3) = objKeys (GraphLayout.nodes l1)
    /\ objKeys (GraphLayout.nodes l4) = objKeys (GraphLayout.nodes l1).
Proof.
  apply (layout_chain_runs (GraphDefinition.addEdge "a" "b" twoGraph));
    [repeat constructor | discriminate | exact ordinary_pair | reflexivity].
Defined.

(** ** A layout that misses a node of an edge *)






(** ** A node on its own *)

Lemma gravity_small n :
  Vector2D.magnitude (LayoutNode.position n) <= 10000 ->
  ForceAlgorithmStep.clamp
    (Vector2D.multiply (Vector2D.multiply (LayoutNode.position n) (-1)) GRAVITY)
  = Vector2D.multiply (Vector2D.multiply (LayoutNode.position n) (-1)) GRAVITY.
Proof.
  intros H. apply clamp_small.
  replace (Vector2D.multiply (LayoutNode.position n) (-1)) with (vopp (LayoutNode.position n))
    by (apply vec_eq; simpl; ring).
  rewrite magnitude_multiply by (unfold GRAVITY; lra).
  rewrite magnitude_vopp. unfold GRAVITY, MAX_FORCE_SIZE. lra.
Qed.

Lemma lone_stepForces g k n :
  Vector2D.magnitude (LayoutNode.position n) <= 10000 ->
  GraphLayout.stepForces (GraphLayout.mk g [(k, n)] [])
  = [(LayoutNode.designerId n,
      Vector2D.multiply (Vector2D.multiply (LayoutNode.position n) (-1)) GRAVITY)].
Proof.
  intros H.
  unfold GraphLayout.stepForces, ForceAlgorithmStep.applyGravity,
    ForceAlgorithmStep.applyCoulombsLaw, ForceAlgorithmStep.applyHooksLaw.
  cbn [GraphLayout.nodes GraphLayout.edges objValues map snd fold_left].
  unfold ForceAlgorithmStep.coulombVisit. rewrite String.eqb_refl.
  unfold ForceAlgorithmStep.gravityVisit, ForceAlgorithmStep.applyForce.
  cbn [objGet objSet]. now rewrite gravity_small.
Qed.

Lemma lone_springyStep g k n :
  LayoutNode.designerId n = k -> inherited k = false -> GraphDefinition.edges g = [] ->
  Vector2D.magnitude (LayoutNode.position n) <= 10000 ->
  GraphLayout.springyStep (GraphLayout.mk g [(k, n)] [])
  = Ok (GraphLayout.mk g [(k, scaled n (99 / 100))] []).
Proof.
  intros Hid Hk He H. unfold GraphLayout.springyStep.
  rewrite runForces_total;
    [|intros n0 [<-|[]]; simpl; now rewrite Hid | intros edge []].
  cbn [bind]. rewrite (lone_stepForces g k n H).
  unfold GraphLayout.changePositions, GraphLayout.fillEdges.
  cbn [GraphLayout.nodes GraphLayout.graph objMapValues map fst snd]. rewrite He.
  cbn [mapM bind]. unfold ForceAlgorithmStep.moveNode. cbn [objGet].
  rewrite String.eqb_refl. do 4 f_equal.
  unfold scaled, LayoutNode.translate. destruct n as [nd px py]. simpl.
  unfold GRAVITY. f_equal; lra.
Qed.

Lemma scaled_magnitude n c :
  0 <= c <= 1 ->
  Vector2D.magnitude (LayoutNode.position n) <= 10000 ->
  Vector2D.magnitude (LayoutNode.position (scaled n c)) <= 10000.
Proof.
  intros Hc H.
  replace (LayoutNode.position (scaled n c)) with (Vector2D.multiply (LayoutNode.position n) c)
    by reflexivity.
  rewrite magnitude_multiply by lra.
  pose proof (magnitude_nonneg (LayoutNode.position n)). nra.
Qed.

Lemma lone_springySteps g k steps :
  inherited k = false -> GraphDefinition.edges g = [] ->
  forall n,
    LayoutNode.designerId n = k ->
    Vector2D.magnitude (LayoutNode.position n) <= 10000 ->
    GraphLayout.springySteps steps (GraphLayout.mk g [(k, n)] [])
    = Ok (GraphLayout.mk g [(k, scaled n ((99 / 100) ^ steps))] []).
Proof.
  intros Hk He. induction steps as [|s IH]; intros n Hid H.
  - simpl. do 4 f_equal. unfold scaled. destruct n as [nd px py]. simpl. f_equal; lra.
  - cbn [GraphLayout.springySteps]. rewrite (lone_springyStep g k n Hid Hk He H). cbn [bind].
    rewrite IH; [|exact Hid | apply scaled_magnitude; [lra | exact H]].
    do 4 f_equal. unfold scaled. simpl. f_equal; ring.
Qed.

(** X16.  A node on its own, whose designer id is not the name of an
    inherited member, in a produced layout over a graph without any edge
    and with its centre no further than 10000 from the origin, is drawn
    to the origin by gravity alone: each relaxation step takes its centre
    to 99/100 of where it was, and [springyAlg] takes it to (99/100)^50
    of where it was. *)
Theorem lone_node_relaxes (l : GraphLayout.t) (k : string) (n : LayoutNode.t) :
  produced l ->
  GraphLayout.nodes l = [(k, n)] ->
  inherited k = false ->
  GraphDefinition.edges (GraphLayout.graph l) = [] ->
  GraphDefinition.strays (GraphLayout.graph l) = [] ->
  Vector2D.magnitude (LayoutNode.position n) <= 10000 ->
  GraphLayout.springyStep l = Ok (GraphLayout.mk (GraphLayout.graph l) [(k, scaled n (99 / 100))] [])
  /\ GraphLayout.springyAlg l
     = Ok (GraphLayout.mk (GraphLayout.graph l) [(k, scaled n ((99 / 100) ^ 50))] []).
Proof.
  intros Hp En Hk He _ H. pose proof (produced_sound l Hp) as Hs.
  assert (Hid : LayoutNode.designerId n = k).
  { apply (sound_ids l Hs). rewrite En. now left. }
  assert (El : l = GraphLayout.mk (GraphLayout.graph l) [(k, n)] []).
  { pose proof (sound_edges l Hs) as E. unfold GraphLayout.fillEdges in E.
    cbn [GraphLayout.graph GraphLayout.nodes] in E. rewrite He in E. cbn [mapM bind] in E.
    injection E as E. rewrite <- E at 1. now rewrite En. }
  rewrite El at 1 3. split.
  - now apply lone_springyStep.
  - unfold GraphLayout.springyAlg, SPRINGY_STEPS. now apply lone_springySteps.
Qed.

Lemma singleRadius_bounds : 2 < singleRadius < 4.
Proof.
  unfold singleRadius, circleRadius.
  assert (Hd : halfDiagonal nodeS = 5 / 2).
  { unfold halfDiagonal, nodeS. simpl.
    replace (3 * 3 / 4 + 4 * 4 / 4) with ((5 / 2) * (5 / 2)) by lra.
    apply sqrt_square. lra. }
  rewrite Hd. simpl INR. pose proof PI2_3_2 as Hp.
  assert (H : 0 < (1 * (5 / 2)) / (2 * PI) < 1).
  { split.
    - apply Rdiv_lt_0_compat; lra.
    - apply (Rmult_lt_reg_r (2 * PI)); [lra|].
      unfold Rdiv. rewrite Rmult_assoc, Rinv_l by lra. lra. }
  lra.
Qed.

Lemma single_magnitude : Vector2D.magnitude (LayoutNode.position singlePlaced) <= 10000.
Proof.
  pose proof singleRadius_bounds as H.
  unfold singlePlaced, LayoutNode.position. cbn [LayoutNode.x LayoutNode.y].
  rewrite circle_point_magnitude; lra.
Qed.

Lemma lone_node_relaxes_witness :
  GraphLayout.springyStep singleLayout
  = Ok (GraphLayout.mk (GraphLayout.graph singleLayout)
          [("a"%string, scaled singlePlaced (99 / 100))] [])
  /\ GraphLayout.springyAlg singleLayout
     = Ok (GraphLayout.mk (GraphLayout.graph singleLayout)
             [("a"%string, scaled singlePlaced ((99 / 100) ^ 50))] []).
Proof.
  exact (lone_node_relaxes singleLayout "a"%string singlePlaced
           single_produced eq_refl eq_refl eq_refl eq_refl single_magnitude).
Defined.

(** ** createCircle and nodes without a radius *)



